(** * Buzzer video ad player: a shallow embedding of [src/js/buzzer-video.js]

    The development follows the source file class by class:
    [BuzzerVideoPlayer] (VAST parsing, rendering, quartile tracking, skip),
    [BuzzerInterstitial] (countdown-gated overlay), [BuzzerRewardedAd]
    (overlay around a video player that grants a reward) and
    [BuzzerOutstream] (a player loaded when its container becomes visible).

    Modelling conventions.
    - A JavaScript number is an exact rational extended with the two
      infinities and NaN; rounding of doubles and the sign of zero are not
      represented. Comparisons and signs are those of the program. A
      computed value is that of the program where the exact result is a
      double, as it is for integers below 2^53; a theorem that states a
      computed value carries the bound under which this holds.
    - A JavaScript string is a [string] whose characters are code units
      below 256.
    - A method is a computation over the receiver's state that appends to a
      log of host-visible effects (image beacons, opened windows, callback
      invocations) and may throw.
    - The XML document handed back by [DOMParser] is the list of its
      elements in document order; the code only ever selects by tag name. *)

From Stdlib Require Import Ascii String QArith Qround.
From stdpp Require Import gmap strings list fin_maps.

Local Open Scope Z_scope.

(* ===================================================================== *)
(** ** JavaScript numbers *)
(* ===================================================================== *)

Module JsNum.

(** The finite numbers are exact rationals. Comparisons, signs, NaN and
    the infinities behave as in the program; a sum, difference, product or
    quotient is the program's where the exact result is a double. *)
Inductive num : Type :=
| Fin (q : Q)
| PInf
| NInf
| NaN.

Definition of_Z (z : Z) : num := Fin (inject_Z z).

Definition Qzero (q : Q) : bool := Z.eqb (Qnum q) 0.
Definition Qpositive (q : Q) : bool := Z.ltb 0 (Qnum q).
Definition Qnegative (q : Q) : bool := Z.ltb (Qnum q) 0.

Definition Qltb (x y : Q) : bool :=
  match Qcompare x y with Lt => true | _ => false end.
Definition Qleb (x y : Q) : bool :=
  match Qcompare x y with Gt => false | _ => true end.

Definition neg (a : num) : num :=
  match a with
  | Fin x => Fin (Qred (Qopp x))
  | PInf => NInf
  | NInf => PInf
  | NaN => NaN
  end.

Definition add (a b : num) : num :=
  match a, b with
  | NaN, _ | _, NaN => NaN
  | Fin x, Fin y => Fin (Qred (Qplus x y))
  | PInf, NInf | NInf, PInf => NaN
  | PInf, _ | _, PInf => PInf
  | NInf, _ | _, NInf => NInf
  end.

Definition sub (a b : num) : num := add a (neg b).

(** The sign of an infinite product or quotient. *)
Definition signed_inf (positive : bool) : num :=
  if positive then PInf else NInf.

Definition mul (a b : num) : num :=
  match a, b with
  | NaN, _ | _, NaN => NaN
  | Fin x, Fin y => Fin (Qred (Qmult x y))
  | Fin x, PInf | PInf, Fin x =>
      if Qzero x then NaN else signed_inf (Qpositive x)
  | Fin x, NInf | NInf, Fin x =>
      if Qzero x then NaN else signed_inf (Qnegative x)
  | PInf, PInf | NInf, NInf => PInf
  | PInf, NInf | NInf, PInf => NInf
  end.

Definition div (a b : num) : num :=
  match a, b with
  | NaN, _ | _, NaN => NaN
  | Fin x, Fin y =>
      if Qzero y
      then (if Qzero x then NaN else signed_inf (Qpositive x))
      else Fin (Qred (Qdiv x y))
  | Fin _, (PInf | NInf) => Fin 0
  | (PInf | NInf), (PInf | NInf) => NaN
  | PInf, Fin y => signed_inf (negb (Qnegative y))
  | NInf, Fin y => signed_inf (Qnegative y)
  end.

(** [Math.ceil] *)
Definition ceil (a : num) : num :=
  match a with
  | Fin x => of_Z (Qceiling x)
  | _ => a
  end.

(** [a > b] *)
Definition gtb (a b : num) : bool :=
  match a, b with
  | NaN, _ | _, NaN => false
  | Fin x, Fin y => Qltb y x
  | PInf, (Fin _ | NInf) => true
  | Fin _, NInf => true
  | _, _ => false
  end.

(** [a >= b] *)
Definition geb (a b : num) : bool :=
  match a, b with
  | NaN, _ | _, NaN => false
  | Fin x, Fin y => Qleb y x
  | PInf, _ => true
  | _, NInf => true
  | _, _ => false
  end.

(** ToBoolean on a number: zero and NaN are falsy. *)
Definition truthy (a : num) : bool :=
  match a with
  | Fin x => negb (Qzero x)
  | NaN => false
  | _ => true
  end.

(** [a || d] on numbers. *)
Definition or_default (a d : num) : num := if truthy a then a else d.

End JsNum.

Import JsNum.

(* ===================================================================== *)
(** ** JavaScript strings: whitespace, [trim], [split], [parseInt] *)
(* ===================================================================== *)

Module JsString.

(** WhiteSpace and LineTerminator code units below 256: TAB, LF, VT, FF,
    CR, SP and NBSP. *)
Definition is_space (c : ascii) : bool :=
  let n := N_of_ascii c in
  (N.eqb n 9 || N.eqb n 10 || N.eqb n 11 || N.eqb n 12 || N.eqb n 13
   || N.eqb n 32 || N.eqb n 160)%bool.

Fixpoint trim_start (s : string) : string :=
  match s with
  | String c s' => if is_space c then trim_start s' else s
  | EmptyString => EmptyString
  end.

(** Drops trailing whitespace: a character is kept when it is not
    whitespace or something is kept after it. *)
Fixpoint trim_end (s : string) : string :=
  match s with
  | EmptyString => EmptyString
  | String c s' =>
      match trim_end s' with
      | EmptyString => if is_space c then EmptyString else String c EmptyString
      | t => String c t
      end
  end.

(** [String.prototype.trim] *)
Definition trim (s : string) : string := trim_end (trim_start s).

(** [s.split(sep)] for a one-character separator. The empty string
    splits into one empty part. *)
Fixpoint split (sep : ascii) (s : string) : list string :=
  match s with
  | EmptyString => [EmptyString]
  | String c s' =>
      if Ascii.eqb c sep then EmptyString :: split sep s'
      else match split sep s' with
           | part :: parts => String c part :: parts
           | [] => [String c EmptyString]
           end
  end.

(** Value of a character as a digit in the given radix (10 or 16). *)
Definition digit_value (radix : Z) (c : ascii) : option Z :=
  let n := Z.of_N (N_of_ascii c) in
  let v :=
    if (48 <=? n) && (n <=? 57) then Some (n - 48)
    else if (97 <=? n) && (n <=? 102) then Some (n - 87)
    else if (65 <=? n) && (n <=? 70) then Some (n - 55)
    else None in
  match v with
  | Some d => if d <? radix then Some d else None
  | None => None
  end.

(** Reads the longest prefix of radix digits, left to right. The result
    is [None] when the prefix is empty. *)
Fixpoint read_digits (radix : Z) (acc : option Z) (s : string) : option Z :=
  match s with
  | EmptyString => acc
  | String c s' =>
      match digit_value radix c with
      | Some d => read_digits radix (Some (default 0 acc * radix + d)) s'
      | None => acc
      end
  end.

(** [parseInt(s)] with no radix argument: leading whitespace is skipped,
    one sign is accepted, a [0x]/[0X] prefix selects radix 16, and the
    longest digit prefix is read; no digit at all gives NaN. The integer
    read is exact: it is the program's below 2^53, beyond which the
    program rounds to a double. *)
Definition parseInt (s : string) : num :=
  let s1 := trim_start s in
  let '(negative, s2) :=
    match s1 with
    | String "-" r => (true, r)
    | String "+" r => (false, r)
    | _ => (false, s1)
    end in
  let '(radix, s3) :=
    match s2 with
    | String "0" (String "x" r) => (16, r)
    | String "0" (String "X" r) => (16, r)
    | _ => (10, s2)
    end in
  match read_digits radix None s3 with
  | Some v => of_Z (if negative then - v else v)
  | None => NaN
  end.

(** ToBoolean on a string: only the empty string is falsy. *)
Definition nonempty (s : string) : bool :=
  match s with EmptyString => false | _ => true end.

End JsString.

Import JsString.

(* ===================================================================== *)
(** ** Values, effects and the method monad *)
(* ===================================================================== *)

(** The values the code passes to callbacks: primitives, error objects and
    object literals of primitives, with their keys in insertion order. *)
Inductive prim : Type :=
| PString (s : string)
| PNumber (n : num).

Inductive jsval : Type :=
| VUndefined
| VPrim (p : prim)
| VError (message : string)
| VObject (fields : list (string * prim)).

(** Host-visible effects, generic in the type [cb] of callback functions. *)
Inductive effect (cb : Type) : Type :=
| Pixel (url : string)                 (* new Image().src = url *)
| WindowOpen (url target : string)     (* window.open(url, target) *)
| VideoPlay                            (* videoElement.play() *)
| VideoPause                           (* videoElement.pause() *)
| ConsoleError (message : string)      (* console.error(message, ...) *)
| Invoke (f : cb) (args : list jsval). (* f(...args) *)

Arguments Pixel {cb} url.
Arguments WindowOpen {cb} url target.
Arguments VideoPlay {cb}.
Arguments VideoPause {cb}.
Arguments ConsoleError {cb} message.
Arguments Invoke {cb} f args.

Inductive completion (A : Type) : Type :=
| Return (a : A)
| Throw (e : jsval).

Arguments Return {A} a.
Arguments Throw {A} e.

Module Method.
Section Method.
Context {cb S : Type}.

(** A method body: from the receiver's state to a completion, the new
    state and the effects performed, in order. Mutations and effects made
    before a throw are kept. *)
Definition method (A : Type) : Type :=
  S -> completion A * S * list (effect cb).

Definition ret {A} (a : A) : method A := fun s => (Return a, s, []).

Definition bind {A B} (m : method A) (k : A -> method B) : method B :=
  fun s =>
    match m s with
    | (Return a, s1, e1) =>
        match k a s1 with (c, s2, e2) => (c, s2, e1 ++ e2) end
    | (Throw e, s1, e1) => (Throw e, s1, e1)
    end.

Definition get : method S := fun s => (Return s, s, []).
Definition modify (f : S -> S) : method unit := fun s => (Return tt, f s, []).
Definition emit (e : effect cb) : method unit := fun s => (Return tt, s, [e]).
Definition emit_all (es : list (effect cb)) : method unit :=
  fun s => (Return tt, s, es).
Definition throw {A} (e : jsval) : method A := fun s => (Throw e, s, []).

(** [if (b) { m }] *)
Definition when (b : bool) (m : method unit) : method unit :=
  if b then m else ret tt.

(** [if (f) f(...args)] for a callback-valued option. *)
Definition call_if_set (f : option cb) (args : list jsval) : method unit :=
  match f with
  | Some g => emit (Invoke g args)
  | None => ret tt
  end.

(** Property access on a possibly-null reference. *)
Definition deref {A} (r : option A) : method A :=
  match r with
  | Some a => ret a
  | None => throw (VError "TypeError: Cannot read properties of null")
  end.

(** [try { body } catch (error) { handler(error) }] *)
Definition try_catch (body : method unit) (handler : jsval -> method unit)
  : method unit :=
  fun s =>
    match body s with
    | (Throw e, s1, e1) =>
        match handler e s1 with (c, s2, e2) => (c, s2, e1 ++ e2) end
    | r => r
    end.

Definition state_of {A} (r : completion A * S * list (effect cb)) : S :=
  snd (fst r).
Definition effects_of {A} (r : completion A * S * list (effect cb))
  : list (effect cb) := snd r.
Definition completion_of {A} (r : completion A * S * list (effect cb))
  : completion A := fst (fst r).

(** A result with more effects in front of its own. *)
Definition prepend {A} (es : list (effect cb))
           (r : completion A * S * list (effect cb))
  : completion A * S * list (effect cb) :=
  (completion_of r, state_of r, es ++ effects_of r).

End Method.
End Method.

Import Method.

Notation "x <- m ;; k" := (bind m (fun x => k))
  (at level 100, m at next level, right associativity).
Notation "m ;; k" := (bind m (fun _ => k))
  (at level 100, right associativity).

(* ===================================================================== *)
(** ** The parsed XML document and [parseVast] *)
(* ===================================================================== *)

Module Dom.

Record Element : Type := mkElement {
  tagName : string;
  attributes : gmap string string;
  textContent : string
}.

(** Elements in document order. *)
Definition Document : Type := list Element.

Definition has_tag (tag : string) (e : Element) : bool :=
  bool_decide (tagName e = tag).

(** [doc.querySelectorAll(tag)] *)
Definition querySelectorAll (tag : string) (doc : Document) : list Element :=
  List.filter (has_tag tag) doc.

(** [doc.querySelector(tag)]: the first match or null. *)
Definition querySelector (tag : string) (doc : Document) : option Element :=
  head (querySelectorAll tag doc).

(** [e.getAttribute(name)]: the value or null. *)
Definition getAttribute (name : string) (e : Element) : option string :=
  attributes e !! name.

End Dom.

Import Dom.

Module Vast.

Record VastData : Type := mkVastData {
  mediaFile : option string;
  mediaType : option string;
  width : option string;
  height : option string;
  clickThrough : option string;
  clickTracking : option string;
  impressionUrl : option string;
  skipOffset : option num;          (* None is null *)
  trackingEvents : gmap string string
}.

(** [parseSkipOffset(offset)] *)
Definition parseSkipOffset (offset : string) : num :=
  let parts := split ":" offset in
  match parts with
  | [h; m; s] =>
      add (add (mul (parseInt h) (of_Z 3600)) (mul (parseInt m) (of_Z 60)))
          (parseInt s)
  | _ => or_default (parseInt offset) (of_Z 5)
  end.

(** [obj[key] = value] on an object literal: every key becomes an own
    property except ["__proto__"], whose inherited setter ignores a
    string. *)
Definition set_property (key value : string) (obj : gmap string string)
  : gmap string string :=
  if decide (key = "__proto__") then obj else <[key := value]> obj.

(** The property key made from [t.getAttribute('event')]: null becomes
    the key ["null"]. *)
Definition property_key (attr : option string) : string :=
  default "null" attr.

(** The [forEach] over the Tracking elements, in document order. *)
Definition collect_tracking (ts : list Element) : gmap string string :=
  foldl (fun acc t =>
           set_property (property_key (getAttribute "event" t))
                        (trim (textContent t)) acc)
        ∅ ts.

(** [x ? f(x) : null] for a string-or-null [x]: null and the empty string
    are falsy. *)
Definition if_truthy {A} (x : option string) (f : string -> A) : option A :=
  match x with
  | Some s => if nonempty s then Some (f s) else None
  | None => None
  end.

(** [parseVast(xml)], from the document [DOMParser] returns for [xml]. *)
Definition parseVast (doc : Document) : VastData :=
  let mediaFile := querySelector "MediaFile" doc in
  let clickThrough := querySelector "ClickThrough" doc in
  let impressionUrl := querySelector "Impression" doc in
  let skipOffset :=
    match querySelector "Linear" doc with
    | Some linear => getAttribute "skipoffset" linear
    | None => None
    end in
  let trackingEvents := collect_tracking (querySelectorAll "Tracking" doc) in
  {| mediaFile := (fun e => trim (textContent e)) <$> mediaFile;
     mediaType := mediaFile ≫= getAttribute "type";
     width := mediaFile ≫= getAttribute "width";
     height := mediaFile ≫= getAttribute "height";
     clickThrough := (fun e => trim (textContent e)) <$> clickThrough;
     clickTracking :=
       (fun e => trim (textContent e)) <$> querySelector "ClickTracking" doc;
     impressionUrl := (fun e => trim (textContent e)) <$> impressionUrl;
     skipOffset := if_truthy skipOffset parseSkipOffset;
     trackingEvents := trackingEvents |}.

End Vast.

Import Vast.

(* ===================================================================== *)
(** ** [class BuzzerVideoPlayer] *)
(* ===================================================================== *)

Module VideoPlayer.
Section WithCallbacks.
Context {cb : Type}.

(** The [options] argument of the constructor. [None] is an absent key;
    for [skipOffset] a present key may hold null. *)
Record UserOptions : Type := mkUserOptions {
  given_vastUrl : option string;
  given_width : option Z;
  given_height : option Z;
  given_autoplay : option bool;
  given_muted : option bool;
  given_onComplete : option cb;
  given_onSkip : option cb;
  given_onError : option cb;
  given_onReward : option cb;
  given_skipOffset : option (option num)
}.

(** [this.options] *)
Record Options : Type := mkOptions {
  vastUrl : option string;
  width : Z;
  height : Z;
  autoplay : bool;
  muted : bool;
  onComplete : option cb;
  onSkip : option cb;
  onError : option cb;
  onReward : option cb;
  skipOffset : option num
}.

(** [{ key: fallback, ...options }]: a key present in [options] replaces
    the fallback computed for it, whatever its value. *)
Definition spread {A} (fallback : A) (given : option A) : A :=
  default fallback given.

Definition make_options (o : UserOptions) : Options :=
  {| vastUrl := given_vastUrl o;
     width := spread 640 (given_width o);
     height := spread 360 (given_height o);
     autoplay := spread false (given_autoplay o);
     muted := spread true (given_muted o);
     onComplete := given_onComplete o;
     onSkip := given_onSkip o;
     onError := given_onError o;
     onReward := given_onReward o;
     skipOffset := spread (Some (of_Z 5)) (given_skipOffset o) |}.

(** Children the player appends to its container. *)
Inductive node : Type := VideoNode | SkipButtonNode | AdLabelNode.

#[export] Instance node_eq_dec : EqDecision node.
Proof. solve_decision. Defined.

Inductive skip_label : Type :=
| NoLabel
| SkipIn (remaining : num)     (* `Skip in ${remaining}s` *)
| SkipAd.                      (* 'Skip Ad →' *)

Record SkipButton : Type := mkSkipButton {
  label : skip_label;
  disabled : bool;
  opacity : string
}.

Record Video : Type := mkVideo {
  src : option string;
  video_muted : bool
}.

Record Player : Type := mkPlayer {
  options : Options;
  container : list node;
  videoElement : option Video;
  skipButton : option SkipButton;
  vastData : option VastData;
  currentTime : num;
  trackingFired : gset string
}.

Definition set_container (c : list node) (p : Player) : Player :=
  mkPlayer (options p) c (videoElement p) (skipButton p) (vastData p)
           (currentTime p) (trackingFired p).
Definition set_videoElement (v : option Video) (p : Player) : Player :=
  mkPlayer (options p) (container p) v (skipButton p) (vastData p)
           (currentTime p) (trackingFired p).
Definition set_skipButton (b : option SkipButton) (p : Player) : Player :=
  mkPlayer (options p) (container p) (videoElement p) b (vastData p)
           (currentTime p) (trackingFired p).
Definition set_vastData (d : option VastData) (p : Player) : Player :=
  mkPlayer (options p) (container p) (videoElement p) (skipButton p) d
           (currentTime p) (trackingFired p).
Definition set_currentTime (t : num) (p : Player) : Player :=
  mkPlayer (options p) (container p) (videoElement p) (skipButton p)
           (vastData p) t (trackingFired p).
Definition mark_fired (event : string) (p : Player) : Player :=
  mkPlayer (options p) (container p) (videoElement p) (skipButton p)
           (vastData p) (currentTime p) ({[ event ]} ∪ trackingFired p).

Definition appendChild (n : node) (p : Player) : Player :=
  set_container (container p ++ [n]) p.

(** [constructor(container, options = {})] *)
Definition new_player (o : UserOptions) : Player :=
  {| options := make_options o;
     container := [];
     videoElement := None;
     skipButton := None;
     vastData := None;
     currentTime := of_Z 0;
     trackingFired := ∅ |}.

Definition M : Type -> Type := @method cb Player.

(** A string-or-undefined that is truthy. *)
Definition truthy_string (x : option string) : option string :=
  match x with
  | Some s => if nonempty s then Some s else None
  | None => None
  end.

(** [firePixel(url)] *)
Definition firePixel (url : string) : M unit := emit (Pixel url).

(** [fireTracking(event)]. The code passes one of seven literal names,
    none of which is inherited from [Object.prototype], so the property
    read is a lookup among the own keys. *)
Definition fireTracking (event : string) : M unit :=
  p <- get ;;
  vd <- deref (vastData p) ;;
  match truthy_string (trackingEvents vd !! event) with
  | Some url => firePixel url
  | None => ret tt
  end ;;
  match truthy_string (clickTracking vd) with
  | Some url => when (bool_decide (event = "click")) (firePixel url)
  | None => ret tt
  end.

(** ToNumber on a number-or-null. *)
Definition to_number (x : option num) : num := default (of_Z 0) x.

(** [updateSkipButton()] *)
Definition updateSkipButton : M unit :=
  p <- get ;;
  match skipButton p with
  | None => ret tt
  | Some _ =>
      vd <- deref (vastData p) ;;
      let remaining :=
        ceil (sub (to_number (Vast.skipOffset vd)) (currentTime p)) in
      if gtb remaining (of_Z 0)
      then modify (set_skipButton (Some (mkSkipButton (SkipIn remaining) true "0.5")))
      else modify (set_skipButton (Some (mkSkipButton SkipAd false "1")))
  end.

(** [createSkipButton()] *)
Definition createSkipButton : M unit :=
  modify (set_skipButton (Some (mkSkipButton NoLabel false ""))) ;;
  updateSkipButton ;;
  modify (appendChild SkipButtonNode).

(** [render()] *)
Definition render : M unit :=
  modify (set_container []) ;;
  p <- get ;;
  vd <- deref (vastData p) ;;
  modify (set_videoElement
            (Some (mkVideo (mediaFile vd) (muted (options p))))) ;;
  modify (appendChild VideoNode) ;;
  when (bool_decide (Vast.skipOffset vd <> None)) createSkipButton ;;
  modify (appendChild AdLabelNode) ;;
  match truthy_string (impressionUrl vd) with
  | Some url => firePixel url
  | None => ret tt
  end ;;
  when (autoplay (options p)) (emit VideoPlay).

(** [onStart()] *)
Definition onStart : M unit :=
  p <- get ;;
  when (bool_decide ("start" ∉ trackingFired p))
       (fireTracking "start" ;; modify (mark_fired "start")).

(** One of the three quartile checks of [onTimeUpdate]. *)
Definition quartile (percent : num) (threshold : Z) (event : string) : M unit :=
  p <- get ;;
  when (geb percent (of_Z threshold) && bool_decide (event ∉ trackingFired p))
       (fireTracking event ;; modify (mark_fired event)).

(** [onTimeUpdate()], with the position and duration the video element
    reports when the listener runs. *)
Definition onTimeUpdate (video_currentTime video_duration : num) : M unit :=
  p0 <- get ;;
  _ <- deref (videoElement p0) ;;
  modify (set_currentTime video_currentTime) ;;
  p <- get ;;
  let duration := video_duration in
  let percent := mul (div (currentTime p) duration) (of_Z 100) in
  updateSkipButton ;;
  quartile percent 25 "firstQuartile" ;;
  quartile percent 50 "midpoint" ;;
  quartile percent 75 "thirdQuartile".

(** [onComplete()] *)
Definition onCompleteMethod : M unit :=
  fireTracking "complete" ;;
  p <- get ;;
  call_if_set (onComplete (options p)) [] ;;
  call_if_set (onReward (options p)) [].

(** [destroy()] *)
Definition destroy : M unit :=
  p <- get ;;
  match videoElement p with
  | Some v =>
      emit VideoPause ;;
      modify (set_videoElement (Some (mkVideo (Some "") (video_muted v))))
  | None => ret tt
  end ;;
  modify (set_container []).

(** [skip()] *)
Definition skip : M unit :=
  fireTracking "skip" ;;
  p <- get ;;
  call_if_set (onSkip (options p)) [] ;;
  destroy.

(** The click listener [render] puts on the video element. *)
Definition onVideoClick : M unit :=
  p <- get ;;
  vd <- deref (vastData p) ;;
  match truthy_string (clickThrough vd) with
  | Some url => emit (WindowOpen url "_blank") ;; fireTracking "click"
  | None => ret tt
  end.

(** What [await fetch(url)], [await response.text()] and [DOMParser]
    give [load]: a rejection, or the parsed document. *)
Inductive fetched : Type :=
| FetchRejected (error : jsval)
| FetchDocument (doc : Document).

(** [load()] *)
Definition load (response : fetched) : M unit :=
  p <- get ;;
  match truthy_string (vastUrl (options p)) with
  | None => emit (ConsoleError "No VAST URL provided")
  | Some _ =>
      try_catch
        (match response with
         | FetchRejected error => throw error
         | FetchDocument doc =>
             modify (set_vastData (Some (parseVast doc))) ;;
             match truthy_string (mediaFile (parseVast doc)) with
             | None => throw (VError "No media file in VAST response")
             | Some _ => render
             end
         end)
        (fun error =>
           emit (ConsoleError "VAST load error:") ;;
           call_if_set (onError (options p)) [error])
  end.

(** What can reach a player: the media events and clicks its listeners
    are registered for, a media error (no listener), and calls of the
    public methods [skip] and [destroy]. *)
Inductive input : Type :=
| Play
| TimeUpdate (video_currentTime video_duration : num)
| Ended
| VideoClick
| SkipClick
| MediaError
| CallSkip
| CallDestroy.

(** Listener dispatch. Media events need the video element [render]
    created; a click needs its target attached to the container, and the
    skip button does not receive clicks while disabled. *)
Definition handle (i : input) : M unit :=
  p <- get ;;
  match i with
  | Play => when (bool_decide (videoElement p <> None)) onStart
  | TimeUpdate t d =>
      when (bool_decide (videoElement p <> None)) (onTimeUpdate t d)
  | Ended => when (bool_decide (videoElement p <> None)) onCompleteMethod
  | VideoClick => when (bool_decide (VideoNode ∈ container p)) onVideoClick
  | SkipClick =>
      match skipButton p with
      | Some b =>
          when (bool_decide (SkipButtonNode ∈ container p) && negb (disabled b))
               skip
      | None => ret tt
      end
  | MediaError => ret tt
  | CallSkip => skip
  | CallDestroy => destroy
  end.

(** A sequence of inputs, each handled in its own turn: an exception
    thrown by one handler does not stop the next event. *)
Fixpoint run (inputs : list input) (p : Player) : Player * list (effect cb) :=
  match inputs with
  | [] => (p, [])
  | i :: rest =>
      let r := handle i p in
      let r' := run rest (state_of r) in
      (fst r', effects_of r ++ snd r')
  end.

(** The pixels in an effect log, in order. *)
Definition pixels (es : list (effect cb)) : list string :=
  omap (fun e => match e with Pixel u => Some u | _ => None end) es.

(** The callback invocations in an effect log, in order. *)
Definition invocations (es : list (effect cb)) : list (cb * list jsval) :=
  omap (fun e => match e with Invoke f a => Some (f, a) | _ => None end) es.

End WithCallbacks.

Arguments UserOptions cb : clear implicits.
Arguments Options cb : clear implicits.
Arguments Player cb : clear implicits.

End VideoPlayer.

(* ===================================================================== *)
(** ** [class BuzzerInterstitial] *)
(* ===================================================================== *)

(** One [show()] per instance is modelled: the overlay, the close button,
    the timer display and the interval are the ones that call creates. *)
Module Interstitial.
Section WithCallbacks.
Context {cb : Type}.

Record UserOptions : Type := mkUserOptions {
  given_zoneId : option string;
  given_onClose : option cb;
  given_closeAfter : option Z
}.

Record Options : Type := mkOptions {
  zoneId : option string;
  onClose : option cb;
  closeAfter : Z
}.

Definition make_options (o : UserOptions) : Options :=
  {| zoneId := given_zoneId o;
     onClose := given_onClose o;
     closeAfter := VideoPlayer.spread 5 (given_closeAfter o) |}.

(** The timer display: [Close in ${remaining}s], and its
    [style.display]. *)
Record TimerDisplay : Type := mkTimerDisplay {
  shown_remaining : Z;
  timer_hidden : bool
}.

Record State : Type := mkState {
  options : Options;
  overlay : bool;               (* this.overlay is not null *)
  closeButton : option bool;    (* this.closeButton, with: display is flex *)
  timer : option nat;           (* this.timer, an interval id *)
  (* the host side *)
  overlay_in_body : bool;       (* the overlay node is in document.body *)
  intervals : gset nat;         (* intervals the host will still fire *)
  remaining : Z;                (* the countdown variable of show() *)
  timerDisplay : option TimerDisplay
}.

Definition M : Type -> Type := @method cb State.

(** [constructor(options = {})] *)
Definition new_interstitial (o : UserOptions) : State :=
  {| options := make_options o;
     overlay := false;
     closeButton := None;
     timer := None;
     overlay_in_body := false;
     intervals := ∅;
     remaining := 0;
     timerDisplay := None |}.

(** The id [setInterval] returns: positive, hence truthy. *)
Definition countdown_id : nat := 1%nat.

(** [show()] *)
Definition show : M unit :=
  modify (fun s =>
    {| options := options s;
       overlay := true;
       closeButton := Some false;
       timer := Some countdown_id;
       overlay_in_body := true;
       intervals := {[ countdown_id ]} ∪ intervals s;
       remaining := closeAfter (options s);
       timerDisplay := Some (mkTimerDisplay (closeAfter (options s)) false) |}).

(** [clearInterval(this.timer)] *)
Definition clear_timer (s : State) : State :=
  match timer s with
  | Some id =>
      mkState (options s) (overlay s) (closeButton s) (timer s)
              (overlay_in_body s) (intervals s ∖ {[ id ]}) (remaining s)
              (timerDisplay s)
  | None => s
  end.

(** The interval callback of [show()]. *)
Definition tick : M unit :=
  modify (fun s =>
    mkState (options s) (overlay s) (closeButton s) (timer s)
            (overlay_in_body s) (intervals s) (remaining s - 1)
            (timerDisplay s)) ;;
  s <- get ;;
  if remaining s <=? 0
  then
    modify clear_timer ;;
    modify (fun s =>
      mkState (options s) (overlay s) (Some true) (timer s)
              (overlay_in_body s) (intervals s) (remaining s)
              (Some (mkTimerDisplay
                       (default 0 (shown_remaining <$> timerDisplay s)) true)))
  else
    modify (fun s =>
      mkState (options s) (overlay s) (closeButton s) (timer s)
              (overlay_in_body s) (intervals s) (remaining s)
              (Some (mkTimerDisplay (remaining s) false))).

(** [close()] *)
Definition close : M unit :=
  modify clear_timer ;;
  s <- get ;;
  when (overlay s)
       (modify (fun s =>
          mkState (options s) false (closeButton s) (timer s)
                  false (intervals s) (remaining s) (timerDisplay s))) ;;
  call_if_set (onClose (options s)) [].

Inductive input : Type :=
| Tick            (* the host fires the interval *)
| CloseClick      (* a click on the close button *)
| CallClose.      (* close() called by the page *)

(** The interval fires only while registered; the close button takes a
    click only while it is displayed inside an attached overlay. *)
Definition handle (i : input) : M unit :=
  s <- get ;;
  match i with
| Tick => when (bool_decide (countdown_id ∈ intervals s)) tick
| CloseClick =>
      when (overlay_in_body s && default false (closeButton s)) close
| CallClose => close
  end.

Fixpoint run (inputs : list input) (s : State) : State * list (effect cb) :=
  match inputs with
  | [] => (s, [])
  | i :: rest =>
      let r := handle i s in
      let r' := run rest (state_of r) in
      (fst r', effects_of r ++ snd r')
  end.

(** [close()] called [n] times in a row. *)
Definition close_times (n : nat) : list input := replicate n CallClose.

End WithCallbacks.

Arguments UserOptions cb : clear implicits.
Arguments Options cb : clear implicits.
Arguments State cb : clear implicits.

End Interstitial.

(* ===================================================================== *)
(** ** [class BuzzerRewardedAd] *)
(* ===================================================================== *)

(** One [show()] per instance is modelled; inputs address the player that
    call creates. [load()] runs as one step when the fetch settles. *)
Module Rewarded.
Section WithCallbacks.
Context {cb : Type}.

Record UserOptions : Type := mkUserOptions {
  given_vastUrl : option string;
  given_rewardType : option string;
  given_rewardAmount : option num;
  given_onReward : option cb;
  given_onClose : option cb;
  given_onError : option cb
}.

Record Options : Type := mkOptions {
  vastUrl : option string;
  rewardType : string;
  rewardAmount : num;
  onReward : option cb;
  onClose : option cb;
  onError : option cb
}.

Definition make_options (o : UserOptions) : Options :=
  {| vastUrl := given_vastUrl o;
     rewardType := VideoPlayer.spread "coins" (given_rewardType o);
     rewardAmount := VideoPlayer.spread (of_Z 100) (given_rewardAmount o);
     onReward := given_onReward o;
     onClose := given_onClose o;
     onError := given_onError o |}.

(** The two arrow functions [show()] hands to the player. *)
Inductive closure : Type :=
| OnCompleteClosure     (* () => { this.grantReward(); this.close(); } *)
| OnErrorClosure.       (* (error) => { if (onError) onError(error); this.close(); } *)

Record State : Type := mkState {
  options : Options;
  overlay : bool;                                (* this.overlay is not null *)
  player : option (VideoPlayer.Player closure);  (* this.player *)
  (* the host side *)
  overlay_in_body : bool;
  popups : nat;            (* reward popups currently in document.body *)
  timeouts : nat           (* grantReward timeouts not yet fired *)
}.

Definition M : Type -> Type := @method cb State.

(** [constructor(options = {})] *)
Definition new_rewarded (o : UserOptions) : State :=
  {| options := make_options o;
     overlay := false;
     player := None;
     overlay_in_body := false;
     popups := 0;
     timeouts := 0 |}.

(** The options object literal of [new BuzzerVideoPlayer(...)] in
    [show()]. *)
Definition player_options (s : State) : VideoPlayer.UserOptions closure :=
  {| VideoPlayer.given_vastUrl := vastUrl (options s);
     VideoPlayer.given_width := Some 640;
     VideoPlayer.given_height := Some 360;
     VideoPlayer.given_autoplay := Some true;
     VideoPlayer.given_muted := Some false;
     VideoPlayer.given_skipOffset := Some None;     (* No skip for rewarded *)
     VideoPlayer.given_onComplete := Some OnCompleteClosure;
     VideoPlayer.given_onError := Some OnErrorClosure;
     VideoPlayer.given_onSkip := None;
     VideoPlayer.given_onReward := None |}.

(** [show()], up to the call of [this.player.load()]. *)
Definition show : M unit :=
  modify (fun s =>
    {| options := options s;
       overlay := true;
       player := Some (VideoPlayer.new_player (player_options s));
       overlay_in_body := true;
       popups := popups s;
       timeouts := timeouts s |}).

(** [grantReward()]: the popup is appended and the 2000 ms timeout is
    registered. *)
Definition grantReward : M unit :=
  modify (fun s =>
    mkState (options s) (overlay s) (player s) (overlay_in_body s)
            (S (popups s)) (S (timeouts s))).

(** The object literal passed to [onReward]. *)
Definition reward_object (o : Options) : jsval :=
  VObject [("type", PString (rewardType o));
           ("amount", PNumber (rewardAmount o))].

(** The timeout callback of [grantReward()]. *)
Definition reward_timeout : M unit :=
  modify (fun s =>
    mkState (options s) (overlay s) (player s) (overlay_in_body s)
            (Nat.pred (popups s)) (Nat.pred (timeouts s))) ;;
  s <- get ;;
  call_if_set (onReward (options s)) [reward_object (options s)].

(** An effect of the player that is not a callback invocation, seen
    from the page. *)
Definition passthrough (e : effect closure) : option (effect cb) :=
  match e with
  | Pixel u => Some (Pixel u)
  | WindowOpen u t => Some (WindowOpen u t)
  | VideoPlay => Some VideoPlay
  | VideoPause => Some VideoPause
  | ConsoleError m => Some (ConsoleError m)
  | Invoke _ _ => None
  end.

(** [close()]. [destroy()] invokes no callback. *)
Definition close : M unit :=
  s <- get ;;
  match player s with
  | Some p =>
      let r := VideoPlayer.destroy p in
      modify (fun s =>
        mkState (options s) (overlay s) (Some (state_of r))
                (overlay_in_body s) (popups s) (timeouts s)) ;;
      emit_all (omap passthrough (effects_of r))
  | None => ret tt
  end ;;
  s <- get ;;
  when (overlay s)
       (modify (fun s =>
          mkState (options s) false (player s) false (popups s) (timeouts s))) ;;
  call_if_set (onClose (options s)) [].

(** The body of a closure the player invokes. *)
Definition run_closure (f : closure) (args : list jsval) : M unit :=
  match f with
  | OnCompleteClosure => grantReward ;; close
  | OnErrorClosure =>
      s <- get ;;
      call_if_set (onError (options s)) [default VUndefined (head args)] ;;
      close
  end.

(** The effects of a player method, in order, with each closure
    invocation replaced by the closure's body. *)
Fixpoint replay (es : list (effect closure)) : M unit :=
  match es with
  | [] => ret tt
  | Invoke f args :: rest => run_closure f args ;; replay rest
  | e :: rest =>
      match passthrough e with
      | Some e' => emit e'
      | None => ret tt
      end ;;
      replay rest
  end.

(** A method of [this.player] run from an event: the player's state is
    stored back and its effects replayed. The closures only touch the
    player through [destroy()], and the player methods only read their
    options after a callback returns, so storing first is sound. An
    exception leaving the method is uncaught and ends the event. *)
Definition on_player (m : @method closure (VideoPlayer.Player closure) unit)
  : M unit :=
  s <- get ;;
  match player s with
  | Some p =>
      let r := m p in
      modify (fun s =>
        mkState (options s) (overlay s) (Some (state_of r))
                (overlay_in_body s) (popups s) (timeouts s)) ;;
      replay (effects_of r)
  | None => ret tt
  end.

Inductive input : Type :=
| Loaded (response : VideoPlayer.fetched)   (* the fetch of load() settles *)
| Video (i : VideoPlayer.input)             (* an input of the player *)
| Timeout                                   (* a grantReward timeout fires *)
| CallClose.                                (* close() called by the page *)

Definition handle (i : input) : M unit :=
  s <- get ;;
  match i with
| Loaded response => on_player (VideoPlayer.load response)
| Video v => on_player (VideoPlayer.handle v)
| Timeout => when (bool_decide (timeouts s <> 0%nat)) reward_timeout
| CallClose => close
  end.

Fixpoint run (inputs : list input) (s : State) : State * list (effect cb) :=
  match inputs with
  | [] => (s, [])
  | i :: rest =>
      let r := handle i s in
      let r' := run rest (state_of r) in
      (fst r', effects_of r ++ snd r')
  end.

(** The calls of [f] in an effect log, with their arguments. *)
Definition calls_of `{EqDecision cb} (f : cb) (es : list (effect cb))
  : list (list jsval) :=
  omap (fun e => match e with
                 | Invoke g args => if decide (g = f) then Some args else None
                 | _ => None
                 end) es.

End WithCallbacks.

Arguments UserOptions cb : clear implicits.
Arguments Options cb : clear implicits.
Arguments State cb : clear implicits.

End Rewarded.

(* ===================================================================== *)
(** ** [class BuzzerOutstream] *)
(* ===================================================================== *)

(** The instance observes its container; the first entry that intersects
    creates the player and starts its [load()]. The container is the
    player's, so its style is written by [render()] and by the completion
    closure. The fetch of [load()] settles once, while it is pending. *)
Module Outstream.
Section WithCallbacks.
Context {cb : Type}.

Record UserOptions : Type := mkUserOptions {
  given_vastUrl : option string
}.

Record Options : Type := mkOptions {
  vastUrl : option string
}.

Definition make_options (o : UserOptions) : Options :=
  {| vastUrl := given_vastUrl o |}.

(** A value of a style property: [n + 'px'] or a literal. *)
Inductive css_value : Type :=
| Px (n : Z)
| Literal (s : string).

(** [container.style], for the properties the code writes. *)
Record Style : Type := mkStyle {
  position : option css_value;
  width : option css_value;
  height : option css_value;
  backgroundColor : option css_value;
  overflow : option css_value;
  transition : option css_value
}.

Definition no_style : Style := mkStyle None None None None None None.

(** The arrow function [load()] hands to the player as [onComplete]. *)
Inductive closure : Type :=
| CollapseClosure.

Record State : Type := mkState {
  options : Options;
  observer : bool;                                (* this.observer is not null *)
  player : option (VideoPlayer.Player closure);   (* this.player *)
  hasPlayed : bool;
  (* the host side *)
  offsetWidth : Z;        (* container.offsetWidth *)
  style : Style;          (* container.style *)
  pending : bool          (* the fetch of player.load() has not settled *)
}.

Definition M : Type -> Type := @method cb State.

(** [constructor(container, options = {})], for a container of the given
    layout width. *)
Definition new_outstream (o : UserOptions) (container_width : Z) : State :=
  {| options := make_options o;
     observer := false;
     player := None;
     hasPlayed := false;
     offsetWidth := container_width;
     style := no_style;
     pending := false |}.

Definition set_player (q : VideoPlayer.Player closure) (s : State) : State :=
  mkState (options s) (observer s) (Some q) (hasPlayed s) (offsetWidth s)
          (style s) (pending s).
Definition set_hasPlayed (b : bool) (s : State) : State :=
  mkState (options s) (observer s) (player s) b (offsetWidth s)
          (style s) (pending s).
Definition set_style (st : Style) (s : State) : State :=
  mkState (options s) (observer s) (player s) (hasPlayed s) (offsetWidth s)
          st (pending s).
Definition set_pending (b : bool) (s : State) : State :=
  mkState (options s) (observer s) (player s) (hasPlayed s) (offsetWidth s)
          (style s) b.

(** [n || 640] on a number. *)
Definition or_640 (n : Z) : Z := if n =? 0 then 640 else n.

(** The options object literal of [new BuzzerVideoPlayer(...)] in
    [load()]. *)
Definition player_options (s : State) : VideoPlayer.UserOptions closure :=
  {| VideoPlayer.given_vastUrl := vastUrl (options s);
     VideoPlayer.given_width := Some (or_640 (offsetWidth s));
     VideoPlayer.given_height := Some 360;
     VideoPlayer.given_autoplay := Some true;
     VideoPlayer.given_muted := Some true;
     VideoPlayer.given_onComplete := Some CollapseClosure;
     VideoPlayer.given_onSkip := None;
     VideoPlayer.given_onError := None;
     VideoPlayer.given_onReward := None;
     VideoPlayer.given_skipOffset := None |}.

(** The style writes at the top of the player's [render()]. *)
Definition render_style (o : VideoPlayer.Options closure) (st : Style) : Style :=
  mkStyle (Some (Literal "relative")) (Some (Px (VideoPlayer.width o)))
          (Some (Px (VideoPlayer.height o))) (Some (Literal "#000"))
          (overflow st) (transition st).

(** The body of the completion closure. *)
Definition collapse (st : Style) : Style :=
  mkStyle (position st) (width st) (Some (Literal "0")) (backgroundColor st)
          (Some (Literal "hidden")) (Some (Literal "height 0.3s")).

Definition passthrough (e : effect closure) : option (effect cb) :=
  match e with
  | Pixel u => Some (Pixel u)
  | WindowOpen u t => Some (WindowOpen u t)
  | VideoPlay => Some VideoPlay
  | VideoPause => Some VideoPause
  | ConsoleError m => Some (ConsoleError m)
  | Invoke _ _ => None
  end.

(** The effects of a player method, in order, with each invocation of
    the closure replaced by its body. *)
Fixpoint replay (es : list (effect closure)) : M unit :=
  match es with
  | [] => ret tt
  | Invoke CollapseClosure _ :: rest =>
      modify (fun s => set_style (collapse (style s)) s) ;; replay rest
  | e :: rest =>
      match passthrough e with
      | Some e' => emit e'
      | None => ret tt
      end ;;
      replay rest
  end.

(** A method of [this.player]: its state is stored back and its effects
    replayed; the closure does not touch the player. *)
Definition on_player (m : @method closure (VideoPlayer.Player closure) unit)
  : M unit :=
  s <- get ;;
  match player s with
  | Some p =>
      let r := m p in
      modify (set_player (state_of r)) ;;
      replay (effects_of r)
  | None => ret tt
  end.

(** [load()], up to the fetch of [this.player.load()]. Without a VAST URL
    the player's [load()] logs the error and returns at once, whatever a
    fetch would have given. *)
Definition load : M unit :=
  s <- get ;;
  modify (set_player (VideoPlayer.new_player (player_options s))) ;;
  match VideoPlayer.truthy_string (vastUrl (options s)) with
  | Some _ => modify (set_pending true)
  | None => on_player (VideoPlayer.load (VideoPlayer.FetchRejected VUndefined))
  end.

(** The body of the [forEach] in the observer callback. *)
Definition on_entry (isIntersecting : bool) : M unit :=
  s <- get ;;
  when (isIntersecting && negb (hasPlayed s))
       (load ;; modify (set_hasPlayed true)).

(** The observer callback, on the [isIntersecting] flags of its
    entries. *)
Fixpoint intersection_callback (entries : list bool) : M unit :=
  match entries with
  | [] => ret tt
  | e :: rest => on_entry e ;; intersection_callback rest
  end.

(** [init()] *)
Definition init : M unit :=
  modify (fun s =>
    mkState (options s) true (player s) (hasPlayed s) (offsetWidth s)
            (style s) (pending s)).

(** The rest of the player's [load()] once the fetch settles; when it
    reaches [render()], the video element exists and the container has the
    style [render()] writes. *)
Definition settle (response : VideoPlayer.fetched) : M unit :=
  modify (set_pending false) ;;
  s <- get ;;
  match player s with
  | Some p =>
      let r := VideoPlayer.load response p in
      modify (set_player (state_of r)) ;;
      when (bool_decide (VideoPlayer.videoElement (state_of r) <> None))
           (modify (fun s =>
              set_style (render_style (VideoPlayer.options p) (style s)) s)) ;;
      replay (effects_of r)
  | None => ret tt
  end.

Inductive input : Type :=
| Observe (entries : list bool)             (* the observer calls back *)
| Loaded (response : VideoPlayer.fetched)   (* the fetch of load() settles *)
| Video (i : VideoPlayer.input).            (* an input of the player *)

Definition handle (i : input) : M unit :=
  s <- get ;;
  match i with
  | Observe entries => when (observer s) (intersection_callback entries)
  | Loaded response => when (pending s) (settle response)
  | Video v => on_player (VideoPlayer.handle v)
  end.

Fixpoint run (inputs : list input) (s : State) : State * list (effect cb) :=
  match inputs with
  | [] => (s, [])
  | i :: rest =>
      let r := handle i s in
      let r' := run rest (state_of r) in
      (fst r', effects_of r ++ snd r')
  end.

End WithCallbacks.

End Outstream.

(* ===================================================================== *)
(** ** Vocabulary of the properties *)
(* ===================================================================== *)

Module Props.

(** The closed set of event kinds and the property names the code uses
    for them. *)
Inductive EventKind : Type :=
| EvStart | EvFirstQuartile | EvMidpoint | EvThirdQuartile
| EvComplete | EvSkip | EvClick.

Definition event_name (k : EventKind) : string :=
  match k with
  | EvStart => "start"
  | EvFirstQuartile => "firstQuartile"
  | EvMidpoint => "midpoint"
  | EvThirdQuartile => "thirdQuartile"
  | EvComplete => "complete"
  | EvSkip => "skip"
  | EvClick => "click"
  end.

(** A Tracking element whose [event] attribute names [kind]. *)
Definition is_tracker_for (kind : string) (e : Element) : bool :=
  has_tag "Tracking" e
  && bool_decide (property_key (getAttribute "event" e) = kind).

(** The URL of the last tracker for [kind] in document order. *)
Definition last_tracker (kind : string) (doc : Document) : option string :=
  (fun e => trim (textContent e)) <$> last (List.filter (is_tracker_for kind) doc).

Definition is_digit (c : ascii) : bool :=
  let n := N_of_ascii c in (N.leb 48 n && N.leb n 57)%bool.

(** A non-empty string of decimal digits. *)
Fixpoint all_digits (s : string) : bool :=
  match s with
  | EmptyString => false
  | String c EmptyString => is_digit c
  | String c s' => is_digit c && all_digits s'
  end.

(** The integer a digit string denotes, by the weight of each place. *)
Fixpoint decimal_value (s : string) : Z :=
  match s with
  | EmptyString => 0
  | String c s' =>
      (Z.of_N (N_of_ascii c) - 48) * 10 ^ Z.of_nat (String.length s')
      + decimal_value s'
  end.

(** Number of colons in a string. *)
Fixpoint colons (s : string) : nat :=
  match s with
  | EmptyString => 0%nat
  | String c s' => ((if Ascii.eqb c ":" then 1 else 0) + colons s')%nat
  end.

Section Player.
Context {cb : Type}.

(** The beacon [fireTracking(event)] sends for the tracker of [event],
    if the descriptor has a non-empty one. *)
Definition tracking_pixels (vd : VastData) (event : string)
  : list (effect cb) :=
  match VideoPlayer.truthy_string (trackingEvents vd !! event) with
  | Some url => [Pixel url]
  | None => []
  end.

(** The extra beacon of a click. *)
Definition click_pixels (vd : VastData) (event : string)
  : list (effect cb) :=
  match VideoPlayer.truthy_string (clickTracking vd) with
  | Some url => if bool_decide (event = "click") then [Pixel url] else []
  | None => []
  end.

(** The invocation [if (f) f(...args)] performs. *)
Definition callback_effects (f : option cb) (args : list jsval)
  : list (effect cb) :=
  match f with
  | Some g => [Invoke g args]
  | None => []
  end.

(** The button [updateSkipButton] writes for a descriptor and a
    time. *)
Definition updated_button (vd : VastData) (t : num)
  : VideoPlayer.SkipButton :=
  let remaining :=
    ceil (sub (VideoPlayer.to_number (Vast.skipOffset vd)) t) in
  if gtb remaining (of_Z 0)
  then VideoPlayer.mkSkipButton (VideoPlayer.SkipIn remaining) true "0.5"
  else VideoPlayer.mkSkipButton VideoPlayer.SkipAd false "1".

(** The state [destroy()] leaves. *)
Definition destroyed (p : VideoPlayer.Player cb) : VideoPlayer.Player cb :=
  VideoPlayer.set_container []
    (match VideoPlayer.videoElement p with
     | Some v =>
         VideoPlayer.set_videoElement
           (Some (VideoPlayer.mkVideo (Some "") (VideoPlayer.video_muted v))) p
     | None => p
     end).

(** The state [onTimeUpdate] reaches before its quartile checks. *)
Definition time_recorded (p : VideoPlayer.Player cb) (vd : VastData)
           (t : num) : VideoPlayer.Player cb :=
  match VideoPlayer.skipButton p with
  | Some _ =>
      VideoPlayer.set_skipButton (Some (updated_button vd t))
                                 (VideoPlayer.set_currentTime t p)
  | None => VideoPlayer.set_currentTime t p
  end.

(** The percentage [onTimeUpdate] computes. *)
Definition percent_of (t d : num) : num := mul (div t d) (of_Z 100).

(** The condition under which [updateSkipButton] enables the button:
    the descriptor has a skip offset and the remaining whole seconds
    are not positive. *)
Definition skip_enabled (p : VideoPlayer.Player cb) : bool :=
  match VideoPlayer.vastData p with
  | Some vd =>
      match Vast.skipOffset vd with
      | Some off =>
          negb (gtb (ceil (sub off (VideoPlayer.currentTime p))) (of_Z 0))
      | None => false
      end
  | None => false
  end.

(** What holds of a player from [render()] on: its options and
    descriptor are fixed, the video element exists, and a skip control in
    the container belongs to a descriptor with a skip offset and is disabled
    exactly when skipping is not enabled. *)
Definition rendered_inv (o : VideoPlayer.Options cb) (vd : VastData)
           (p : VideoPlayer.Player cb) : Prop :=
  VideoPlayer.options p = o
  /\ VideoPlayer.vastData p = Some vd
  /\ is_Some (VideoPlayer.videoElement p)
  /\ (VideoPlayer.SkipButtonNode ∈ VideoPlayer.container p ->
      is_Some (Vast.skipOffset vd)
      /\ exists b, VideoPlayer.skipButton p = Some b
                   /\ VideoPlayer.disabled b = negb (skip_enabled p)).

(** What holds of a player whose [load()] did not reach [render()]. *)
Definition unrendered_inv (o : VideoPlayer.Options cb)
           (p : VideoPlayer.Player cb) : Prop :=
  VideoPlayer.options p = o
  /\ VideoPlayer.videoElement p = None
  /\ VideoPlayer.container p = []
  /\ VideoPlayer.skipButton p = None.

(** The state [render()] leaves. *)
Definition render_result (vd : VastData) (p : VideoPlayer.Player cb)
  : VideoPlayer.Player cb :=
  let p1 :=
    VideoPlayer.appendChild VideoPlayer.VideoNode
      (VideoPlayer.set_videoElement
         (Some (VideoPlayer.mkVideo (mediaFile vd)
                                    (VideoPlayer.muted (VideoPlayer.options p))))
         (VideoPlayer.set_container [] p)) in
  let p2 :=
    match Vast.skipOffset vd with
    | Some _ =>
        VideoPlayer.appendChild VideoPlayer.SkipButtonNode
          (VideoPlayer.set_skipButton
             (Some (updated_button vd (VideoPlayer.currentTime p))) p1)
    | None => p1
    end in
  VideoPlayer.appendChild VideoPlayer.AdLabelNode p2.

(** A player loaded with any options and any fetch result, after any
    sequence of inputs. *)
Definition reachable (p : VideoPlayer.Player cb) : Prop :=
  exists o response inputs,
    p = fst (VideoPlayer.run inputs
               (state_of (VideoPlayer.load response (VideoPlayer.new_player o)))).

End Player.

Section Overlays.
Context {cb : Type}.

(** The state [close()] of the interstitial leaves. *)
Definition interstitial_closed (s : Interstitial.State cb)
  : Interstitial.State cb :=
  let s1 := Interstitial.clear_timer s in
  if Interstitial.overlay s1
  then Interstitial.mkState
         (Interstitial.options s1) false (Interstitial.closeButton s1)
         (Interstitial.timer s1) false (Interstitial.intervals s1)
         (Interstitial.remaining s1) (Interstitial.timerDisplay s1)
  else s1.

(** An interstitial after [show()] and any inputs. *)
Definition interstitial_reachable (s : Interstitial.State cb) : Prop :=
  exists o inputs,
    s = fst (Interstitial.run inputs
               (state_of (Interstitial.show (Interstitial.new_interstitial o)))).

(** What holds of an interstitial from [show()] on. *)
Definition interstitial_inv (s : Interstitial.State cb) : Prop :=
  Interstitial.timer s = Some Interstitial.countdown_id
  /\ Interstitial.overlay_in_body s = Interstitial.overlay s.

(** A rewarded ad after [show()]. *)
Definition rewarded_shown (u : Rewarded.UserOptions cb) : Rewarded.State cb :=
  state_of (Rewarded.show (Rewarded.new_rewarded u)).

(** Number of ended events among the inputs of a rewarded ad. *)
Definition count_ended (inputs : list Rewarded.input) : nat :=
  length (List.filter
            (fun i => match i with
                      | Rewarded.Video VideoPlayer.Ended => true
                      | _ => false
                      end) inputs).

(** Number of invocations of the completion closure in the effects of a
    player method. *)
Definition count_complete (es : list (effect Rewarded.closure)) : nat :=
  length (List.filter
            (fun e => match e with
                      | Invoke Rewarded.OnCompleteClosure _ => true
                      | _ => false
                      end) es).

(** The error [load()] catches for a fetch result, if any. *)
Definition load_error (response : VideoPlayer.fetched) : option jsval :=
  match response with
  | VideoPlayer.FetchRejected e => Some e
  | VideoPlayer.FetchDocument doc =>
      match VideoPlayer.truthy_string (mediaFile (parseVast doc)) with
      | Some _ => None
      | None => Some (VError "No media file in VAST response")
      end
  end.

(** The rewarded ad with its player replaced. *)
Definition with_player (q : VideoPlayer.Player Rewarded.closure)
           (s : Rewarded.State cb) : Rewarded.State cb :=
  Rewarded.mkState (Rewarded.options s) (Rewarded.overlay s) (Some q)
                   (Rewarded.overlay_in_body s) (Rewarded.popups s)
                   (Rewarded.timeouts s).

(** The state [close()] of the rewarded ad leaves, for its player [p]. *)
Definition rewarded_closed (p : VideoPlayer.Player Rewarded.closure)
           (s : Rewarded.State cb) : Rewarded.State cb :=
  Rewarded.mkState (Rewarded.options s) false (Some (destroyed p))
                   (if Rewarded.overlay s then false
                    else Rewarded.overlay_in_body s)
                   (Rewarded.popups s) (Rewarded.timeouts s).

(** A result of a method of the rewarded player that keeps the player's
    options and does not invoke the completion closure. *)
Definition quiet {A} (o : VideoPlayer.Options Rewarded.closure)
           (r : completion A * VideoPlayer.Player Rewarded.closure
                * list (effect Rewarded.closure)) : Prop :=
  VideoPlayer.options (state_of r) = o /\ count_complete (effects_of r) = 0%nat.

(** What holds of a rewarded ad from [show()] on: its options are fixed
    and its player carries the options [show()] gave it. *)
Definition rewarded_inv (o : Rewarded.Options cb) (s : Rewarded.State cb)
  : Prop :=
  Rewarded.options s = o
  /\ exists p, Rewarded.player s = Some p
               /\ VideoPlayer.options p
                  = VideoPlayer.make_options (Rewarded.player_options s).

End Overlays.

End Props.

Import Props.

(* ===================================================================== *)
(** ** Sample descriptors and sessions *)
(* ===================================================================== *)

Module Samples.

Definition element (tag : string) (attrs : list (string * string))
           (text : string) : Element :=
  mkElement tag (list_to_map attrs) text.

(** A descriptor with one tracker per kind, a five-second skip offset and
    two [complete] trackers. *)
Definition skippable_doc : Document :=
  [ element "Impression" [] " http://t/imp ";
    element "Linear" [("skipoffset", "00:00:05")] "";
    element "Tracking" [("event", "start")] "http://t/start";
    element "Tracking" [("event", "firstQuartile")] "http://t/q1";
    element "Tracking" [("event", "midpoint")] "http://t/q2";
    element "Tracking" [("event", "thirdQuartile")] "http://t/q3";
    element "Tracking" [("event", "complete")] "A";
    element "Tracking" [("event", "complete")] "B";
    element "Tracking" [("event", "skip")] "http://t/skip";
    element "ClickThrough" [] "http://landing";
    element "ClickTracking" [] "http://t/click";
    element "MediaFile" [("type", "video/mp4")] "http://m/v.mp4" ].

(** The same without a skip offset. *)
Definition unskippable_doc : Document :=
  [ element "Linear" [] "";
    element "Tracking" [("event", "complete")] "http://t/complete";
    element "Tracking" [("event", "skip")] "http://t/skip";
    element "MediaFile" [] "http://m/v.mp4" ].

(** Two [complete] trackers, A then B. *)
Definition two_complete_doc : Document :=
  [ element "Tracking" [("event", "complete")] "A";
    element "Tracking" [("event", "complete")] "B" ].

(** A document without a media file. *)
Definition empty_doc : Document := [ element "VAST" [] "" ].

(** Callbacks are named by strings. *)
Definition plain_options : VideoPlayer.UserOptions string :=
  {| VideoPlayer.given_vastUrl := Some "http://ads/vast.xml";
     VideoPlayer.given_width := None;
     VideoPlayer.given_height := None;
     VideoPlayer.given_autoplay := None;
     VideoPlayer.given_muted := None;
     VideoPlayer.given_onComplete := Some "onComplete";
     VideoPlayer.given_onSkip := Some "onSkip";
     VideoPlayer.given_onError := Some "onError";
     VideoPlayer.given_onReward := Some "onReward";
     VideoPlayer.given_skipOffset := None |}.

Definition loaded (doc : Document) : VideoPlayer.Player string :=
  state_of (VideoPlayer.load (VideoPlayer.FetchDocument doc)
                             (VideoPlayer.new_player plain_options)).

Definition skippable_player : VideoPlayer.Player string := loaded skippable_doc.
Definition unskippable_player : VideoPlayer.Player string := loaded unskippable_doc.

Definition rewarded_options : Rewarded.UserOptions string :=
  {| Rewarded.given_vastUrl := Some "http://ads/vast.xml";
     Rewarded.given_rewardType := None;
     Rewarded.given_rewardAmount := None;
     Rewarded.given_onReward := Some "onReward";
     Rewarded.given_onClose := Some "onClose";
     Rewarded.given_onError := Some "onError" |}.

Definition shown_rewarded : Rewarded.State string :=
  state_of (Rewarded.show (Rewarded.new_rewarded rewarded_options)).

(** The shown rewarded ad once the skippable descriptor has loaded. *)
Definition loaded_rewarded : Rewarded.State string :=
  fst (Rewarded.run
         [Rewarded.Loaded (VideoPlayer.FetchDocument skippable_doc)]
         shown_rewarded).

Definition interstitial_options : Interstitial.UserOptions string :=
  {| Interstitial.given_zoneId := Some "zone-1";
     Interstitial.given_onClose := Some "onClose";
     Interstitial.given_closeAfter := Some 2 |}.

Definition shown_interstitial : Interstitial.State string :=
  state_of (Interstitial.show (Interstitial.new_interstitial interstitial_options)).

End Samples.

(* ===================================================================== *)
(** ** Vocabulary of the further properties *)
(* ===================================================================== *)

Module MoreProps.

Section Player.
Context {cb : Type}.

(** What one click on the video does for a descriptor: with a
    click-through URL, a window, the click tracker and the click-tracking
    beacon; without one, nothing. *)
Definition click_effects (vd : VastData) : list (effect cb) :=
  match VideoPlayer.truthy_string (clickThrough vd) with
  | Some url =>
      WindowOpen url "_blank"
      :: tracking_pixels vd "click" ++ click_pixels vd "click"
  | None => []
  end.

(** What [updateSkipButton] leaves in a skip control for a descriptor
    and a position: the control is disabled exactly when the whole seconds
    to the offset are positive, then dimmed and labelled with a number of
    seconds, and otherwise enabled, opaque and labelled Skip Ad. *)
Definition refreshed_control (vd : VastData) (t : num)
           (b : VideoPlayer.SkipButton) : Prop :=
  VideoPlayer.disabled b
  = gtb (ceil (sub (VideoPlayer.to_number (Vast.skipOffset vd)) t)) (of_Z 0)
  /\ VideoPlayer.opacity b = (if VideoPlayer.disabled b then "0.5" else "1")
  /\ (if VideoPlayer.disabled b
      then exists n, VideoPlayer.label b = VideoPlayer.SkipIn n
      else VideoPlayer.label b = VideoPlayer.SkipAd).

(** The ended event. *)
Definition is_ended (i : VideoPlayer.input) : bool :=
  match i with VideoPlayer.Ended => true | _ => false end.

(** A rational that is a double: [m / 2^k] with [m] below 2^53 in
    magnitude and [k] at most 1074. When the exact result of an addition
    or subtraction of doubles is such a number, the program computes it
    without rounding. *)
Definition is_double (q : Q) : Prop :=
  exists (k : nat) (m : Z),
    (k <= 1074)%nat /\ Z.abs m < 2 ^ 53
    /\ (q == inject_Z m / inject_Z (2 ^ Z.of_nat k))%Q.

(** The [skipoffset] attribute [parseVast] reads. *)
Definition skip_attribute (doc : Document) : option string :=
  querySelector "Linear" doc ≫= getAttribute "skipoffset".

(** The inputs that are events of the page, not method calls. *)
Definition host_event (i : VideoPlayer.input) : bool :=
  match i with
  | VideoPlayer.CallSkip | VideoPlayer.CallDestroy => false
  | _ => true
  end.







(** The beacon for the last tracker of a kind in a document, if it has a
    non-empty URL. *)
Definition last_tracker_pixel (kind : string) (doc : Document)
  : list (effect cb) :=
  match last_tracker kind doc with
  | Some url => if nonempty url then [Pixel url] else []
  | None => []
  end.

(** The children [render()] appends for a descriptor. *)
Definition rendered_children (vd : VastData) : list VideoPlayer.node :=
  VideoPlayer.VideoNode
  :: match Vast.skipOffset vd with
     | Some _ => [VideoPlayer.SkipButtonNode]
     | None => []
     end
  ++ [VideoPlayer.AdLabelNode].

(** The effects of [render()] for a descriptor and the player's
    options. *)
Definition render_effects (vd : VastData) (o : VideoPlayer.Options cb)
  : list (effect cb) :=
  match VideoPlayer.truthy_string (impressionUrl vd) with
  | Some url => [Pixel url]
  | None => []
  end ++ (if VideoPlayer.autoplay o then [VideoPlay] else []).

End Player.

Section Overlays.
Context {cb : Type}.






(** A reward timeout firing. *)
Definition is_timeout (i : Rewarded.input) : bool :=
  match i with Rewarded.Timeout => true | _ => false end.

(** The style of a container of the given layout width in which the
    outstream player has rendered. *)
Definition rendered_style (container_width : Z) : Outstream.Style :=
  Outstream.mkStyle
    (Some (Outstream.Literal "relative"))
    (Some (Outstream.Px (Outstream.or_640 container_width)))
    (Some (Outstream.Px 360))
    (Some (Outstream.Literal "#000"))
    None None.

(** An outstream instance after [init()]. *)
Definition outstream_ready (u : Outstream.UserOptions) (container_width : Z)
  : Outstream.State :=
  state_of (Outstream.init (cb := cb)
              (Outstream.new_outstream u container_width)).

(** An observer callback with an intersecting entry. *)
Definition intersecting (i : Outstream.input) : bool :=
  match i with
  | Outstream.Observe entries => existsb id entries
  | _ => false
  end.

(** Whether an effect is a callback invocation. *)
Definition is_invoke {c : Type} (e : effect c) : bool :=
  match e with Invoke _ _ => true | _ => false end.

(** The outstream instance after the effects of a player method were
    replayed: an invocation of the completion closure collapses the
    container. *)
Definition collapsed_by (es : list (effect Outstream.closure))
           (s : Outstream.State) : Outstream.State :=
  if existsb is_invoke es
  then Outstream.set_style (Outstream.collapse (Outstream.style s)) s
  else s.

(** The style of a container of the given layout width in which the
    outstream player rendered and then completed. *)
Definition collapsed_style (container_width : Z) : Outstream.Style :=
  Outstream.mkStyle
    (Some (Outstream.Literal "relative"))
    (Some (Outstream.Px (Outstream.or_640 container_width)))
    (Some (Outstream.Literal "0"))
    (Some (Outstream.Literal "#000"))
    (Some (Outstream.Literal "hidden"))
    (Some (Outstream.Literal "height 0.3s")).

(** The outstream instance right after its [load()] was called. *)
Definition outstream_loading (s : Outstream.State) : Outstream.State :=
  Outstream.mkState
    (Outstream.options s) (Outstream.observer s)
    (Some (VideoPlayer.new_player (Outstream.player_options s)))
    true (Outstream.offsetWidth s) (Outstream.style s) true.

(** What [destroy()] has the page see: the video, if any, is paused. *)
Definition pause_effects {c : Type} (p : VideoPlayer.Player c)
  : list (effect cb) :=
  match VideoPlayer.videoElement p with
  | Some _ => [VideoPause]
  | None => []
  end.

End Overlays.

(** Options of an outstream placement with a VAST URL. *)
Definition outstream_sample : Outstream.UserOptions :=
  Outstream.mkUserOptions (Some "http://vast").

End MoreProps.

Import MoreProps.

(* ===================================================================== *)
(** ** Tracking map: last tracker wins *)
(* ===================================================================== *)

Lemma collect_tracking_snoc (ts : list Element) (t : Element) :
  collect_tracking (ts ++ [t])
  = set_property (property_key (getAttribute "event" t))
                 (trim (textContent t)) (collect_tracking ts).
Proof. unfold collect_tracking. by rewrite foldl_app. Qed.

Lemma event_name_own (k : EventKind) : event_name k <> "__proto__".
Proof. by destruct k. Qed.

Lemma collect_tracking_lookup (kind : string) (ts : list Element) :
  kind <> "__proto__" ->
  collect_tracking ts !! kind
  = (fun e => trim (textContent e))
      <$> last (List.filter
                  (fun e => bool_decide (property_key (getAttribute "event" e) = kind))
                  ts).
Proof.
  intros Hown. induction ts as [|t ts IH] using rev_ind.
  - reflexivity.
  - rewrite collect_tracking_snoc, List.filter_app. simpl.
    unfold set_property. case_bool_decide as Hk.
    + rewrite last_snoc. simpl. subst kind.
      rewrite decide_False by done. by rewrite lookup_insert_eq.
    + rewrite app_nil_r, <- IH. case_decide as Hp; [done|].
      by rewrite lookup_insert_ne.
Qed.

Lemma filter_filter_tracking (kind : string) (doc : Document) :
  List.filter (fun e => bool_decide (property_key (getAttribute "event" e) = kind))
              (querySelectorAll "Tracking" doc)
  = List.filter (is_tracker_for kind) doc.
Proof.
  unfold querySelectorAll, is_tracker_for.
  induction doc as [|e doc IH]; [done|]. simpl.
  destruct (has_tag "Tracking" e); simpl; rewrite IH; done.
Qed.

(** C9. [parseVast] folds the Tracking elements into a map with last-wins
    semantics: for every document and every event kind the map holds the
    URL of the last tracker of that kind in document order (and nothing when
    there is none); two [complete] trackers A then B give
    [trackingEvents.complete = "B"]. *)
Theorem parseVast_tracking_last_wins :
  (forall (doc : Document) (k : EventKind),
      trackingEvents (parseVast doc) !! event_name k
      = last_tracker (event_name k) doc)
  /\ trackingEvents (parseVast Samples.two_complete_doc) !! "complete" = Some "B".
Proof.
  split.
  - intros doc k. unfold parseVast, last_tracker. simpl.
    rewrite collect_tracking_lookup by apply event_name_own.
    by rewrite filter_filter_tracking.
  - reflexivity.
Qed.

(* ===================================================================== *)
(** ** Skip offset parsing *)
(* ===================================================================== *)

Lemma Qred_inject_Z (z : Z) : Qred (inject_Z z) = inject_Z z.
Proof.
  unfold Qred, inject_Z.
  pose proof (Z.ggcd_gcd z 1) as Hg.
  pose proof (Z.ggcd_correct_divisors z 1) as Hd.
  destruct (Z.ggcd z 1) as [g [a b]]. cbn [fst snd] in *.
  rewrite Z.gcd_1_r in Hg. subst g. destruct Hd as [Ha Hb].
  assert (a = z) as -> by lia. assert (b = 1) as -> by lia. reflexivity.
Qed.

Lemma mul_of_Z (a b : Z) : mul (of_Z a) (of_Z b) = of_Z (a * b).
Proof.
  unfold mul, of_Z. f_equal.
  rewrite <- (Qred_inject_Z (a * b)). apply Qred_complete.
  unfold Qeq, inject_Z, Qmult. simpl. lia.
Qed.

Lemma add_of_Z (a b : Z) : add (of_Z a) (of_Z b) = of_Z (a + b).
Proof.
  unfold add, of_Z. f_equal.
  rewrite <- (Qred_inject_Z (a + b)). apply Qred_complete.
  unfold Qeq, inject_Z, Qplus. simpl. lia.
Qed.

Lemma is_digit_cases (c : ascii) :
  is_digit c = true ->
  is_space c = false /\ c <> "-"%char /\ c <> "+"%char /\ c <> ":"%char
  /\ c <> "x"%char /\ c <> "X"%char
  /\ digit_value 10 c = Some (Z.of_N (N_of_ascii c) - 48)
  /\ 0 <= Z.of_N (N_of_ascii c) - 48 <= 9.
Proof.
  destruct c as [[] [] [] [] [] [] [] []]; vm_compute; intros H;
    try discriminate H; repeat split; congruence.
Qed.

Lemma all_digits_cons (c : ascii) (s : string) :
  all_digits (String c s) = true ->
  is_digit c = true /\ (s = EmptyString \/ all_digits s = true).
Proof.
  simpl. destruct s as [|c' s'].
  - intros ->. auto.
  - intros [? ?]%andb_true_iff. auto.
Qed.

Lemma read_digits_decimal (s : string) (acc : Z) :
  all_digits s = true ->
  read_digits 10 (Some acc) s
  = Some (acc * 10 ^ Z.of_nat (String.length s) + decimal_value s).
Proof.
  revert acc. induction s as [|c s IH]; intros acc H; [discriminate|].
  apply all_digits_cons in H as [Hc Hs].
  destruct (is_digit_cases c Hc) as (_ & _ & _ & _ & _ & _ & Hd & _).
  cbn [read_digits]. rewrite Hd. cbv [default from_option id].
  destruct Hs as [-> | Hs].
  - cbn [read_digits String.length decimal_value]. f_equal.
    change (Z.of_nat 1) with 1. change (Z.of_nat 0) with 0.
    rewrite Z.pow_1_r, Z.pow_0_r. lia.
  - rewrite IH by done. f_equal. cbn [String.length decimal_value].
    rewrite Nat2Z.inj_succ, Z.pow_succ_r by lia. lia.
Qed.

Lemma read_digits_start (s : string) :
  all_digits s = true -> read_digits 10 None s = Some (decimal_value s).
Proof.
  intros H. destruct s as [|c s]; [discriminate|].
  pose proof H as H0. apply all_digits_cons in H0 as [Hc Hs].
  destruct (is_digit_cases c Hc) as (_ & _ & _ & _ & _ & _ & Hd & _).
  cbn [read_digits]. rewrite Hd. cbv [default from_option id].
  destruct Hs as [-> | Hs].
  - cbn [read_digits String.length decimal_value]. f_equal.
    change (Z.of_nat 0) with 0. rewrite Z.pow_0_r. lia.
  - rewrite read_digits_decimal by done. reflexivity.
Qed.

(** On a digit string [parseInt] finds no whitespace, sign or hexadecimal
    prefix and reads every character. *)
Lemma parseInt_digits (s : string) :
  all_digits s = true -> parseInt s = of_Z (decimal_value s).
Proof.
  intros H. pose proof (read_digits_start s H) as Hr.
  destruct s as [|c s]; [discriminate|].
  pose proof H as H0. apply all_digits_cons in H0 as [Hc Hs].
  destruct (is_digit_cases c Hc) as (Hsp & Hm & Hp & _ & _ & _ & _ & _).
  unfold parseInt. cbn [trim_start]. rewrite Hsp.
  assert ((match String c s with
           | String "-" r => (true, r)
           | String "+" r => (false, r)
           | _ => (false, String c s)
           end) = (false, String c s)) as ->.
  { destruct c as [[] [] [] [] [] [] [] []]; try reflexivity; congruence. }
  assert ((match String c s with
           | String "0" (String "x" r) => (16, r)
           | String "0" (String "X" r) => (16, r)
           | _ => (10, String c s)
           end) = (10, String c s)) as ->.
  { destruct Hs as [-> | Hs].
    - destruct c as [[] [] [] [] [] [] [] []]; reflexivity.
    - destruct s as [|c' s']; [discriminate|].
      apply all_digits_cons in Hs as [Hc' _].
      destruct (is_digit_cases c' Hc') as (_ & _ & _ & _ & Hx & HX & _ & _).
      destruct c as [[] [] [] [] [] [] [] []]; try reflexivity;
        destruct c' as [[] [] [] [] [] [] [] []]; try reflexivity; congruence. }
  by rewrite Hr.
Qed.

Lemma all_digits_no_colon (s : string) :
  all_digits s = true -> split ":" s = [s].
Proof.
  induction s as [|c s IH]; [discriminate|]. intros H.
  apply all_digits_cons in H as [Hc Hs].
  destruct (is_digit_cases c Hc) as (_ & _ & _ & Hcolon & _).
  cbn [split]. rewrite (proj2 (Ascii.eqb_neq c ":") Hcolon).
  destruct Hs as [-> | Hs]; [done|]. by rewrite IH.
Qed.

Lemma split_digits_colon (s rest : string) :
  all_digits s = true ->
  split ":" (s +:+ String ":" rest) = s :: split ":" rest.
Proof.
  induction s as [|c s IH]; [discriminate|]. intros H.
  apply all_digits_cons in H as [Hc Hs].
  destruct (is_digit_cases c Hc) as (_ & _ & _ & Hcolon & _).
  simpl. rewrite (proj2 (Ascii.eqb_neq c ":") Hcolon).
  destruct Hs as [-> | Hs].
  - simpl. done.
  - by rewrite IH.
Qed.

Lemma split_length (s : string) :
  length (split ":" s) = S (colons s).
Proof.
  induction s as [|c s IH]; [done|]. cbn [split colons].
  destruct (Ascii.eqb c ":"); cbn [length]; [by rewrite IH|].
  destruct (split ":" s); [done|]. cbn [length] in *. lia.
Qed.

Lemma truthy_of_Z (z : Z) : truthy (of_Z z) = negb (z =? 0).
Proof. reflexivity. Qed.

(** C6, as the code has it. For every skipoffset attribute string: three
    colon-separated digit strings H:M:S yield [H*3600 + M*60 + S] when that
    is below 2^53, where every number read, product and sum is a double; a
    bare digit string of non-zero value below 2^53 yields that value; a
    string that does not have exactly two colons and in which [parseInt]
    finds no integer yields the default 5; and a document whose Linear
    element is missing, lacks the attribute or has it empty yields null,
    never the default. *)
Theorem parseSkipOffset_forms :
  (forall hh mm ss : string,
      all_digits hh = true -> all_digits mm = true -> all_digits ss = true ->
      decimal_value hh * 3600 + decimal_value mm * 60 + decimal_value ss
      < 2 ^ 53 ->
      parseSkipOffset (hh +:+ ":" +:+ mm +:+ ":" +:+ ss)
      = of_Z (decimal_value hh * 3600 + decimal_value mm * 60 + decimal_value ss))
  /\ (forall n : string,
         all_digits n = true -> decimal_value n <> 0 ->
         decimal_value n < 2 ^ 53 ->
         parseSkipOffset n = of_Z (decimal_value n))
  /\ (forall s : string,
         colons s <> 2%nat -> parseInt s = NaN -> parseSkipOffset s = of_Z 5)
  /\ (forall doc : Document,
         (querySelector "Linear" doc ≫= getAttribute "skipoffset") = None
         \/ (querySelector "Linear" doc ≫= getAttribute "skipoffset") = Some "" ->
         skipOffset (parseVast doc) = None).
Proof.
  repeat split.
  - intros hh mm ss Hh Hm Hs _. unfold parseSkipOffset.
    change (hh +:+ ":" +:+ mm +:+ ":" +:+ ss)
      with (hh +:+ String ":" (mm +:+ String ":" ss)).
    rewrite !split_digits_colon, all_digits_no_colon by done.
    rewrite !parseInt_digits by done.
    by rewrite !mul_of_Z, !add_of_Z.
  - intros n Hn Hnz _. unfold parseSkipOffset.
    rewrite all_digits_no_colon, parseInt_digits by done.
    unfold or_default. rewrite truthy_of_Z.
    by rewrite (proj2 (Z.eqb_neq _ _) Hnz).
  - intros s Hc Hnan. unfold parseSkipOffset.
    pose proof (split_length s) as Hl.
    destruct (split ":" s) as [|a [|b [|c [|d l]]]]; cbn [length] in Hl;
      try (rewrite Hnan; reflexivity).
    exfalso. apply Hc. lia.
  - intros doc H. unfold parseVast. cbn [skipOffset].
    destruct (querySelector "Linear" doc) as [linear|]; cbn in H |- *.
    + destruct H as [-> | ->]; reflexivity.
    + reflexivity.
Qed.

Lemma parseSkipOffset_forms_witness :
  parseSkipOffset "00:00:05" = of_Z 5
  /\ parseSkipOffset "12" = of_Z 12
  /\ parseSkipOffset "soon" = of_Z 5
  /\ skipOffset (parseVast Samples.unskippable_doc) = None.
Proof.
  destruct parseSkipOffset_forms as (H1 & H2 & H3 & H4).
  split; [|split; [|split]].
  - exact (H1 "00" "00" "05" eq_refl eq_refl eq_refl eq_refl).
  - apply (H2 "12"); [reflexivity | vm_compute; discriminate | reflexivity].
  - apply (H3 "soon"); [vm_compute; lia | reflexivity].
  - apply (H4 Samples.unskippable_doc). left. reflexivity.
Defined.

(** Not every string outside the two forms gives the default, and not
    every bare integer is kept: text after a leading integer is ignored
    rather than defaulted, a three-part form with a part that is not a
    number gives NaN, and the bare integer 0 is replaced by the default. *)
Lemma parseSkipOffset_counterexample :
  parseSkipOffset "12abc" = of_Z 12
  /\ parseSkipOffset "1:30" = of_Z 1
  /\ parseSkipOffset "aa:bb:cc" = NaN
  /\ parseSkipOffset "0" = of_Z 5
  /\ ~ (forall s : string,
          colons s <> 2%nat -> all_digits s = false -> parseSkipOffset s = of_Z 5)
  /\ ~ (forall n : string,
          all_digits n = true -> parseSkipOffset n = of_Z (decimal_value n)).
Proof.
  repeat split; try reflexivity.
  - intros H. specialize (H "12abc"). vm_compute in H.
    assert (Fin (12 # 1) = Fin (5 # 1)) as Heq by (apply H; [lia | reflexivity]).
    discriminate Heq.
  - intros H. specialize (H "0" eq_refl). vm_compute in H. discriminate H.
Qed.

(* ===================================================================== *)
(** ** Running a method one bind at a time *)
(* ===================================================================== *)

Section MethodLemmas.
Context {cb S : Type}.
Implicit Types (s : S) (es : list (effect cb)).

Lemma bind_step {A B} (m : @method cb S A) (k : A -> @method cb S B) s a s1 es :
  m s = (Return a, s1, es) -> bind m k s = prepend es (k a s1).
Proof.
  intros H. unfold bind, prepend, completion_of, state_of, effects_of.
  rewrite H. by destruct (k a s1) as [[c s2] e2].
Qed.

Lemma bind_throw {A B} (m : @method cb S A) (k : A -> @method cb S B) s e s1 es :
  m s = (Throw e, s1, es) -> bind m k s = (Throw e, s1, es).
Proof. intros H. unfold bind. by rewrite H. Qed.

Lemma prepend_nil {A} (r : completion A * S * list (effect cb)) :
  prepend [] r = r.
Proof. by destruct r as [[c s] e]. Qed.

Lemma prepend_result {A} es (c : completion A) s es' :
  prepend es (c, s, es') = (c, s, es ++ es').
Proof. reflexivity. Qed.

Lemma effects_prepend {A} es (r : completion A * S * list (effect cb)) :
  effects_of (prepend es r) = es ++ effects_of r.
Proof. reflexivity. Qed.

Lemma state_prepend {A} es (r : completion A * S * list (effect cb)) :
  state_of (prepend es r) = state_of r.
Proof. reflexivity. Qed.

End MethodLemmas.

(** Runs the leading binds of the goal whose first computation is a
    primitive of the monad. *)
Ltac run_prims :=
  repeat (erewrite bind_step by reflexivity; rewrite ?prepend_nil).

(* ===================================================================== *)
(** ** The player's methods, step by step *)
(* ===================================================================== *)

Section PlayerLemmas.
Context {cb : Type}.
Implicit Types (p : VideoPlayer.Player cb) (vd : VastData).

Import VideoPlayer.

Lemma fireTracking_spec p vd event :
  vastData p = Some vd ->
  fireTracking event p
  = (Return tt, p, tracking_pixels vd event ++ click_pixels vd event).
Proof.
  intros H.
  unfold fireTracking, tracking_pixels, click_pixels, bind, get, deref,
    firePixel, emit, ret, when.
  rewrite H.
  destruct (truthy_string (trackingEvents vd !! event));
    destruct (truthy_string (clickTracking vd)); try reflexivity;
    destruct (bool_decide (event = "click")); reflexivity.
Qed.

Lemma click_pixels_other vd event :
  event <> "click" -> click_pixels (cb := cb) vd event = [].
Proof.
  intros H. unfold click_pixels.
  destruct (truthy_string (clickTracking vd)); [|done].
  by rewrite bool_decide_eq_false_2.
Qed.

Lemma updateSkipButton_spec p vd :
  vastData p = Some vd ->
  updateSkipButton p
  = (Return tt,
     match skipButton p with
     | Some _ => set_skipButton (Some (updated_button vd (currentTime p))) p
     | None => p
     end, []).
Proof.
  intros H. unfold updateSkipButton, updated_button, bind, get, deref, ret, modify.
  destruct (skipButton p); [|done]. rewrite H.
  destruct (gtb _ _); reflexivity.
Qed.

(** Without a descriptor the method throws, but only after the state it
    leaves is the one it found; it never emits an effect. *)
Lemma updateSkipButton_quiet p :
  effects_of (updateSkipButton p) = []
  /\ trackingFired (state_of (updateSkipButton p)) = trackingFired p
  /\ currentTime (state_of (updateSkipButton p)) = currentTime p
  /\ options (state_of (updateSkipButton p)) = options p.
Proof.
  unfold updateSkipButton, bind, get, deref, ret, modify, throw.
  destruct (skipButton p); [|done].
  destruct (vastData p); [|done].
  destruct (gtb _ _); done.
Qed.

Lemma quartile_spec p vd percent threshold event :
  vastData p = Some vd -> event <> "click" ->
  quartile percent threshold event p
  = if geb percent (of_Z threshold) && bool_decide (event ∉ trackingFired p)
    then (Return tt, mark_fired event p, tracking_pixels vd event)
    else (Return tt, p, []).
Proof.
  intros H Hev. unfold quartile, bind, get, when.
  destruct (_ && _); [|done].
  rewrite (fireTracking_spec _ vd) by done.
  rewrite click_pixels_other by done. unfold modify.
  by rewrite !app_nil_r.
Qed.

Lemma quartile_below p percent threshold event :
  geb percent (of_Z threshold) = false ->
  quartile percent threshold event p = (Return tt, p, []).
Proof. intros H. unfold quartile, bind, get, when. by rewrite H. Qed.

Lemma onStart_spec p vd :
  vastData p = Some vd ->
  onStart p
  = if bool_decide ("start" ∉ trackingFired p)
    then (Return tt, mark_fired "start" p, tracking_pixels vd "start")
    else (Return tt, p, []).
Proof.
  intros H. unfold onStart, bind, get, when.
  destruct (bool_decide _); [|done].
  rewrite (fireTracking_spec _ vd) by done.
  rewrite click_pixels_other by done. unfold modify.
  by rewrite !app_nil_r.
Qed.

Lemma onComplete_spec p vd :
  vastData p = Some vd ->
  onCompleteMethod p
  = (Return tt, p,
     tracking_pixels vd "complete"
     ++ callback_effects (onComplete (options p)) []
     ++ callback_effects (onReward (options p)) []).
Proof.
  intros H. unfold onCompleteMethod, bind, get.
  rewrite (fireTracking_spec _ vd) by done.
  rewrite click_pixels_other by done.
  unfold call_if_set, callback_effects, emit, ret.
  destruct (onComplete (options p)), (onReward (options p));
    by rewrite ?app_nil_r.
Qed.

Lemma destroy_spec p :
  destroy p
  = (Return tt, destroyed p,
     match videoElement p with Some _ => [VideoPause] | None => [] end).
Proof.
  unfold destroy, destroyed, bind, get, emit, modify, ret.
  destruct (videoElement p); reflexivity.
Qed.

Lemma skip_spec p vd :
  vastData p = Some vd ->
  skip p
  = (Return tt, destroyed p,
     tracking_pixels vd "skip"
     ++ callback_effects (onSkip (options p)) []
     ++ match videoElement p with Some _ => [VideoPause] | None => [] end).
Proof.
  intros H. unfold skip, bind, get.
  rewrite (fireTracking_spec _ vd) by done.
  rewrite click_pixels_other by done.
  unfold call_if_set, callback_effects, emit, ret.
  destruct (onSkip (options p)); rewrite destroy_spec; by rewrite ?app_nil_r.
Qed.

Lemma onTimeUpdate_spec p vd v t d :
  vastData p = Some vd -> videoElement p = Some v ->
  onTimeUpdate t d p
  = (quartile (percent_of t d) 25 "firstQuartile" ;;
     quartile (percent_of t d) 50 "midpoint" ;;
     quartile (percent_of t d) 75 "thirdQuartile") (time_recorded p vd t).
Proof.
  intros Hvd Hv. unfold onTimeUpdate.
  erewrite bind_step by reflexivity. rewrite prepend_nil, Hv.
  run_prims.
  erewrite bind_step
    by (apply (updateSkipButton_spec _ vd); exact Hvd).
  rewrite prepend_nil. reflexivity.
Qed.

End PlayerLemmas.

(* ===================================================================== *)
(** ** Quartiles *)
(* ===================================================================== *)

Lemma geb_of_Z_weaken (x : num) (a b : Z) :
  b <= a -> geb x (of_Z a) = true -> geb x (of_Z b) = true.
Proof.
  intros Hba. destruct x as [q| | |]; try done.
  unfold geb, of_Z, Qleb. intros H.
  assert (inject_Z a <= q)%Q as Ha.
  { apply Qle_alt. intros Hgt. by rewrite Hgt in H. }
  assert (inject_Z b <= q)%Q as Hb.
  { eapply Qle_trans; [|exact Ha]. by rewrite <- Zle_Qle. }
  pose proof (proj1 (Qle_alt _ _) Hb) as Hb'.
  destruct (inject_Z b ?= q)%Q eqn:E; congruence.
Qed.

Lemma percent_of_NaN (t : num) : percent_of t NaN = NaN.
Proof. by destruct t. Qed.

Lemma percent_of_zero_zero : percent_of (of_Z 0) (of_Z 0) = NaN.
Proof. reflexivity. Qed.

Section Quartiles.
Context {cb : Type}.
Implicit Types (p : VideoPlayer.Player cb) (vd : VastData).

Import VideoPlayer.

(** The whole result of an update that reaches 75 percent with no
    quartile fired before. *)
Lemma onTimeUpdate_crossing p vd v t d :
  vastData p = Some vd -> videoElement p = Some v ->
  "firstQuartile" ∉ trackingFired p ->
  "midpoint" ∉ trackingFired p ->
  "thirdQuartile" ∉ trackingFired p ->
  geb (percent_of t d) (of_Z 75) = true ->
  onTimeUpdate t d p
  = (Return tt,
     mark_fired "thirdQuartile"
       (mark_fired "midpoint"
          (mark_fired "firstQuartile" (time_recorded p vd t))),
     tracking_pixels vd "firstQuartile"
     ++ tracking_pixels vd "midpoint"
     ++ tracking_pixels vd "thirdQuartile").
Proof.
  intros Hvd Hv H1 H2 H3 H75.
  pose proof (geb_of_Z_weaken _ 75 25 ltac:(lia) H75) as H25.
  pose proof (geb_of_Z_weaken _ 75 50 ltac:(lia) H75) as H50.
  assert (trackingFired (time_recorded p vd t) = trackingFired p) as Hf.
  { unfold time_recorded. by destruct (skipButton p). }
  assert (vastData (time_recorded p vd t) = Some vd) as Hvd'.
  { unfold time_recorded. by destruct (skipButton p). }
  rewrite (onTimeUpdate_spec p vd v) by done.
  erewrite bind_step; cycle 1.
  { rewrite (quartile_spec _ vd) by done.
    rewrite H25, Hf, bool_decide_eq_true_2 by done. reflexivity. }
  erewrite bind_step; cycle 1.
  { rewrite (quartile_spec _ vd) by done.
    rewrite H50, bool_decide_eq_true_2; [reflexivity|].
    cbn [trackingFired mark_fired]. rewrite Hf. set_unfold; intuition congruence. }
  rewrite (quartile_spec _ vd) by done.
  rewrite H75, bool_decide_eq_true_2.
  - reflexivity.
  - cbn [trackingFired mark_fired]. rewrite Hf. set_unfold; intuition congruence.
Qed.

(** C7. One position update that reaches 75 percent of the duration
    while none of the three quartiles has fired (a jump from 10 to 90
    percent, say) fires firstQuartile, midpoint and thirdQuartile in this
    order within the call, each once: the beacons are those of the three
    trackers in ascending order, the three kinds are recorded as fired, and
    the same update again fires nothing. *)
Theorem quartiles_fire_in_order_in_one_update p vd v t d :
  vastData p = Some vd -> videoElement p = Some v ->
  "firstQuartile" ∉ trackingFired p ->
  "midpoint" ∉ trackingFired p ->
  "thirdQuartile" ∉ trackingFired p ->
  geb (percent_of t d) (of_Z 75) = true ->
  effects_of (onTimeUpdate t d p)
  = tracking_pixels vd "firstQuartile"
    ++ tracking_pixels vd "midpoint"
    ++ tracking_pixels vd "thirdQuartile"
  /\ trackingFired (state_of (onTimeUpdate t d p))
     = {[ "thirdQuartile" ]} ∪ ({[ "midpoint" ]}
         ∪ ({[ "firstQuartile" ]} ∪ trackingFired p))
  /\ effects_of (onTimeUpdate t d (state_of (onTimeUpdate t d p))) = [].
Proof.
  intros Hvd Hv H1 H2 H3 H75.
  rewrite (onTimeUpdate_crossing p vd v) by done.
  assert (trackingFired (time_recorded p vd t) = trackingFired p) as Hf.
  { unfold time_recorded. by destruct (skipButton p). }
  split; [reflexivity|]. split.
  - cbn [state_of fst snd trackingFired mark_fired]. by rewrite Hf.
  - cbn [state_of fst snd].
    set (q := mark_fired _ _).
    assert (vastData q = Some vd) as Hq.
    { unfold q, time_recorded. by destruct (skipButton p). }
    assert (videoElement q = Some v) as Hqv.
    { unfold q, time_recorded. by destruct (skipButton p). }
    assert (trackingFired (time_recorded q vd t)
            = {[ "thirdQuartile" ]} ∪ ({[ "midpoint" ]}
                ∪ ({[ "firstQuartile" ]} ∪ trackingFired p))) as Hfq.
    { unfold time_recorded at 1. destruct (skipButton q);
        cbn [trackingFired set_skipButton set_currentTime];
        unfold q; cbn [trackingFired mark_fired]; by rewrite Hf. }
    assert (vastData (time_recorded q vd t) = Some vd) as Hq'.
    { unfold time_recorded at 1. by destruct (skipButton q). }
    rewrite (onTimeUpdate_spec q vd v) by done.
    erewrite bind_step; cycle 1.
    { rewrite (quartile_spec _ vd) by done.
      rewrite Hfq, (bool_decide_eq_false_2 ("firstQuartile" ∉ _)),
        andb_false_r by (set_unfold; intuition congruence). reflexivity. }
    erewrite bind_step; cycle 1.
    { rewrite (quartile_spec _ vd) by done.
      rewrite Hfq, (bool_decide_eq_false_2 ("midpoint" ∉ _)),
        andb_false_r by (set_unfold; intuition congruence). reflexivity. }
    rewrite (quartile_spec _ vd) by done.
    rewrite Hfq, (bool_decide_eq_false_2 ("thirdQuartile" ∉ _)),
      andb_false_r by (set_unfold; intuition congruence). reflexivity.
Qed.

End Quartiles.

(** From 10 percent (3 s of 30 s) to 90 percent (27 s) on the sample
    session. *)
Lemma quartiles_fire_in_order_witness :
  effects_of
    (VideoPlayer.onTimeUpdate (of_Z 27) (of_Z 30)
       (fst (VideoPlayer.run [VideoPlayer.TimeUpdate (of_Z 3) (of_Z 30)]
                             Samples.skippable_player)))
  = [Pixel "http://t/q1"; Pixel "http://t/q2"; Pixel "http://t/q3"].
Proof.
  set (p := fst (VideoPlayer.run _ _)).
  assert (VideoPlayer.trackingFired p = ∅) as Hf by (vm_compute; reflexivity).
  exact (proj1 (quartiles_fire_in_order_in_one_update
                  p (parseVast Samples.skippable_doc)
                  (VideoPlayer.mkVideo (Some "http://m/v.mp4") true)
                  (of_Z 27) (of_Z 30)
                  eq_refl eq_refl
                  ltac:(rewrite Hf; apply not_elem_of_empty)
                  ltac:(rewrite Hf; apply not_elem_of_empty)
                  ltac:(rewrite Hf; apply not_elem_of_empty)
                  eq_refl)).
Defined.

(* ===================================================================== *)
(** ** Position updates without a usable duration *)
(* ===================================================================== *)

Section NoDuration.
Context {cb : Type}.
Implicit Types (p : VideoPlayer.Player cb).

Import VideoPlayer.

(** An update whose percentage is NaN: nothing fires, the fired set is
    kept, and the reported position is recorded once the video element
    exists. *)
Lemma onTimeUpdate_NaN_percent p t d :
  percent_of t d = NaN ->
  effects_of (onTimeUpdate t d p) = []
  /\ trackingFired (state_of (onTimeUpdate t d p)) = trackingFired p
  /\ (is_Some (videoElement p) ->
      currentTime (state_of (onTimeUpdate t d p)) = t).
Proof.
  intros Hnan. unfold onTimeUpdate.
  erewrite bind_step by reflexivity. rewrite prepend_nil.
  destruct (videoElement p) as [v|] eqn:Hv; cycle 1.
  { cbn. split; [done|]. split; [done|]. by intros [? ?]. }
  run_prims. cbv zeta. cbn [currentTime set_currentTime].
  change (mul (div t d) (of_Z 100)) with (percent_of t d). rewrite Hnan.
  destruct (updateSkipButton_quiet (set_currentTime t p)) as (He & Hf & Ht & _).
  destruct (updateSkipButton (set_currentTime t p)) as [[c s] e] eqn:Hu.
  cbn [effects_of state_of fst snd] in He, Hf, Ht. subst e.
  destruct c as [[]|err].
  - erewrite bind_step by exact Hu. rewrite prepend_nil.
    do 2 (erewrite bind_step by (apply quartile_below; reflexivity);
          rewrite prepend_nil).
    rewrite quartile_below by reflexivity.
    cbn [effects_of state_of fst snd]. by rewrite Hf, Ht.
  - erewrite bind_throw by exact Hu.
    cbn [effects_of state_of fst snd]. by rewrite Hf, Ht.
Qed.

(** An update whose percentage is NaN leaves the state in which the
    position is recorded and the skip control refreshed. *)
Lemma onTimeUpdate_NaN_state p vd t d :
  percent_of t d = NaN ->
  is_Some (videoElement p) -> vastData p = Some vd ->
  state_of (onTimeUpdate t d p) = time_recorded p vd t.
Proof.
  intros Hnan [v Hv] Hvd.
  rewrite (onTimeUpdate_spec p vd v t d Hvd Hv), Hnan.
  do 2 (erewrite bind_step by (apply quartile_below; reflexivity);
        rewrite prepend_nil).
  by rewrite quartile_below.
Qed.

Lemma updated_button_refreshed vd t : refreshed_control vd t (updated_button vd t).
Proof.
  unfold refreshed_control, updated_button. cbv zeta.
  destruct (gtb _ _); cbn; eauto.
Qed.

(** The skip control after such an update: refreshed when the player
    has one, still absent otherwise. *)
Lemma onTimeUpdate_NaN_control p vd t d :
  percent_of t d = NaN ->
  is_Some (videoElement p) -> vastData p = Some vd ->
  match skipButton p with
  | Some _ =>
      exists b, skipButton (state_of (onTimeUpdate t d p)) = Some b
                /\ refreshed_control vd t b
  | None => skipButton (state_of (onTimeUpdate t d p)) = None
  end.
Proof.
  intros Hnan Hv Hvd. rewrite (onTimeUpdate_NaN_state p vd t d Hnan Hv Hvd).
  unfold time_recorded. destruct (skipButton p) as [b|] eqn:Hb.
  - exists (updated_button vd t). split; [done|].
    apply updated_button_refreshed.
  - cbn. exact Hb.
Qed.

(** C5, as the code has it. A position update with an undefined (NaN)
    duration, or with a zero duration at position zero, fires no tracking
    event and leaves the fired-event state unchanged; it still records the
    reported position as the current time and refreshes the skip control
    from it: on a rendered player, a control the player has is left
    disabled, dimmed and labelled with a number of seconds exactly when the
    whole seconds from the reported position to the skip offset are
    positive, and enabled, opaque and labelled Skip Ad otherwise. *)
Theorem onTimeUpdate_without_duration p t :
  (effects_of (onTimeUpdate t NaN p) = []
   /\ trackingFired (state_of (onTimeUpdate t NaN p)) = trackingFired p
   /\ (is_Some (videoElement p) ->
       currentTime (state_of (onTimeUpdate t NaN p)) = t)
   /\ (forall vd,
          is_Some (videoElement p) -> vastData p = Some vd ->
          match skipButton p with
          | Some _ =>
              exists b, skipButton (state_of (onTimeUpdate t NaN p)) = Some b
                        /\ refreshed_control vd t b
          | None => skipButton (state_of (onTimeUpdate t NaN p)) = None
          end))
  /\ (effects_of (onTimeUpdate (of_Z 0) (of_Z 0) p) = []
      /\ trackingFired (state_of (onTimeUpdate (of_Z 0) (of_Z 0) p))
         = trackingFired p
      /\ (is_Some (videoElement p) ->
          currentTime (state_of (onTimeUpdate (of_Z 0) (of_Z 0) p)) = of_Z 0)
      /\ (forall vd,
             is_Some (videoElement p) -> vastData p = Some vd ->
             match skipButton p with
             | Some _ =>
                 exists b,
                   skipButton (state_of (onTimeUpdate (of_Z 0) (of_Z 0) p))
                   = Some b
                   /\ refreshed_control vd (of_Z 0) b
             | None =>
                 skipButton (state_of (onTimeUpdate (of_Z 0) (of_Z 0) p)) = None
             end)).
Proof.
  split.
  - destruct (onTimeUpdate_NaN_percent p t NaN (percent_of_NaN t))
      as (He & Hf & Ht).
    repeat (split; [done|]).
    intros vd Hv Hvd. by apply onTimeUpdate_NaN_control; [apply percent_of_NaN| |].
  - destruct (onTimeUpdate_NaN_percent p (of_Z 0) (of_Z 0) percent_of_zero_zero)
      as (He & Hf & Ht).
    repeat (split; [done|]).
    intros vd Hv Hvd.
    by apply onTimeUpdate_NaN_control; [apply percent_of_zero_zero| |].
Qed.

End NoDuration.

(** On the sample session at position 0, an update to 3 s with an
    undefined duration changes the recorded time, and the same update with
    a zero duration also fires the three quartile beacons. *)
Lemma onTimeUpdate_without_duration_counterexample :
  VideoPlayer.currentTime
    (state_of (VideoPlayer.onTimeUpdate (of_Z 3) NaN Samples.skippable_player))
  <> VideoPlayer.currentTime Samples.skippable_player
  /\ effects_of
       (VideoPlayer.onTimeUpdate (of_Z 3) (of_Z 0) Samples.skippable_player)
     = [Pixel "http://t/q1"; Pixel "http://t/q2"; Pixel "http://t/q3"]
  /\ state_of
       (VideoPlayer.onTimeUpdate (of_Z 3) (of_Z 0) Samples.skippable_player)
     <> Samples.skippable_player.
Proof.
  split; [|split].
  - vm_compute. discriminate.
  - vm_compute. reflexivity.
  - intros H.
    apply (f_equal VideoPlayer.currentTime) in H. vm_compute in H.
    discriminate H.
Qed.

Lemma onTimeUpdate_without_duration_witness :
  VideoPlayer.currentTime
    (state_of (VideoPlayer.onTimeUpdate (of_Z 3) NaN Samples.skippable_player))
  = of_Z 3
  /\ exists b,
       VideoPlayer.skipButton
         (state_of (VideoPlayer.onTimeUpdate (of_Z 3) NaN
                      Samples.skippable_player)) = Some b
       /\ refreshed_control (parseVast Samples.skippable_doc) (of_Z 3) b.
Proof.
  destruct (onTimeUpdate_without_duration Samples.skippable_player (of_Z 3))
    as ((_ & _ & Ht & Hc) & _).
  split.
  - apply Ht. vm_compute. eauto.
  - apply (Hc (parseVast Samples.skippable_doc)).
    + vm_compute. eauto.
    + reflexivity.
Defined.

(* ===================================================================== *)
(** ** Invariants of a player along its inputs *)
(* ===================================================================== *)

(** Reads fields through the setters. *)
Ltac simpl_fields :=
  cbn [VideoPlayer.options VideoPlayer.container VideoPlayer.videoElement
       VideoPlayer.skipButton VideoPlayer.vastData VideoPlayer.currentTime
       VideoPlayer.trackingFired VideoPlayer.set_container
       VideoPlayer.set_videoElement VideoPlayer.set_skipButton
       VideoPlayer.set_vastData VideoPlayer.set_currentTime
       VideoPlayer.mark_fired VideoPlayer.appendChild] in *.

Section PlayerInvariants.
Context {cb : Type}.
Implicit Types (p q : VideoPlayer.Player cb) (vd : VastData)
         (o : VideoPlayer.Options cb).

Import VideoPlayer.

Lemma render_spec p vd :
  vastData p = Some vd ->
  render p
  = (Return tt, render_result vd p,
     match truthy_string (impressionUrl vd) with
     | Some url => [Pixel url]
     | None => []
     end ++ (if autoplay (options p) then [VideoPlay] else [])).
Proof.
  intros Hvd. unfold render, render_result.
  run_prims. cbn [vastData set_container]. rewrite Hvd. run_prims.
  destruct (Vast.skipOffset vd) as [off|] eqn:Hoff.
  - rewrite bool_decide_eq_true_2 by done. cbn [when].
    erewrite bind_step; cycle 1.
    { unfold createSkipButton. run_prims.
      erewrite bind_step
        by (apply (updateSkipButton_spec _ vd); exact Hvd).
      rewrite prepend_nil. reflexivity. }
    rewrite prepend_nil. run_prims.
    unfold firePixel, emit, ret, when, bind. simpl_fields.
    destruct (truthy_string (impressionUrl vd)), (autoplay (options p));
      reflexivity.
  - rewrite bool_decide_eq_false_2 by (intros H; by apply H). cbn [when].
    run_prims.
    unfold firePixel, emit, ret, when, bind. simpl_fields.
    destruct (truthy_string (impressionUrl vd)), (autoplay (options p));
      reflexivity.
Qed.

Lemma render_result_inv p vd :
  vastData p = Some vd -> rendered_inv (options p) vd (render_result vd p).
Proof.
  intros Hvd. unfold rendered_inv, render_result.
  destruct (Vast.skipOffset vd) as [off|] eqn:Hoff; simpl_fields.
  - split; [done|]. split; [done|]. split; [eauto|]. intros _.
    split; [eauto|]. eexists. split; [reflexivity|].
    unfold updated_button, skip_enabled. simpl_fields.
    rewrite Hvd, Hoff. cbn [to_number default from_option id].
    destruct (gtb _ _); reflexivity.
  - split; [done|]. split; [done|]. split; [eauto|]. intros Hin.
    exfalso. cbn in Hin.
    repeat (apply elem_of_cons in Hin as [Hin|Hin]; [discriminate|]).
    by apply elem_of_nil in Hin.
Qed.

(** [load()] renders a fetched document that has a media file. *)
Lemma load_renders (u : UserOptions cb) doc :
  is_Some (truthy_string (given_vastUrl u)) ->
  is_Some (truthy_string (mediaFile (parseVast doc))) ->
  rendered_inv (make_options u) (parseVast doc)
    (state_of (load (FetchDocument doc) (new_player u))).
Proof.
  intros [url Hurl] [mf Hmf].
  unfold load. erewrite bind_step by reflexivity. rewrite prepend_nil.
  cbn [options new_player vastUrl make_options]. rewrite Hurl, Hmf.
  unfold try_catch.
  erewrite bind_step by reflexivity. rewrite prepend_nil.
  rewrite (render_spec _ (parseVast doc)) by reflexivity.
  cbn [state_of fst snd].
  apply (render_result_inv
           (set_vastData (Some (parseVast doc)) (new_player u))).
  reflexivity.
Qed.

(** Any other [load()] leaves the player without a video element. *)
Lemma load_inv (u : UserOptions cb) response :
  (exists doc, rendered_inv (make_options u) (parseVast doc)
                 (state_of (load response (new_player u))))
  \/ unrendered_inv (make_options u) (state_of (load response (new_player u))).
Proof.
  destruct (truthy_string (given_vastUrl u)) as [url|] eqn:Hurl; cycle 1.
  { right. unfold load. erewrite bind_step by reflexivity.
    rewrite prepend_nil. cbn [options new_player vastUrl make_options].
    rewrite Hurl. unfold unrendered_inv. by cbn. }
  destruct response as [err|doc].
  - right. unfold load. erewrite bind_step by reflexivity.
    rewrite prepend_nil. cbn [options new_player vastUrl make_options].
    rewrite Hurl. unfold try_catch, throw, bind, emit, call_if_set.
    unfold unrendered_inv. cbn. by destruct (given_onError u).
  - destruct (truthy_string (mediaFile (parseVast doc))) as [mf|] eqn:Hmf.
    + left. exists doc. apply load_renders; eauto.
    + right. unfold load. erewrite bind_step by reflexivity.
      rewrite prepend_nil. cbn [options new_player vastUrl make_options].
      rewrite Hurl, Hmf.
      unfold try_catch, throw, bind, emit, call_if_set, modify.
      unfold unrendered_inv. cbn. by destruct (given_onError u).
Qed.

(** The invariant only reads the fields that marking an event leaves
    alone. *)
Lemma rendered_inv_mark o vd p event :
  rendered_inv o vd p -> rendered_inv o vd (mark_fired event p).
Proof. done. Qed.

Lemma rendered_inv_destroyed o vd p :
  rendered_inv o vd p -> rendered_inv o vd (destroyed p).
Proof.
  intros (Ho & Hvd & [v Hv] & _). unfold rendered_inv, destroyed.
  rewrite Hv. simpl_fields.
  split; [done|]. split; [done|]. split; [eauto|]. intros Hin.
  by apply elem_of_nil in Hin.
Qed.

Lemma rendered_inv_time o vd p t :
  rendered_inv o vd p -> rendered_inv o vd (time_recorded p vd t).
Proof.
  intros (Ho & Hvd & Hv & Hb). unfold time_recorded.
  destruct (skipButton p) as [b|] eqn:Hsb.
  - split; [done|]. split; [done|]. split; [done|]. cbn. intros Hin.
    destruct (Hb Hin) as ([off Hoff] & _). split; [eauto|].
    eexists. split; [reflexivity|].
    unfold updated_button, skip_enabled. cbn. rewrite Hvd, Hoff. cbn.
    destruct (gtb _ _); reflexivity.
  - split; [done|]. split; [done|]. split; [done|]. cbn. intros Hin.
    destruct (Hb Hin) as (_ & b & Hsome & _). congruence.
Qed.

Lemma quartile_inv o vd p percent threshold event :
  event <> "click" ->
  rendered_inv o vd p ->
  exists es, quartile percent threshold event p
             = (Return tt, state_of (quartile percent threshold event p), es)
             /\ rendered_inv o vd (state_of (quartile percent threshold event p)).
Proof.
  intros Hev Hinv. pose proof Hinv as (_ & Hvd & _).
  rewrite (quartile_spec _ vd) by done.
  destruct (_ && _); eexists; split; try reflexivity; done.
Qed.

Lemma onVideoClick_spec p vd :
  vastData p = Some vd ->
  onVideoClick p
  = (Return tt, p,
     match truthy_string (clickThrough vd) with
     | Some url =>
         WindowOpen url "_blank"
         :: tracking_pixels vd "click" ++ click_pixels vd "click"
     | None => []
     end).
Proof.
  intros Hvd. unfold onVideoClick. run_prims. rewrite Hvd. run_prims.
  destruct (truthy_string (clickThrough vd)); [|done].
  run_prims. by rewrite (fireTracking_spec _ vd).
Qed.

(** Every input keeps the invariant of a rendered player. *)
Lemma handle_rendered o vd p i :
  rendered_inv o vd p -> rendered_inv o vd (state_of (handle i p)).
Proof.
  intros Hinv. pose proof Hinv as (Ho & Hvd & [v Hv] & Hb).
  unfold handle. erewrite bind_step by reflexivity. rewrite prepend_nil.
  destruct i as [| t d | | | | | |].
  - rewrite Hv, bool_decide_eq_true_2 by done. cbn [when].
    rewrite (onStart_spec _ vd) by done. by destruct (bool_decide _).
  - rewrite Hv, bool_decide_eq_true_2 by done. cbn [when].
    rewrite (onTimeUpdate_spec _ vd v) by done.
    pose proof (rendered_inv_time o vd p t Hinv) as H0.
    destruct (quartile_inv o vd _ (percent_of t d) 25 "firstQuartile"
                ltac:(done) H0) as (e1 & E1 & H1).
    erewrite bind_step by exact E1.
    destruct (quartile_inv o vd _ (percent_of t d) 50 "midpoint"
                ltac:(done) H1) as (e2 & E2 & H2).
    erewrite bind_step by exact E2.
    destruct (quartile_inv o vd _ (percent_of t d) 75 "thirdQuartile"
                ltac:(done) H2) as (e3 & E3 & H3).
    by rewrite !state_prepend.
  - rewrite Hv, bool_decide_eq_true_2 by done. cbn [when].
    by rewrite (onComplete_spec _ vd).
  - destruct (bool_decide _); cbn [when]; [|done].
    by rewrite (onVideoClick_spec _ vd).
  - destruct (skipButton p) as [b|]; [|done].
    destruct (_ && _); cbn [when]; [|done].
    rewrite (skip_spec _ vd) by done. by apply rendered_inv_destroyed.
  - done.
  - rewrite (skip_spec _ vd) by done. by apply rendered_inv_destroyed.
  - rewrite destroy_spec. by apply rendered_inv_destroyed.
Qed.

(** Every input keeps a player that never rendered without video
    element, children and skip control. *)
Lemma handle_unrendered o p i :
  unrendered_inv o p -> unrendered_inv o (state_of (handle i p)).
Proof.
  intros Hinv. pose proof Hinv as (Ho & Hv & Hc & Hb).
  assert (unrendered_inv o (destroyed p)) as Hd.
  { unfold unrendered_inv, destroyed. by rewrite Hv. }
  assert (unrendered_inv o (state_of (skip p))) as Hs.
  { destruct (vastData p) as [vd|] eqn:Hvd.
    - by rewrite (skip_spec _ vd).
    - unfold skip, fireTracking. erewrite bind_throw; [exact Hinv|].
      erewrite bind_step by reflexivity. rewrite prepend_nil, Hvd.
      reflexivity. }
  unfold handle. erewrite bind_step by reflexivity. rewrite prepend_nil.
  destruct i as [| t d | | | | | |]; rewrite ?Hv, ?Hc, ?Hb; try done.
  by rewrite destroy_spec.
Qed.

Lemma run_rendered o vd inputs p :
  rendered_inv o vd p -> rendered_inv o vd (fst (run inputs p)).
Proof.
  revert p. induction inputs as [|i inputs IH]; intros p H; [done|].
  cbn [run fst]. apply IH. by apply handle_rendered.
Qed.

Lemma run_unrendered o inputs p :
  unrendered_inv o p -> unrendered_inv o (fst (run inputs p)).
Proof.
  revert p. induction inputs as [|i inputs IH]; intros p H; [done|].
  cbn [run fst]. apply IH. by apply handle_unrendered.
Qed.

(** Every reachable player satisfies one of the two invariants. *)
Lemma reachable_inv p :
  reachable p ->
  (exists vd, rendered_inv (options p) vd p) \/ unrendered_inv (options p) p.
Proof.
  intros (u & response & inputs & ->).
  destruct (load_inv u response) as [(doc & H) | H].
  - left. exists (parseVast doc).
    pose proof (run_rendered _ _ inputs _ H) as H'.
    by rewrite (proj1 H') at 1.
  - right. pose proof (run_unrendered _ inputs _ H) as H'.
    by rewrite (proj1 H') at 1.
Qed.

End PlayerInvariants.

(* ===================================================================== *)
(** ** Completion callbacks and skipping *)
(* ===================================================================== *)

Lemma gtb_of_Z_zero (z : Z) : gtb (of_Z z) (of_Z 0) = false <-> z <= 0.
Proof.
  unfold gtb, of_Z, Qltb.
  destruct (inject_Z 0 ?= inject_Z z)%Q eqn:E.
  - apply (proj2 (Qeq_alt _ _)) in E. apply (proj1 (inject_Z_injective _ _)) in E.
    split; [lia|done].
  - apply (proj2 (Qlt_alt _ _)) in E. rewrite <- Zlt_Qlt in E.
    split; [done|lia].
  - apply (proj2 (Qgt_alt _ _)) in E. rewrite <- Zlt_Qlt in E.
    split; [lia|done].
Qed.

Lemma Qceiling_nonpos (x : Q) : Qceiling x <= 0 <-> (x <= 0)%Q.
Proof.
  split.
  - intros H. eapply Qle_trans; [apply Qle_ceiling|].
    change 0%Q with (inject_Z 0). by rewrite <- Zle_Qle.
  - intros H. pose proof (Qceiling_lt x) as Hlt.
    assert (inject_Z (Qceiling x - 1) < inject_Z 0)%Q as H0
      by (eapply Qlt_le_trans; [exact Hlt | exact H]).
    rewrite <- Zlt_Qlt in H0. lia.
Qed.

(** On finite values the button is enabled exactly from the offset on. *)
Lemma remaining_not_positive (off t : Q) :
  gtb (ceil (sub (Fin off) (Fin t))) (of_Z 0) = false <-> (off <= t)%Q.
Proof.
  unfold sub, neg, add, ceil. rewrite gtb_of_Z_zero, Qceiling_nonpos.
  rewrite !Qred_correct. split; intros H.
  - apply Qle_minus_iff in H. apply Qle_minus_iff.
    eapply Qle_trans; [exact H|]. apply Qle_lteq. right. ring.
  - apply Qle_minus_iff. apply Qle_minus_iff in H.
    eapply Qle_trans; [exact H|]. apply Qle_lteq. right. ring.
Qed.

Section Skipping.
Context {cb : Type}.
Implicit Types (p : VideoPlayer.Player cb) (vd : VastData).

Import VideoPlayer.

(** C10. For a player built from any options, whatever the callbacks
    they carry and whoever built it, and loaded with any document that has
    a media file, after any sequence of inputs, the ended event fires the
    complete tracker, then invokes [onComplete] if configured, then invokes
    [onReward], if configured, with no argument: the reward callback of a
    plain player runs on every natural completion. *)
Theorem completion_invokes_onComplete_and_onReward
        (u : UserOptions cb) (doc : Document) (inputs : list input) :
  is_Some (truthy_string (given_vastUrl u)) ->
  is_Some (truthy_string (mediaFile (parseVast doc))) ->
  effects_of
    (handle Ended
       (fst (run inputs (state_of (load (FetchDocument doc) (new_player u))))))
  = tracking_pixels (parseVast doc) "complete"
    ++ callback_effects (given_onComplete u) []
    ++ callback_effects (given_onReward u) [].
Proof.
  intros Hurl Hmf.
  pose proof (run_rendered _ _ inputs _ (load_renders u doc Hurl Hmf))
    as (Ho & Hvd & [v Hv] & _).
  set (p := fst (run inputs _)) in *.
  unfold handle. erewrite bind_step by reflexivity. rewrite prepend_nil.
  rewrite Hv, bool_decide_eq_true_2 by done. cbn [when].
  rewrite (onComplete_spec _ (parseVast doc)) by done.
  by rewrite Ho.
Qed.

Lemma skip_click_disabled p :
  reachable p -> skip_enabled p = false ->
  handle SkipClick p = (Return tt, p, []).
Proof.
  intros Hreach Hoff.
  unfold handle. erewrite bind_step by reflexivity. rewrite prepend_nil.
  destruct (reachable_inv p Hreach) as [(vd & _ & _ & _ & Hb) | (_ & _ & _ & Hb)].
  - destruct (skipButton p) as [b|] eqn:Hsb; [|done].
    destruct (bool_decide (SkipButtonNode ∈ container p)) eqn:Hin; [|done].
    apply bool_decide_eq_true_1 in Hin.
    destruct (Hb Hin) as (_ & b' & Hb' & Hdis).
    assert (b' = b) as -> by congruence.
    rewrite Hdis, Hoff. reflexivity.
  - by rewrite Hb.
Qed.

(** C4, as the code has it. The gate is the skip control, not [skip()]:
    on every reachable player a click on the control is a no-op, firing no
    beacon and changing no state, unless the descriptor has a skip offset
    and the whole seconds remaining to it are not positive (for finite
    values: the recorded time has reached the offset); in particular it is
    a no-op for every descriptor without skip offset. [skip()] called
    directly is not gated: it fires the skip tracker, invokes [onSkip] and
    destroys the player in every state. *)
Theorem skip_control_gates_skipping p :
  reachable p ->
  (skip_enabled p = false -> handle SkipClick p = (Return tt, p, []))
  /\ (forall vd, vastData p = Some vd -> Vast.skipOffset vd = None ->
                 handle SkipClick p = (Return tt, p, []))
  /\ (forall vd off t,
         vastData p = Some vd -> Vast.skipOffset vd = Some (Fin off) ->
         currentTime p = Fin t ->
         (skip_enabled p = true <-> (off <= t)%Q))
  /\ handle CallSkip p = skip p
  /\ (forall vd,
         vastData p = Some vd ->
         skip p = (Return tt, destroyed p,
                   tracking_pixels vd "skip"
                   ++ callback_effects (onSkip (options p)) []
                   ++ match videoElement p with
                      | Some _ => [VideoPause]
                      | None => []
                      end)).
Proof.
  intros Hreach. split; [|split; [|split; [|split]]].
  - by apply skip_click_disabled.
  - intros vd Hvd Hnone. apply skip_click_disabled; [done|].
    unfold skip_enabled. by rewrite Hvd, Hnone.
  - intros vd off t Hvd Hoff Ht. unfold skip_enabled.
    rewrite Hvd, Hoff, Ht, negb_true_iff. apply remaining_not_positive.
  - unfold handle. erewrite bind_step by reflexivity. by rewrite prepend_nil.
  - intros vd Hvd. by apply skip_spec.
Qed.

End Skipping.

Lemma sample_reachable (doc : Document) : reachable (Samples.loaded doc).
Proof. by exists Samples.plain_options, (VideoPlayer.FetchDocument doc), []. Qed.

Lemma completion_invokes_onComplete_and_onReward_witness :
  effects_of (VideoPlayer.handle VideoPlayer.Ended Samples.unskippable_player)
  = [Pixel "http://t/complete"; Invoke "onComplete" []; Invoke "onReward" []].
Proof.
  exact (completion_invokes_onComplete_and_onReward
           Samples.plain_options Samples.unskippable_doc []
           (mk_is_Some _ _ eq_refl) (mk_is_Some _ _ eq_refl)).
Defined.

(** On the sample without skip offset a click on the control does
    nothing. *)
Lemma skip_control_gates_skipping_witness :
  VideoPlayer.handle VideoPlayer.SkipClick Samples.unskippable_player
  = (Return tt, Samples.unskippable_player, []).
Proof.
  apply (proj1 (skip_control_gates_skipping
                  Samples.unskippable_player
                  (sample_reachable Samples.unskippable_doc))).
  reflexivity.
Defined.

(** [skip()] on a descriptor without skip offset, at time 0, fires the
    skip beacon, invokes [onSkip] and empties the container. *)
Lemma skip_control_gates_skipping_counterexample :
  Vast.skipOffset (parseVast Samples.unskippable_doc) = None
  /\ effects_of (VideoPlayer.handle VideoPlayer.CallSkip Samples.unskippable_player)
     = [Pixel "http://t/skip"; Invoke "onSkip" []; VideoPause]
  /\ VideoPlayer.container
       (state_of (VideoPlayer.handle VideoPlayer.CallSkip Samples.unskippable_player))
     <> VideoPlayer.container Samples.unskippable_player.
Proof.
  split; [reflexivity|]. split; [reflexivity|]. vm_compute. discriminate.
Qed.

(* ===================================================================== *)
(** ** The events latched by [trackingFired] *)
(* ===================================================================== *)

Section Latch.
Context {cb : Type}.
Implicit Types (p : VideoPlayer.Player cb) (vd : VastData).

Import VideoPlayer.

(** Once start is recorded, [onStart] does nothing. *)
Lemma onStart_latched p :
  "start" ∈ trackingFired p -> onStart p = (Return tt, p, []).
Proof.
  intros H. unfold onStart. erewrite bind_step by reflexivity.
  by rewrite prepend_nil, bool_decide_eq_false_2 by (intros Hn; by apply Hn).
Qed.

(** Once a quartile is recorded, its check does nothing. *)
Lemma quartile_latched p percent threshold event :
  event ∈ trackingFired p ->
  quartile percent threshold event p = (Return tt, p, []).
Proof.
  intros H. unfold quartile. erewrite bind_step by reflexivity.
  rewrite prepend_nil, (bool_decide_eq_false_2 (event ∉ _)), andb_false_r
    by (intros Hn; by apply Hn).
  reflexivity.
Qed.

(** [onStart] records start. *)
Lemma onStart_records p vd :
  vastData p = Some vd -> "start" ∈ trackingFired (state_of (onStart p)).
Proof.
  intros Hvd. rewrite (onStart_spec _ vd) by done.
  destruct (bool_decide _) eqn:Hb; cbn [state_of fst snd].
  - cbn. set_unfold. by left.
  - apply bool_decide_eq_false_1 in Hb.
    by destruct (decide ("start" ∈ trackingFired p)).
Qed.

(** No input of a rendered player removes a recorded event. *)
Lemma handle_keeps_fired o vd p i event :
  rendered_inv o vd p -> event ∈ trackingFired p ->
  event ∈ trackingFired (state_of (handle i p)).
Proof.
  intros Hinv Hin. pose proof Hinv as (Ho & Hvd & [v Hv] & Hb).
  assert (forall (q : Player cb) percent threshold e,
             vastData q = Some vd -> e <> "click" ->
             event ∈ trackingFired q ->
             exists es, quartile percent threshold e q
                        = (Return tt, state_of (quartile percent threshold e q), es)
                        /\ vastData (state_of (quartile percent threshold e q))
                           = Some vd
                        /\ event ∈ trackingFired
                                     (state_of (quartile percent threshold e q)))
    as Hq.
  { intros q percent threshold e Hqvd He Hqin.
    rewrite (quartile_spec _ vd) by done.
    destruct (_ && _); eexists; (split; [reflexivity|]); (split; [done|]);
      [cbn; set_unfold; by right | done]. }
  assert (event ∈ trackingFired (destroyed p)) as Hd.
  { unfold destroyed. by destruct (videoElement p). }
  unfold handle. erewrite bind_step by reflexivity. rewrite prepend_nil.
  destruct i as [| t d | | | | | |].
  - rewrite Hv, bool_decide_eq_true_2 by done. cbn [when].
    rewrite (onStart_spec _ vd) by done.
    destruct (bool_decide _); [cbn; set_unfold; by right | done].
  - rewrite Hv, bool_decide_eq_true_2 by done. cbn [when].
    rewrite (onTimeUpdate_spec _ vd v) by done.
    assert (vastData (time_recorded p vd t) = Some vd
            /\ event ∈ trackingFired (time_recorded p vd t)) as [H0 H0'].
    { unfold time_recorded. by destruct (skipButton p). }
    destruct (Hq _ (percent_of t d) 25 "firstQuartile" H0 ltac:(done) H0')
      as (e1 & E1 & H1 & H1').
    erewrite bind_step by exact E1.
    destruct (Hq _ (percent_of t d) 50 "midpoint" H1 ltac:(done) H1')
      as (e2 & E2 & H2 & H2').
    erewrite bind_step by exact E2.
    destruct (Hq _ (percent_of t d) 75 "thirdQuartile" H2 ltac:(done) H2')
      as (e3 & E3 & H3 & H3').
    by rewrite !state_prepend.
  - rewrite Hv, bool_decide_eq_true_2 by done. cbn [when].
    by rewrite (onComplete_spec _ vd).
  - destruct (bool_decide _); cbn [when]; [|done].
    by rewrite (onVideoClick_spec _ vd).
  - destruct (skipButton p) as [b|]; [|done].
    destruct (_ && _); cbn [when]; [|done].
    by rewrite (skip_spec _ vd).
  - done.
  - by rewrite (skip_spec _ vd).
  - by rewrite destroy_spec.
Qed.

(** Hence start and the three quartiles are sent at most once in a
    session: the first firing records the event, every later input keeps
    the record, and a recorded event is not fired again. *)
Lemma run_keeps_fired o vd inputs p event :
  rendered_inv o vd p -> event ∈ trackingFired p ->
  event ∈ trackingFired (fst (run inputs p)).
Proof.
  revert p. induction inputs as [|i inputs IH]; intros p Hinv Hin; [done|].
  cbn [run fst]. apply IH; [by apply handle_rendered|].
  by eapply handle_keeps_fired.
Qed.

End Latch.

(** C1 at its failing inputs. Two ended events send the complete beacon
    twice and two calls of [skip()] send the skip beacon twice, on a
    session where repeated play and position updates send start and the
    quartiles once each. *)
Theorem complete_and_skip_beacons_repeat :
  VideoPlayer.pixels
    (snd (VideoPlayer.run [VideoPlayer.Ended; VideoPlayer.Ended]
                          Samples.skippable_player))
  = ["B"; "B"]
  /\ VideoPlayer.pixels
       (snd (VideoPlayer.run [VideoPlayer.CallSkip; VideoPlayer.CallSkip]
                             Samples.skippable_player))
     = ["http://t/skip"; "http://t/skip"]
  /\ VideoPlayer.pixels
       (snd (VideoPlayer.run
               [VideoPlayer.Play; VideoPlayer.Play;
                VideoPlayer.TimeUpdate (of_Z 27) (of_Z 30);
                VideoPlayer.TimeUpdate (of_Z 28) (of_Z 30)]
               Samples.skippable_player))
     = ["http://t/start"; "http://t/q1"; "http://t/q2"; "http://t/q3"].
Proof. split; [|split]; vm_compute; reflexivity. Qed.

(* ===================================================================== *)
(** ** Closing the interstitial *)
(* ===================================================================== *)

Section InterstitialClose.
Context {cb : Type}.
Implicit Types (s : Interstitial.State cb).

Import Interstitial.

Lemma close_spec s :
  close s
  = (Return tt, interstitial_closed s, callback_effects (onClose (options s)) []).
Proof.
  unfold close, interstitial_closed. run_prims.
  assert (options (clear_timer s) = options s) as Hopt
    by (unfold clear_timer; by destruct (timer s)).
  destruct (overlay (clear_timer s)); cbn [when]; run_prims;
    unfold call_if_set, callback_effects, emit, ret;
    rewrite ?Hopt; by destruct (onClose (options s)).
Qed.

Lemma clear_timer_twice s : clear_timer (clear_timer s) = clear_timer s.
Proof.
  destruct s as [o ov cbt [id|] ib iv r td]; cbn; [|done].
  f_equal. apply leibniz_equiv. intros x. set_unfold. tauto.
Qed.

(** Closing a closed interstitial changes nothing. *)
Lemma interstitial_closed_twice s :
  interstitial_closed (interstitial_closed s) = interstitial_closed s.
Proof.
  destruct s as [o [] cbt [id|] ib iv r td]; cbn; try done;
    f_equal; apply leibniz_equiv; intros x; set_unfold; tauto.
Qed.

Lemma interstitial_closed_options s :
  options (interstitial_closed s) = options s.
Proof.
  unfold interstitial_closed, clear_timer.
  destruct (timer s); cbn; by destruct (overlay s).
Qed.

Lemma handle_CallClose s : handle CallClose s = close s.
Proof.
  unfold handle. erewrite bind_step by reflexivity. by rewrite prepend_nil.
Qed.

Lemma run_close_times (n : nat) s :
  run (close_times (S n)) s
  = (interstitial_closed s,
     concat (replicate (S n) (callback_effects (onClose (options s)) []))).
Proof.
  revert s. induction n as [|n IH]; intros s.
  - cbn [close_times replicate run].
    rewrite handle_CallClose, close_spec. cbn. by rewrite !app_nil_r.
  - change (close_times (S (S n))) with (CallClose :: close_times (S n)).
    cbn [run]. rewrite handle_CallClose, close_spec.
    cbn [state_of effects_of fst snd]. rewrite IH. cbn [fst snd].
    by rewrite interstitial_closed_twice, interstitial_closed_options.
Qed.

Lemma tick_inv s : interstitial_inv s -> interstitial_inv (state_of (tick s)).
Proof.
  intros [Ht Ho]. unfold tick. run_prims. cbn [remaining].
  destruct (_ <=? _); run_prims; unfold interstitial_inv, clear_timer;
    cbn; rewrite ?Ht; cbn; done.
Qed.

Lemma handle_interstitial_inv s i :
  interstitial_inv s -> interstitial_inv (state_of (handle i s)).
Proof.
  intros Hinv. pose proof Hinv as [Ht Ho].
  assert (interstitial_inv (interstitial_closed s)) as Hc.
  { unfold interstitial_inv, interstitial_closed, clear_timer.
    rewrite Ht. cbn. destruct (overlay s); cbn; by rewrite ?Ht, ?Ho. }
  unfold handle. erewrite bind_step by reflexivity. rewrite prepend_nil.
  destruct i.
  - destruct (bool_decide _); cbn [when]; [by apply tick_inv | done].
  - destruct (_ && _); cbn [when]; [by rewrite close_spec | done].
  - by rewrite close_spec.
Qed.

Lemma interstitial_reachable_inv s :
  interstitial_reachable s -> interstitial_inv s.
Proof.
  intros (o & inputs & ->).
  assert (interstitial_inv (state_of (show (new_interstitial o)))) as H0 by done.
  revert H0. generalize (state_of (show (new_interstitial o))).
  induction inputs as [|i inputs IH]; intros s H; [done|].
  cbn [run fst]. apply IH. by apply handle_interstitial_inv.
Qed.

(** C8, as the code has it. On an interstitial that was shown, after any
    inputs, calling [close()] once or more clears the countdown timer,
    removes the overlay and leaves the state one call leaves, so these
    parts are idempotent; the completion callback, when configured, is
    invoked by every call: [n] calls invoke it [n] times. *)
Theorem interstitial_close_repeated (n : nat) s :
  interstitial_reachable s ->
  (countdown_id ∉ intervals (fst (run (close_times (S n)) s)))
  /\ overlay (fst (run (close_times (S n)) s)) = false
  /\ overlay_in_body (fst (run (close_times (S n)) s)) = false
  /\ fst (run (close_times (S n)) s) = fst (run (close_times 1) s)
  /\ snd (run (close_times (S n)) s)
     = concat (replicate (S n) (callback_effects (onClose (options s)) [])).
Proof.
  intros Hreach. destruct (interstitial_reachable_inv s Hreach) as [Ht Ho].
  rewrite !run_close_times. cbn [fst snd].
  unfold interstitial_closed, clear_timer. rewrite Ht. cbn.
  split; [|split; [|split; [|split]]]; try done.
  - destruct (overlay s); cbn; set_unfold; tauto.
  - by destruct (overlay s).
  - destruct (overlay s) eqn:E; cbn; [done|]. by rewrite Ho.
Qed.

End InterstitialClose.

Lemma interstitial_close_repeated_witness :
  snd (Interstitial.run (Interstitial.close_times 3) Samples.shown_interstitial)
  = [Invoke "onClose" []; Invoke "onClose" []; Invoke "onClose" []].
Proof.
  apply (interstitial_close_repeated 2 Samples.shown_interstitial).
  by exists Samples.interstitial_options, [].
Defined.

(** Two calls of [close()] on a shown interstitial invoke the completion
    callback twice. *)
Lemma interstitial_close_counterexample :
  snd (Interstitial.run [Interstitial.CallClose; Interstitial.CallClose]
                        Samples.shown_interstitial)
  = [Invoke "onClose" []; Invoke "onClose" []]
  /\ snd (Interstitial.run [Interstitial.CallClose; Interstitial.CallClose]
                           Samples.shown_interstitial)
     <> [Invoke "onClose" []].
Proof. split; [reflexivity | vm_compute; discriminate]. Qed.

(* ===================================================================== *)
(** ** What the player of a rewarded ad can invoke *)
(* ===================================================================== *)

Section QuietMethods.
Import VideoPlayer.


Variable o : Options Rewarded.closure.
Hypothesis no_onSkip : onSkip o = None.
Hypothesis no_onReward : onReward o = None.
Hypothesis onError_closure : onError o = Some Rewarded.OnErrorClosure.

Implicit Types (p : Player Rewarded.closure).

Lemma count_complete_app (es es' : list (effect Rewarded.closure)) :
  count_complete (es ++ es') = (count_complete es + count_complete es')%nat.
Proof. unfold count_complete. by rewrite List.filter_app, length_app. Qed.

Lemma quiet_bind {A B} (m : @M Rewarded.closure A) (k : A -> @M Rewarded.closure B) p :
  quiet o (m p) ->
  (forall a p1 e1, m p = (Return a, p1, e1) -> options p1 = o -> quiet o (k a p1)) ->
  quiet o (bind m k p).
Proof.
  intros [Ho Hc] Hk. unfold bind.
  destruct (m p) as [[[a|err] p1] e1] eqn:E; [|done].
  cbn [state_of effects_of fst snd] in Ho, Hc.
  destruct (Hk a p1 e1 eq_refl Ho) as [Ho' Hc'].
  destruct (k a p1) as [[c p2] e2]. cbn [state_of effects_of fst snd] in *.
  split; [done|]. cbn [effects_of snd]. rewrite count_complete_app. lia.
Qed.

Lemma quiet_bind_get {B} (k : Player Rewarded.closure -> @M Rewarded.closure B) p :
  options p = o -> quiet o (k p p) -> quiet o (bind get k p).
Proof.
  intros Ho Hk. apply quiet_bind; [done|].
  intros a p1 e1 [= <- <- <-] _. exact Hk.
Qed.

Lemma quiet_bind_deref {A B} (r : option A) (k : A -> @M Rewarded.closure B) p :
  options p = o ->
  (forall a, r = Some a -> quiet o (k a p)) ->
  quiet o (bind (deref r) k p).
Proof.
  intros Ho Hk. destruct r as [a|]; [|done].
  apply quiet_bind; [done|]. intros a' p1 e1 [= <- <- <-] _. by apply Hk.
Qed.

Lemma quiet_bind_modify {B} (f : Player Rewarded.closure -> Player Rewarded.closure)
      (k : unit -> @M Rewarded.closure B) p :
  options (f p) = o -> quiet o (k tt (f p)) -> quiet o (bind (modify f) k p).
Proof.
  intros Ho Hk. apply quiet_bind; [done|].
  intros [] p1 e1 [= <- <-] _. exact Hk.
Qed.

Lemma quiet_ret {A} (a : A) p : options p = o -> quiet o (ret a p).
Proof. done. Qed.

Lemma quiet_modify (f : Player Rewarded.closure -> Player Rewarded.closure) p :
  options (f p) = o -> quiet o (modify f p).
Proof. done. Qed.

Lemma quiet_firePixel url p : options p = o -> quiet o (firePixel url p).
Proof. done. Qed.

Lemma quiet_fireTracking event p :
  options p = o -> quiet o (fireTracking event p).
Proof.
  intros Ho. unfold fireTracking.
  apply quiet_bind_get; [done|]. apply quiet_bind_deref; [done|]. intros vd _.
  apply quiet_bind.
  - destruct (truthy_string _); done.
  - intros [] p1 e1 _ Ho1. destruct (truthy_string _); [|done].
    by destruct (bool_decide _).
Qed.

Lemma quiet_updateSkipButton p :
  options p = o -> quiet o (updateSkipButton p).
Proof.
  intros Ho. unfold updateSkipButton.
  apply quiet_bind_get; [done|]. destruct (skipButton p); [|done].
  apply quiet_bind_deref; [done|]. intros vd _. by destruct (gtb _ _).
Qed.

Lemma quiet_destroy p : options p = o -> quiet o (destroy p).
Proof.
  intros Ho. rewrite destroy_spec. unfold quiet, destroyed.
  by destruct (videoElement p).
Qed.

Lemma quiet_skip p : options p = o -> quiet o (skip p).
Proof.
  intros Ho. unfold skip.
  apply quiet_bind; [by apply quiet_fireTracking|]. intros [] p1 e1 _ Ho1.
  apply quiet_bind_get; [done|]. rewrite Ho1, no_onSkip.
  apply quiet_bind; [done|]. intros [] p2 e2 [= <- <-] _.
  by apply quiet_destroy.
Qed.

Lemma quiet_onStart p : options p = o -> quiet o (onStart p).
Proof.
  intros Ho. unfold onStart. apply quiet_bind_get; [done|].
  destruct (bool_decide _); [|done]. cbn [when].
  apply quiet_bind; [by apply quiet_fireTracking|]. by intros [] p1 e1 _ Ho1.
Qed.

Lemma quiet_quartile percent threshold event p :
  options p = o -> quiet o (quartile percent threshold event p).
Proof.
  intros Ho. unfold quartile. apply quiet_bind_get; [done|].
  destruct (_ && _); [|done]. cbn [when].
  apply quiet_bind; [by apply quiet_fireTracking|]. by intros [] p1 e1 _ Ho1.
Qed.

Lemma quiet_onTimeUpdate t d p :
  options p = o -> quiet o (onTimeUpdate t d p).
Proof.
  intros Ho. unfold onTimeUpdate. apply quiet_bind_get; [done|].
  apply quiet_bind_deref; [done|]. intros v _.
  apply quiet_bind_modify; [done|]. apply quiet_bind_get; [done|].
  cbv zeta.
  apply quiet_bind; [by apply quiet_updateSkipButton|]. intros [] p1 e1 _ Ho1.
  apply quiet_bind; [by apply quiet_quartile|]. intros [] p2 e2 _ Ho2.
  apply quiet_bind; [by apply quiet_quartile|]. intros [] p3 e3 _ Ho3.
  by apply quiet_quartile.
Qed.

Lemma quiet_onVideoClick p : options p = o -> quiet o (onVideoClick p).
Proof.
  intros Ho. unfold onVideoClick. apply quiet_bind_get; [done|].
  apply quiet_bind_deref; [done|]. intros vd _.
  destruct (truthy_string _); [|done].
  apply quiet_bind; [done|]. intros [] p1 e1 [= <- <-] _.
  by apply quiet_fireTracking.
Qed.

Lemma quiet_render p : options p = o -> quiet o (render p).
Proof.
  intros Ho. unfold render.
  apply quiet_bind_modify; [done|]. apply quiet_bind_get; [done|].
  apply quiet_bind_deref; [done|]. intros vd _.
  apply quiet_bind_modify; [done|]. apply quiet_bind_modify; [done|].
  apply quiet_bind.
  { destruct (bool_decide _); [|done]. cbn [when]. unfold createSkipButton.
    apply quiet_bind_modify; [done|].
    apply quiet_bind; [by apply quiet_updateSkipButton|].
    by intros [] p1 e1 _ Ho1. }
  intros [] p1 e1 _ Ho1. apply quiet_bind_modify; [done|].
  apply quiet_bind.
  { by destruct (truthy_string _). }
  intros [] p2 e2 _ Ho2. by destruct (autoplay _).
Qed.

(** [load()] may invoke the error closure, never the completion
    closure. *)
Lemma quiet_load response p : options p = o -> quiet o (load response p).
Proof.
  intros Ho. unfold load. apply quiet_bind_get; [done|].
  destruct (truthy_string _); [|done].
  unfold try_catch.
  assert (quiet o
            (match response with
             | FetchRejected error => throw error
             | FetchDocument doc =>
                 modify (set_vastData (Some (parseVast doc))) ;;
                 match truthy_string (mediaFile (parseVast doc)) with
                 | Some _ => render
                 | None => throw (VError "No media file in VAST response")
                 end
             end p)) as Hbody.
  { destruct response as [err|doc]; [done|].
    apply quiet_bind_modify; [done|].
    destruct (truthy_string _); [by apply quiet_render | done]. }
  destruct Hbody as [Hbo Hbc].
  match goal with |- context [match ?b with _ => _ end] =>
    destruct b as [[[[]|err] p1] e1] eqn:E end; [done|].
  cbn [state_of effects_of fst snd] in Hbo, Hbc.
  rewrite Ho, onError_closure. unfold quiet.
  cbv [bind emit call_if_set]. cbn [state_of effects_of fst snd].
  split; [done|]. rewrite count_complete_app, Hbc. reflexivity.
Qed.

(** Every input but the ended event is quiet. *)
Lemma quiet_handle i p :
  i <> Ended -> options p = o -> quiet o (handle i p).
Proof.
  intros Hi Ho. unfold handle. apply quiet_bind_get; [done|].
  destruct i as [| t d | | | | | |]; try done.
  - destruct (bool_decide _); [by apply quiet_onStart | done].
  - destruct (bool_decide _); [by apply quiet_onTimeUpdate | done].
  - destruct (bool_decide _); [by apply quiet_onVideoClick | done].
  - destruct (skipButton p); [|done].
    destruct (_ && _); [by apply quiet_skip | done].
  - by apply quiet_skip.
  - by apply quiet_destroy.
Qed.

(** The ended event invokes the completion closure at most once. *)
Lemma ended_bound p :
  options p = o ->
  options (state_of (handle Ended p)) = o
  /\ (count_complete (effects_of (handle Ended p)) <= 1)%nat.
Proof.
  intros Ho. unfold handle. erewrite bind_step by reflexivity.
  rewrite prepend_nil. destruct (bool_decide _); [|cbn; split; [done|lia]].
  cbn [when]. unfold onCompleteMethod, bind.
  destruct (quiet_fireTracking "complete" p Ho) as [Hfo Hfc].
  destruct (fireTracking "complete" p) as [[[[]|err] p1] e1];
    cbn [state_of effects_of fst snd] in *; [|split; [done|lia]].
  cbn [get]. rewrite Hfo, no_onReward. unfold call_if_set, emit, ret.
  destruct (onComplete o) as [[]|]; cbn [state_of effects_of fst snd app];
    rewrite ?count_complete_app, ?Hfc; (split; [done|]); cbn; lia.
Qed.

End QuietMethods.

(* ===================================================================== *)
(** ** The rewarded ad *)
(* ===================================================================== *)

Section RewardedSteps.
Context {cb : Type} `{EqDecision cb}.
Implicit Types (s : Rewarded.State cb) (p q : VideoPlayer.Player Rewarded.closure)
         (es : list (effect Rewarded.closure)).

Import Rewarded.

Variable o : Options cb.
Variable f : cb.
Hypothesis onClose_other : onClose o <> Some f.
Hypothesis onError_other : onError o <> Some f.

Lemma call_if_set_spec (g : option cb) args s :
  call_if_set g args s = (Return tt, s, callback_effects g args).
Proof. by destruct g. Qed.

Lemma calls_of_self args : calls_of f [Invoke f args] = [args].
Proof. cbn. by rewrite decide_True. Qed.

Lemma calls_of_app (g : cb) (a b : list (effect cb)) :
  calls_of g (a ++ b) = calls_of g a ++ calls_of g b.
Proof. unfold calls_of. apply omap_app. Qed.

Lemma calls_of_callback_other (g : option cb) args :
  g <> Some f -> calls_of f (callback_effects g args) = [].
Proof.
  intros Hg. destruct g as [g|]; [|done]. cbn.
  destruct (decide (g = f)) as [->|]; [by destruct Hg | done].
Qed.

Lemma calls_of_passthrough es : calls_of f (omap passthrough es) = [].
Proof.
  induction es as [|e es IH]; [done|].
  destruct e; cbn; try exact IH. 
Qed.

Lemma player_options_inv s :
  options s = o ->
  VideoPlayer.onSkip (VideoPlayer.make_options (player_options s)) = None
  /\ VideoPlayer.onReward (VideoPlayer.make_options (player_options s)) = None
  /\ VideoPlayer.onError (VideoPlayer.make_options (player_options s))
     = Some OnErrorClosure
  /\ VideoPlayer.onComplete (VideoPlayer.make_options (player_options s))
     = Some OnCompleteClosure.
Proof. done. Qed.

Lemma rewarded_inv_with_player s p q :
  rewarded_inv o s -> player s = Some p ->
  VideoPlayer.options q = VideoPlayer.options p ->
  rewarded_inv o (with_player q s).
Proof.
  intros (Ho & p' & Hp & Hpo) Hp' Hq. split; [done|].
  exists q. split; [done|]. cbn. rewrite Hq.
  assert (p' = p) as -> by congruence. exact Hpo.
Qed.

Lemma close_spec_rewarded s p :
  player s = Some p ->
  close s
  = (Return tt, rewarded_closed p s,
     match VideoPlayer.videoElement p with
     | Some _ => [VideoPause]
     | None => []
     end ++ callback_effects (onClose (options s)) []).
Proof.
  intros Hp. unfold close, rewarded_closed, callback_effects.
  unfold bind, get, modify, when, call_if_set, emit, emit_all, ret.
  rewrite Hp, destroy_spec. cbn.
  destruct (overlay s), (onClose (options s)), (VideoPlayer.videoElement p);
    reflexivity.
Qed.

Lemma destroyed_twice p : destroyed (destroyed p) = destroyed p.
Proof.
  unfold destroyed. destruct (VideoPlayer.videoElement p) eqn:E; cbn.
  - reflexivity.
  - by rewrite E.
Qed.

Lemma rewarded_closed_inv s p :
  rewarded_inv o s -> player s = Some p -> rewarded_inv o (rewarded_closed p s).
Proof.
  intros (Ho & p' & Hp & Hpo) Hp'. assert (p' = p) as -> by congruence.
  split; [done|]. exists (destroyed p). split; [done|].
  unfold destroyed. by destruct (VideoPlayer.videoElement p).
Qed.

(** Replaying the effects of a player method keeps the invariant, invokes
    no reward callback, and registers one timeout for each invocation of
    the completion closure; the player it leaves is the one it found or
    that player destroyed. *)
Lemma replay_spec es s p :
  rewarded_inv o s -> player s = Some p ->
  exists s' (out : list (effect cb)),
    replay es s = (Return tt, s', out)
    /\ rewarded_inv o s'
    /\ calls_of f out = []
    /\ timeouts s' = (timeouts s + count_complete es)%nat
    /\ (player s' = Some p \/ player s' = Some (destroyed p)).
Proof.
  revert s p. induction es as [|e es IH]; intros s p Hinv Hp.
  { exists s, []. split; [done|]. split; [done|]. split; [done|].
    split; [|by left]. unfold count_complete. cbn. lia. }
  assert (forall e' : effect cb, passthrough e = Some e' ->
            exists s' (out : list (effect cb)),
              replay (e :: es) s = (Return tt, s', out)
              /\ rewarded_inv o s' /\ calls_of f out = []
              /\ timeouts s' = (timeouts s + count_complete (e :: es))%nat
              /\ (player s' = Some p \/ player s' = Some (destroyed p)))
    as Hplain.
  { intros e' He'.
    destruct (IH s p Hinv Hp) as (s' & out & Hr & Hi & Hc & Ht & Hpl).
    exists s', (e' :: out).
    assert (replay (e :: es) s
            = (match passthrough e with
               | Some e' => emit e'
               | None => ret tt
               end ;; replay es) s) as ->
      by (destruct e; try reflexivity; discriminate He').
    rewrite He'. erewrite bind_step by reflexivity. rewrite Hr.
    split; [done|]. split; [done|]. split.
    - change (e' :: out) with ([e'] ++ out). rewrite calls_of_app, Hc.
      destruct e; inversion He'; done.
    - split; [|done]. rewrite Ht. unfold count_complete. cbn.
      destruct e; try done; discriminate He'. }
  destruct e as [url|url target| | |msg|g args];
    try (by eapply Hplain).
  cbn [replay].
  pose proof (proj1 Hinv) as Ho.
  destruct g.
  - (* the completion closure: grantReward(); close() *)
    set (s1 := mkState (options s) (overlay s) (player s) (overlay_in_body s)
                       (S (popups s)) (S (timeouts s))).
    assert (rewarded_inv o s1) as Hinv1 by exact Hinv.
    assert (player s1 = Some p) as Hp1 by exact Hp.
    destruct (IH (rewarded_closed p s1) (destroyed p)
                 (rewarded_closed_inv _ _ Hinv1 Hp1) eq_refl)
      as (s' & out & Hr & Hi & Hc & Ht & Hpl).
    eexists s', _.
    erewrite bind_step; cycle 1.
    { unfold run_closure, grantReward. run_prims. fold s1.
      by apply close_spec_rewarded. }
    rewrite Hr. split; [reflexivity|]. split; [done|]. split.
    + cbn [effects_of snd].
      change (options s1) with (options s). rewrite !calls_of_app, Hc, Ho.
      rewrite calls_of_callback_other by done.
      by destruct (VideoPlayer.videoElement p).
    + split.
      * rewrite Ht. unfold count_complete. cbn. lia.
      * right. destruct Hpl as [-> | ->]; [done|].
        by rewrite destroyed_twice.
  - (* the error closure: onError(error); close() *)
    destruct (IH (rewarded_closed p s) (destroyed p)
                 (rewarded_closed_inv _ _ Hinv Hp) eq_refl)
      as (s' & out & Hr & Hi & Hc & Ht & Hpl).
    eexists s', _.
    erewrite bind_step; cycle 1.
    { unfold run_closure. run_prims.
      erewrite bind_step by apply call_if_set_spec.
      rewrite (close_spec_rewarded s p) by done. reflexivity. }
    cbn [prepend completion_of state_of effects_of fst snd]. rewrite Hr. split; [reflexivity|]. split; [done|]. split.
    + cbn [effects_of snd prepend completion_of state_of fst].
      rewrite !calls_of_app, Hc, Ho.
      rewrite !calls_of_callback_other by done.
      by destruct (VideoPlayer.videoElement p).
    + split.
      * rewrite Ht. unfold count_complete. cbn. lia.
      * right. destruct Hpl as [-> | ->]; [done|].
        by rewrite destroyed_twice.
Qed.


Lemma on_player_spec (m : @method closure (VideoPlayer.Player closure) unit) s p :
  player s = Some p ->
  on_player m s = replay (effects_of (m p)) (with_player (state_of (m p)) s).
Proof.
  intros Hp. unfold on_player. erewrite bind_step by reflexivity.
  rewrite prepend_nil, Hp. erewrite bind_step by reflexivity.
  by rewrite prepend_nil.
Qed.

(** A player method run from an event, when it keeps the player's
    options. *)
Lemma on_player_step (m : @method closure (VideoPlayer.Player closure) unit) s p :
  rewarded_inv o s -> player s = Some p ->
  VideoPlayer.options (state_of (m p)) = VideoPlayer.options p ->
  exists s' (out : list (effect cb)),
    on_player m s = (Return tt, s', out)
    /\ rewarded_inv o s'
    /\ calls_of f out = []
    /\ timeouts s' = (timeouts s + count_complete (effects_of (m p)))%nat
    /\ (player s' = Some (state_of (m p))
        \/ player s' = Some (destroyed (state_of (m p)))).
Proof.
  intros Hinv Hp Hopt. rewrite (on_player_spec m s p Hp).
  destruct (replay_spec (effects_of (m p)) (with_player (state_of (m p)) s)
                        (state_of (m p)))
    as (s' & out & Hr & Hi & Hc & Ht & Hpl);
    [by eapply rewarded_inv_with_player | done |].
  by exists s', out.
Qed.

Lemma handle_Loaded response s :
  handle (Loaded response) s = on_player (VideoPlayer.load response) s.
Proof.
  unfold handle. erewrite bind_step by reflexivity. by rewrite prepend_nil.
Qed.

Lemma handle_Video v s :
  handle (Video v) s = on_player (VideoPlayer.handle v) s.
Proof.
  unfold handle. erewrite bind_step by reflexivity. by rewrite prepend_nil.
Qed.

Lemma handle_Timeout s :
  handle Timeout s
  = if bool_decide (timeouts s <> 0%nat)
    then (Return tt,
          mkState (options s) (overlay s) (player s) (overlay_in_body s)
                  (Nat.pred (popups s)) (Nat.pred (timeouts s)),
          callback_effects (onReward (options s)) [reward_object (options s)])
    else (Return tt, s, []).
Proof.
  unfold handle. erewrite bind_step by reflexivity. rewrite prepend_nil.
  destruct (bool_decide _); [|done]. cbn [when]. unfold reward_timeout.
  run_prims. cbn [options]. by rewrite call_if_set_spec.
Qed.

Lemma handle_CallClose_rewarded s : handle CallClose s = close s.
Proof.
  unfold handle. erewrite bind_step by reflexivity. by rewrite prepend_nil.
Qed.

Hypothesis onReward_f : onReward o = Some f.

(** One input: the reward calls it makes and the timeouts it leaves are
    bounded by the timeouts it found, plus one for an ended event; every
    reward call carries the reward object. *)
Lemma handle_bound i s :
  rewarded_inv o s ->
  rewarded_inv o (state_of (handle i s))
  /\ (length (calls_of f (effects_of (handle i s)))
      + timeouts (state_of (handle i s))
      <= timeouts s + count_ended [i])%nat
  /\ Forall (fun args => args = [reward_object o])
            (calls_of f (effects_of (handle i s))).
Proof.
  intros Hinv. pose proof Hinv as (Ho & p & Hp & Hpo).
  destruct (player_options_inv s Ho) as (Hskip & Hrew & Herr & _).
  destruct i as [response | v | |].
  - rewrite handle_Loaded.
    destruct (quiet_load _ Herr response p Hpo) as [Hqo Hqc].
    destruct (on_player_step (VideoPlayer.load response) s p Hinv Hp)
      as (s' & out & -> & Hi & Hc & Ht & _); [congruence|].
    cbn [state_of effects_of fst snd]. rewrite Hc, Ht, Hqc.
    split; [done|]. split; [cbn; lia | constructor].
  - rewrite handle_Video.
    assert (VideoPlayer.options (state_of (VideoPlayer.handle v p))
            = VideoPlayer.options p
            /\ (count_complete (effects_of (VideoPlayer.handle v p))
                <= count_ended [Video v])%nat) as [Hvo Hvc].
    { destruct v;
        try (match goal with
             | |- context [VideoPlayer.handle ?i p] =>
                 destruct (quiet_handle _ Hskip i p ltac:(discriminate) Hpo)
                   as [Hq1 Hq2]
             end;
             rewrite Hq1, Hq2; split; [done | cbn; lia]).
      destruct (ended_bound _ Hrew p Hpo) as [Hq1 Hq2].
      rewrite Hq1. split; [done | exact Hq2]. }
    destruct (on_player_step (VideoPlayer.handle v) s p Hinv Hp Hvo)
      as (s' & out & -> & Hi & Hc & Ht & _).
    cbn [state_of effects_of fst snd]. rewrite Hc, Ht.
    split; [done|]. split; [cbn [length]; lia | constructor].
  - rewrite handle_Timeout.
    destruct (bool_decide _) eqn:Hb; cbn [state_of effects_of fst snd].
    + apply bool_decide_eq_true_1 in Hb. split.
      { split; [exact Ho|]. exists p. split; [exact Hp | exact Hpo]. }
      rewrite Ho, onReward_f. cbn [callback_effects timeouts].
      rewrite calls_of_self. cbn [length].
      split; [lia | by repeat constructor].
    + split; [done|]. split; [cbn; lia | constructor].
  - rewrite handle_CallClose_rewarded, (close_spec_rewarded s p Hp).
    cbn [state_of effects_of fst snd]. split.
    { by apply rewarded_closed_inv. }
    rewrite calls_of_app, Ho, calls_of_callback_other by done.
    assert (calls_of f
              (match VideoPlayer.videoElement p with
               | Some _ => [VideoPause]
               | None => []
               end) = []) as -> by (by destruct (VideoPlayer.videoElement p)).
    split; [cbn; lia | constructor].
Qed.

Lemma count_ended_cons i inputs :
  count_ended (i :: inputs) = (count_ended [i] + count_ended inputs)%nat.
Proof. unfold count_ended. cbn. by destruct i as [|[]| |]. Qed.

Lemma run_bound inputs s :
  rewarded_inv o s ->
  (length (calls_of f (snd (run inputs s))) + timeouts (fst (run inputs s))
   <= timeouts s + count_ended inputs)%nat
  /\ Forall (fun args => args = [reward_object o])
            (calls_of f (snd (run inputs s))).
Proof.
  revert s. induction inputs as [|i inputs IH]; intros s Hinv.
  { cbn. split; [lia | constructor]. }
  destruct (handle_bound i s Hinv) as (Hi & Hb & Hall).
  destruct (IH _ Hi) as [Hb' Hall'].
  cbn [run fst snd]. rewrite calls_of_app, length_app, count_ended_cons.
  split; [lia|]. by apply Forall_app.
Qed.

End RewardedSteps.

Section LoadFailure.
Context {cb : Type}.

Import VideoPlayer.

(** A [load()] that catches an error logs it and invokes [onError] with
    it, without creating the video element. *)
Lemma load_failure_spec (u : UserOptions cb) response err :
  is_Some (truthy_string (given_vastUrl u)) ->
  load_error response = Some err ->
  effects_of (load response (new_player u))
  = ConsoleError "VAST load error:" :: callback_effects (given_onError u) [err]
  /\ videoElement (state_of (load response (new_player u))) = None
  /\ options (state_of (load response (new_player u))) = make_options u.
Proof.
  intros [url Hurl] Herr. unfold load.
  erewrite bind_step by reflexivity. rewrite prepend_nil.
  cbn [options new_player vastUrl make_options]. rewrite Hurl.
  destruct response as [e|doc]; cbn [load_error] in Herr.
  - injection Herr as ->.
    unfold try_catch, throw, bind, emit, call_if_set, callback_effects.
    cbn. by destruct (given_onError u).
  - destruct (truthy_string (mediaFile (parseVast doc))) eqn:Hmf; [done|].
    injection Herr as <-.
    unfold try_catch, throw, bind, emit, call_if_set, callback_effects, modify.
    cbn. by destruct (given_onError u).
Qed.

Lemma count_complete_tracking_pixels vd event :
  count_complete (tracking_pixels vd event) = 0%nat.
Proof. unfold tracking_pixels. by destruct (truthy_string _). Qed.

End LoadFailure.

(* ===================================================================== *)
(** ** One reward for one completion *)
(* ===================================================================== *)

Section RewardedCompletion.
Context {cb : Type} `{EqDecision cb}.
Implicit Types (s : Rewarded.State cb) (p : VideoPlayer.Player Rewarded.closure).

Import Rewarded.

Variable o : Options cb.
Variable f : cb.
Hypothesis onClose_other : onClose o <> Some f.
Hypothesis onError_other : onError o <> Some f.
Hypothesis onReward_f : onReward o = Some f.

Lemma run_app (a b : list input) s :
  run (a ++ b) s
  = (fst (run b (fst (run a s))), snd (run a s) ++ snd (run b (fst (run a s)))).
Proof.
  revert s. induction a as [|i a IH]; intros s.
  - cbn. by destruct (run b s).
  - cbn [app run fst snd]. rewrite IH. cbn [fst snd]. by rewrite app_assoc.
Qed.

(** An input of the player other than the ended event, on a rendered
    player: no reward call, the pending timeouts are kept, and the player
    stays rendered. *)
Lemma handle_before_completion vd v s p :
  rewarded_inv o s -> player s = Some p ->
  rendered_inv (VideoPlayer.options p) vd p ->
  is_ended v = false ->
  rewarded_inv o (state_of (handle (Video v) s))
  /\ calls_of f (effects_of (handle (Video v) s)) = []
  /\ timeouts (state_of (handle (Video v) s)) = timeouts s
  /\ exists p', player (state_of (handle (Video v) s)) = Some p'
                /\ VideoPlayer.options p' = VideoPlayer.options p
                /\ rendered_inv (VideoPlayer.options p) vd p'.
Proof.
  intros Hinv Hp Hr Hv. pose proof Hinv as (Ho & p0 & Hp0 & Hpo).
  assert (p0 = p) as -> by congruence.
  destruct (player_options_inv o s Ho) as (Hskip & Hrew & Herr & _).
  rewrite handle_Video.
  assert (v <> VideoPlayer.Ended) as Hne by (by destruct v).
  destruct (quiet_handle _ Hskip v p Hne Hpo) as [Hq1 Hq2].
  destruct (on_player_step o f onClose_other onError_other
              (VideoPlayer.handle v) s p Hinv Hp)
    as (s' & out & -> & Hi & Hc & Ht & Hpl); [congruence|].
  cbn [state_of effects_of fst snd]. rewrite Hq2, Nat.add_0_r in Ht.
  split; [done|]. split; [done|]. split; [done|].
  pose proof (handle_rendered _ vd p v Hr) as Hr'.
  destruct Hpl as [Hpl | Hpl]; eexists; (split; [exact Hpl|]).
  - split; [congruence | exact Hr'].
  - split; [|by apply rendered_inv_destroyed].
    transitivity (VideoPlayer.options (state_of (VideoPlayer.handle v p)));
      [|congruence].
    unfold destroyed. by destruct (VideoPlayer.videoElement _).
Qed.

Lemma run_before_completion vd mid s p :
  rewarded_inv o s -> player s = Some p ->
  rendered_inv (VideoPlayer.options p) vd p ->
  forallb (fun v => negb (is_ended v)) mid = true ->
  rewarded_inv o (fst (run (map Video mid) s))
  /\ calls_of f (snd (run (map Video mid) s)) = []
  /\ timeouts (fst (run (map Video mid) s)) = timeouts s
  /\ exists p', player (fst (run (map Video mid) s)) = Some p'
                /\ VideoPlayer.options p' = VideoPlayer.options p
                /\ rendered_inv (VideoPlayer.options p) vd p'.
Proof.
  revert s p. induction mid as [|v mid IH]; intros s p Hinv Hp Hr Hall.
  { cbn. split; [done|]. split; [done|]. split; [done|]. by exists p. }
  cbn [forallb] in Hall. apply andb_true_iff in Hall as [Hv Hrest].
  apply negb_true_iff in Hv.
  destruct (handle_before_completion vd v s p Hinv Hp Hr Hv)
    as (Hi & Hc & Ht & p1 & Hp1 & Ho1 & Hr1).
  rewrite <- Ho1 in Hr1.
  destruct (IH _ p1 Hi Hp1 Hr1 Hrest) as (Hi' & Hc' & Ht' & p2 & Hp2 & Ho2 & Hr2).
  cbn [map run fst snd]. rewrite calls_of_app, Hc, Hc'.
  split; [done|]. split; [done|]. split; [congruence|].
  exists p2. split; [done|]. split; [congruence|]. by rewrite <- Ho1.
Qed.

(** The ended event on a rendered player schedules exactly one reward
    and makes no reward call itself. *)
Lemma handle_completion vd s p :
  rewarded_inv o s -> player s = Some p ->
  rendered_inv (VideoPlayer.options p) vd p ->
  rewarded_inv o (state_of (handle (Video VideoPlayer.Ended) s))
  /\ calls_of f (effects_of (handle (Video VideoPlayer.Ended) s)) = []
  /\ timeouts (state_of (handle (Video VideoPlayer.Ended) s)) = S (timeouts s).
Proof.
  intros Hinv Hp (_ & Hvd & [v Hv] & _). pose proof Hinv as (Ho & p0 & Hp0 & Hpo).
  assert (p0 = p) as -> by congruence.
  destruct (player_options_inv o s Ho) as (Hskip & Hrew & Herr & Hcomp).
  assert (VideoPlayer.handle VideoPlayer.Ended p
          = (Return tt, p,
             tracking_pixels vd "complete" ++ [Invoke OnCompleteClosure []]))
    as He.
  { unfold VideoPlayer.handle.
    rewrite (bind_step get _ p p p [] eq_refl).
    rewrite prepend_nil, Hv, bool_decide_eq_true_2 by done. cbn [when].
    rewrite (onComplete_spec _ vd) by done.
    by rewrite Hpo, Hcomp, Hrew. }
  rewrite handle_Video.
  destruct (on_player_step o f onClose_other onError_other
              (VideoPlayer.handle VideoPlayer.Ended) s p Hinv Hp)
    as (s' & out & -> & Hi & Hc & Ht & _); [by rewrite He|].
  rewrite He in Ht. cbn [effects_of snd] in Ht.
  rewrite count_complete_app, count_complete_tracking_pixels in Ht.
  cbn in Ht. cbn [state_of effects_of fst snd].
  split; [done|]. split; [done|]. lia.
Qed.

(** An input that is neither an ended event nor a timeout makes no
    reward call and keeps the pending timeouts. *)
Lemma handle_no_completion i s :
  rewarded_inv o s -> count_ended [i] = 0%nat -> is_timeout i = false ->
  rewarded_inv o (state_of (handle i s))
  /\ calls_of f (effects_of (handle i s)) = []
  /\ timeouts (state_of (handle i s)) = timeouts s.
Proof.
  intros Hinv Hne Hnt. pose proof Hinv as (Ho & p & Hp & Hpo).
  destruct (player_options_inv o s Ho) as (Hskip & Hrew & Herr & _).
  destruct i as [response | v | |]; [| | discriminate Hnt |].
  - rewrite handle_Loaded.
    destruct (quiet_load _ Herr response p Hpo) as [Hqo Hqc].
    destruct (on_player_step o f onClose_other onError_other
                (VideoPlayer.load response) s p Hinv Hp)
      as (s' & out & -> & Hi & Hc & Ht & _); [congruence|].
    cbn [state_of effects_of fst snd]. rewrite Hqc in Ht.
    split; [done|]. split; [done|]. lia.
  - assert (v <> VideoPlayer.Ended) as Hv by (intros ->; discriminate Hne).
    rewrite handle_Video.
    destruct (quiet_handle _ Hskip v p Hv Hpo) as [Hq1 Hq2].
    destruct (on_player_step o f onClose_other onError_other
                (VideoPlayer.handle v) s p Hinv Hp)
      as (s' & out & -> & Hi & Hc & Ht & _); [congruence|].
    cbn [state_of effects_of fst snd]. rewrite Hq2 in Ht.
    split; [done|]. split; [done|]. lia.
  - rewrite handle_CallClose_rewarded, (close_spec_rewarded s p Hp).
    cbn [state_of effects_of fst snd]. split.
    { by apply rewarded_closed_inv. }
    split; [|done].
    rewrite calls_of_app, Ho, calls_of_callback_other by done.
    by destruct (VideoPlayer.videoElement p).
Qed.

(** Without further ended events, each pending timeout that fires makes
    one reward call, and nothing else does. *)
Lemma run_no_ended post s :
  rewarded_inv o s -> count_ended post = 0%nat ->
  calls_of f (snd (run post s))
  = replicate (Nat.min (timeouts s) (length (List.filter is_timeout post)))
              [reward_object o].
Proof.
  revert s. induction post as [|i post IH]; intros s Hinv Hne.
  { cbn. by rewrite Nat.min_0_r. }
  rewrite count_ended_cons in Hne.
  assert (count_ended [i] = 0%nat /\ count_ended post = 0%nat) as [Hi0 Hp0]
    by lia.
  cbn [run snd]. rewrite calls_of_app.
  destruct (is_timeout i) eqn:Hti.
  - destruct i; try discriminate Hti. cbn [List.filter is_timeout length].
    rewrite handle_Timeout. pose proof Hinv as (Ho & p & Hp & Hpo).
    destruct (bool_decide (timeouts s <> 0%nat)) eqn:Hb;
      cbn [state_of effects_of fst snd].
    + apply bool_decide_eq_true_1 in Hb.
      rewrite IH; [|by split; [|exists p] | done].
      rewrite Ho, onReward_f. cbn [callback_effects timeouts].
      rewrite calls_of_self.
      destruct (timeouts s) as [|n]; [done|]. reflexivity.
    + apply bool_decide_eq_false_1 in Hb.
      assert (timeouts s = 0%nat) as Hz by lia.
      rewrite (IH s Hinv Hp0), Hz. reflexivity.
  - destruct (handle_no_completion i s Hinv Hi0 Hti) as (Hi & Hc & Ht).
    rewrite Hc, (IH _ Hi Hp0), Ht. cbn [app].
    assert (List.filter is_timeout (i :: post) = List.filter is_timeout post)
      as -> by (cbn; by rewrite Hti).
    reflexivity.
Qed.

End RewardedCompletion.

Section RewardedClaims.
Context {cb : Type} `{EqDecision cb}.

Import Rewarded.

Variable u : UserOptions cb.
Variable f : cb.
Hypothesis reward_set : given_onReward u = Some f.
Hypothesis close_other : given_onClose u <> Some f.
Hypothesis error_other : given_onError u <> Some f.

Lemma rewarded_shown_inv : rewarded_inv (make_options u) (rewarded_shown u).
Proof. split; [done|]. by eexists. Qed.

Lemma reward_exactly_once doc mid post :
  is_Some (VideoPlayer.truthy_string (given_vastUrl u)) ->
  is_Some (VideoPlayer.truthy_string (mediaFile (parseVast doc))) ->
  forallb (fun v => negb (is_ended v)) mid = true ->
  count_ended post = 0%nat ->
  calls_of f
    (snd (run (Loaded (VideoPlayer.FetchDocument doc)
               :: map Video mid ++ Video VideoPlayer.Ended :: post)
              (rewarded_shown u)))
  = if existsb is_timeout post
    then [[reward_object (make_options u)]]
    else [].
Proof.
  intros Hurl Hmf Hmid Hpost.
  set (pu := player_options (rewarded_shown u)).
  set (po := VideoPlayer.make_options pu).
  set (p0 := VideoPlayer.new_player pu).
  pose proof rewarded_shown_inv as Hinv0.
  assert (player (rewarded_shown u) = Some p0) as Hp0 by reflexivity.
  destruct (player_options_inv (make_options u) (rewarded_shown u) eq_refl)
    as (Hskip & Hrew & Herr & Hcomp).
  fold pu po in Hskip, Hrew, Herr, Hcomp.
  (* the descriptor loads *)
  destruct (quiet_load po Herr (VideoPlayer.FetchDocument doc) p0 eq_refl)
    as [Hlo Hlc].
  destruct (on_player_step (make_options u) f close_other error_other
              (VideoPlayer.load (VideoPlayer.FetchDocument doc))
              (rewarded_shown u) p0 Hinv0 Hp0 Hlo)
    as (s1 & out1 & E1 & Hi1 & Hc1 & Ht1 & Hpl1).
  rewrite Hlc in Ht1. cbn in Ht1.
  assert (exists p1, player s1 = Some p1
                     /\ rendered_inv po (parseVast doc) p1)
    as (p1 & Hp1 & Hr1).
  { pose proof (load_renders pu doc Hurl Hmf) as Hr.
    destruct Hpl1 as [Hpl | Hpl]; eexists; (split; [exact Hpl|]);
      [exact Hr | by apply rendered_inv_destroyed]. }
  assert (VideoPlayer.options p1 = po) as Ho1 by apply Hr1.
  rewrite <- Ho1 in Hr1.
  (* the events before the end *)
  destruct (run_before_completion (make_options u) f close_other error_other
              (parseVast doc) mid s1 p1 Hi1 Hp1 Hr1 Hmid)
    as (Hi2 & Hc2 & Ht2 & p2 & Hp2 & Ho2 & Hr2).
  rewrite <- Ho2 in Hr2.
  set (s2 := fst (run (map Video mid) s1)) in *.
  (* the video ends *)
  destruct (handle_completion (make_options u) f close_other error_other
              (parseVast doc) s2 p2 Hi2 Hp2 Hr2)
    as (Hi3 & Hc3 & Ht3).
  set (s3 := state_of (handle (Video VideoPlayer.Ended) s2)) in *.
  (* what follows *)
  pose proof (run_no_ended (make_options u) f close_other error_other
                reward_set post s3 Hi3 Hpost) as Hc4.
  rewrite Ht3, Ht2, Ht1 in Hc4.
  cbn [run]. rewrite handle_Loaded, E1. cbn [state_of effects_of fst snd].
  rewrite run_app. cbn [run fst snd]. fold s2. fold s3.
  rewrite !calls_of_app, Hc1, Hc2, Hc3, Hc4. cbn [app].
  clear. induction post as [|i post IH]; [done|].
  cbn [existsb List.filter]. by destruct (is_timeout i).
Qed.

Lemma error_closes_without_reward response err :
  is_Some (VideoPlayer.truthy_string (given_vastUrl u)) ->
  load_error response = Some err ->
  snd (run [Loaded response] (rewarded_shown u))
  = ConsoleError "VAST load error:"
    :: callback_effects (given_onError u) [err]
    ++ callback_effects (given_onClose u) []
  /\ overlay (fst (run [Loaded response] (rewarded_shown u))) = false
  /\ overlay_in_body (fst (run [Loaded response] (rewarded_shown u))) = false
  /\ timeouts (fst (run [Loaded response] (rewarded_shown u))) = 0%nat.
Proof.
  intros Hurl Herr.
  set (pu := player_options (rewarded_shown u)).
  destruct (load_failure_spec pu response err Hurl Herr) as (He & Hv & _).
  cbn [run]. rewrite handle_Loaded.
  rewrite (on_player_spec _ _ (VideoPlayer.new_player pu)) by reflexivity.
  fold pu. rewrite He.
  set (p' := state_of (VideoPlayer.load response (VideoPlayer.new_player pu))) in *.
  cbn [callback_effects VideoPlayer.given_onError pu player_options app].
  cbn [replay passthrough].
  erewrite bind_step by reflexivity.
  erewrite bind_step; cycle 1.
  { unfold run_closure. run_prims.
    erewrite bind_step by apply call_if_set_spec.
    rewrite (close_spec_rewarded _ p') by reflexivity. reflexivity. }
  cbn. rewrite Hv. cbn. by rewrite !app_nil_r.
Qed.

(** C3, as the code has it. With a reward callback [f] that is not also
    the close or error callback: (1) the reward is invoked only on natural
    completion: along any inputs of a shown rewarded ad, the reward calls
    made plus the reward timeouts pending never exceed the number of ended
    events, and every reward call passes exactly the object with keys
    [type] and [amount] holding the configured reward; (2) it is invoked
    exactly once for a natural completion: after a descriptor that loads,
    whatever events of the player precede the ended event and whatever
    follows it short of another ended event, the reward callback is called
    exactly once, when the first timeout fires, and not at all before;
    (3) when [load()] catches an error (the fetch rejects or the document
    has no media file) the error callback is invoked once with it, then
    the close callback, the overlay is removed, and no reward is pending or
    invoked. *)
Theorem rewarded_reward_only_on_completion :
  (forall inputs,
      (length (calls_of f (snd (run inputs (rewarded_shown u))))
       + timeouts (fst (run inputs (rewarded_shown u)))
       <= count_ended inputs)%nat
      /\ Forall (fun args =>
                   args = [VObject [("type", PString (rewardType (make_options u)));
                                    ("amount", PNumber (rewardAmount (make_options u)))]])
                (calls_of f (snd (run inputs (rewarded_shown u)))))
  /\ (forall doc mid post,
         is_Some (VideoPlayer.truthy_string (given_vastUrl u)) ->
         is_Some (VideoPlayer.truthy_string (mediaFile (parseVast doc))) ->
         forallb (fun v => negb (is_ended v)) mid = true ->
         count_ended post = 0%nat ->
         calls_of f
           (snd (run (Loaded (VideoPlayer.FetchDocument doc)
                      :: map Video mid ++ Video VideoPlayer.Ended :: post)
                     (rewarded_shown u)))
         = if existsb is_timeout post
           then [[VObject [("type", PString (rewardType (make_options u)));
                           ("amount", PNumber (rewardAmount (make_options u)))]]]
           else [])
  /\ (forall response err,
         is_Some (VideoPlayer.truthy_string (given_vastUrl u)) ->
         load_error response = Some err ->
         snd (run [Loaded response] (rewarded_shown u))
         = ConsoleError "VAST load error:"
           :: callback_effects (given_onError u) [err]
           ++ callback_effects (given_onClose u) []
         /\ overlay (fst (run [Loaded response] (rewarded_shown u))) = false
         /\ overlay_in_body (fst (run [Loaded response] (rewarded_shown u))) = false
         /\ timeouts (fst (run [Loaded response] (rewarded_shown u))) = 0%nat).
Proof.
  split; [|split].
  - intros inputs.
    apply (run_bound (make_options u) f close_other error_other reward_set
                     inputs (rewarded_shown u) rewarded_shown_inv).
  - intros doc mid post Hurl Hmf Hmid Hpost.
    by apply reward_exactly_once.
  - intros response err Hurl Herr. by apply error_closes_without_reward.
Qed.

End RewardedClaims.

Lemma rewarded_reward_only_on_completion_witness :
  Rewarded.calls_of "onReward"
    (snd (Rewarded.run
            [Rewarded.Loaded (VideoPlayer.FetchDocument Samples.skippable_doc);
             Rewarded.Video VideoPlayer.Play;
             Rewarded.Video (VideoPlayer.TimeUpdate (of_Z 30) (of_Z 30));
             Rewarded.Video VideoPlayer.Ended;
             Rewarded.Timeout; Rewarded.CallClose; Rewarded.Timeout]
            Samples.shown_rewarded))
  = [[VObject [("type", PString "coins"); ("amount", PNumber (of_Z 100))]]].
Proof.
  apply (proj1 (proj2 (rewarded_reward_only_on_completion
                         Samples.rewarded_options "onReward"
                         eq_refl ltac:(discriminate) ltac:(discriminate)))
               Samples.skippable_doc
               [VideoPlayer.Play; VideoPlayer.TimeUpdate (of_Z 30) (of_Z 30)]
               [Rewarded.Timeout; Rewarded.CallClose; Rewarded.Timeout]);
    try (by eexists); reflexivity.
Defined.

(** The reward object is keyed [type] and [amount], not [rewardType] and
    [rewardAmount]; and an error of the media element, for which the
    player registers no listener, invokes nothing and leaves the overlay in
    place. *)
Lemma rewarded_reward_counterexample :
  Rewarded.calls_of "onReward"
    (snd (Rewarded.run
            [Rewarded.Loaded (VideoPlayer.FetchDocument Samples.skippable_doc);
             Rewarded.Video VideoPlayer.Ended; Rewarded.Timeout]
            Samples.shown_rewarded))
  <> [[VObject [("rewardType", PString "coins");
                ("rewardAmount", PNumber (of_Z 100))]]]
  /\ snd (Rewarded.run [Rewarded.Video VideoPlayer.MediaError]
                       Samples.loaded_rewarded) = []
  /\ Rewarded.overlay_in_body
       (fst (Rewarded.run [Rewarded.Video VideoPlayer.MediaError]
                          Samples.loaded_rewarded)) = true.
Proof.
  split; [|split].
  - vm_compute. discriminate.
  - vm_compute. reflexivity.
  - vm_compute. reflexivity.
Qed.

(** C2 at its failing input. The player of the rewarded ad is built with
    [skipOffset: null], yet for a descriptor with a skip offset it renders
    the skip control, and once the offset is reached a click on it skips the
    ad: the skip beacon is sent, the player is emptied, and no reward is
    scheduled. *)
Theorem rewarded_player_renders_skip_control :
  (VideoPlayer.skipOffset <$> (VideoPlayer.options
                                 <$> Rewarded.player Samples.loaded_rewarded))
  = Some None
  /\ (VideoPlayer.container <$> Rewarded.player Samples.loaded_rewarded)
     = Some [VideoPlayer.VideoNode; VideoPlayer.SkipButtonNode;
             VideoPlayer.AdLabelNode]
  /\ snd (Rewarded.run
            [Rewarded.Video (VideoPlayer.TimeUpdate (of_Z 6) (of_Z 30));
             Rewarded.Video VideoPlayer.SkipClick]
            Samples.loaded_rewarded)
     = [Pixel "http://t/skip"; VideoPause]
  /\ (VideoPlayer.container
        <$> Rewarded.player
              (fst (Rewarded.run
                      [Rewarded.Video (VideoPlayer.TimeUpdate (of_Z 6) (of_Z 30));
                       Rewarded.Video VideoPlayer.SkipClick]
                      Samples.loaded_rewarded)))
     = Some []
  /\ Rewarded.timeouts
       (fst (Rewarded.run
               [Rewarded.Video (VideoPlayer.TimeUpdate (of_Z 6) (of_Z 30));
                Rewarded.Video VideoPlayer.SkipClick]
               Samples.loaded_rewarded))
     = 0%nat.
Proof. repeat split; vm_compute; reflexivity. Qed.

(* ===================================================================== *)
(** ** Loading and rendering *)
(* ===================================================================== *)

Section Loading.
Context {cb : Type}.
Implicit Types (p : VideoPlayer.Player cb) (vd : VastData).

Import VideoPlayer.

Lemma load_success_spec (u : UserOptions cb) doc :
  is_Some (truthy_string (given_vastUrl u)) ->
  is_Some (truthy_string (mediaFile (parseVast doc))) ->
  load (FetchDocument doc) (new_player u)
  = (Return tt,
     render_result (parseVast doc)
       (set_vastData (Some (parseVast doc)) (new_player u)),
     render_effects (parseVast doc) (make_options u)).
Proof.
  intros [url Hurl] [mf Hmf]. unfold load.
  erewrite bind_step by reflexivity. rewrite prepend_nil.
  cbn [options new_player vastUrl make_options]. rewrite Hurl, Hmf.
  unfold try_catch.
  erewrite bind_step by reflexivity. rewrite prepend_nil.
  by rewrite (render_spec _ (parseVast doc)) by reflexivity.
Qed.

Lemma render_result_container vd p :
  container (render_result vd p) = rendered_children vd.
Proof.
  unfold render_result, rendered_children.
  by destruct (Vast.skipOffset vd).
Qed.


Lemma load_unrendered (u : UserOptions cb) response :
  truthy_string (given_vastUrl u) = None \/ is_Some (load_error response) ->
  unrendered_inv (make_options u) (state_of (load response (new_player u))).
Proof.
  intros Hfail.
  destruct (load_inv u response) as [[doc Hr] | Hun]; [|done].
  exfalso. destruct Hr as (_ & Hvd & [v Hv] & _).
  destruct (truthy_string (given_vastUrl u)) as [url|] eqn:Hurl.
  - destruct Hfail as [|[err Herr]]; [done|].
    destruct (load_failure_spec u response err) as (_ & Hnone & _);
      [eauto | done | congruence].
  - revert Hv. unfold load. erewrite bind_step by reflexivity.
    rewrite prepend_nil. cbn [options new_player vastUrl make_options].
    by rewrite Hurl.
Qed.

(** X2. A load that cannot render reports it and renders nothing.
    Without a VAST URL it only logs an error: [onError] is not invoked.
    When the fetch rejects or the document has no media file, it logs the
    error and invokes [onError] once with it, when configured. In each case
    the container stays empty, there is no video element and no skip
    control, and no beacon is sent. *)
Theorem load_failure_renders_nothing (u : UserOptions cb) response :
  (truthy_string (given_vastUrl u) = None ->
   effects_of (load response (new_player u))
   = [ConsoleError "No VAST URL provided"])
  /\ (forall err,
         is_Some (truthy_string (given_vastUrl u)) ->
         load_error response = Some err ->
         effects_of (load response (new_player u))
         = ConsoleError "VAST load error:"
           :: callback_effects (given_onError u) [err])
  /\ (truthy_string (given_vastUrl u) = None \/ is_Some (load_error response) ->
      container (state_of (load response (new_player u))) = []
      /\ videoElement (state_of (load response (new_player u))) = None
      /\ skipButton (state_of (load response (new_player u))) = None).
Proof.
  split; [|split].
  - intros Hurl. unfold load. erewrite bind_step by reflexivity.
    rewrite prepend_nil. cbn [options new_player vastUrl make_options].
    by rewrite Hurl.
  - intros err Hurl Herr. by apply load_failure_spec.
  - intros Hfail. by destruct (load_unrendered u response Hfail) as (_ & ? & ? & ?).
Qed.

End Loading.


Lemma load_failure_renders_nothing_witness :
  effects_of (VideoPlayer.load (VideoPlayer.FetchDocument Samples.empty_doc)
                (VideoPlayer.new_player Samples.plain_options))
  = [ConsoleError "VAST load error:";
     Invoke "onError" [VError "No media file in VAST response"]].
Proof.
  apply (proj1 (proj2 (load_failure_renders_nothing
                         Samples.plain_options
                         (VideoPlayer.FetchDocument Samples.empty_doc)))).
  - by eexists.
  - reflexivity.
Defined.

(* ===================================================================== *)
(** ** Events on a player that did not render, clicks, [destroy()] *)
(* ===================================================================== *)

Section Events.
Context {cb : Type}.
Implicit Types (p : VideoPlayer.Player cb) (vd : VastData).

Import VideoPlayer.

Lemma handle_event_unrendered o p i :
  unrendered_inv o p -> host_event i = true ->
  handle i p = (Return tt, p, []).
Proof.
  intros (_ & Hv & Hc & Hb) Hi. unfold handle.
  erewrite bind_step by reflexivity. rewrite prepend_nil.
  destruct i; try discriminate Hi; rewrite ?Hv, ?Hc, ?Hb; try done.
Qed.

(** X3. After a load that did not render (no VAST URL, a rejected fetch
    or a document without media file), no sequence of media events and
    clicks has any effect: the state is kept and nothing is sent or
    invoked. *)
Theorem failed_load_ignores_events (u : UserOptions cb) response inputs :
  truthy_string (given_vastUrl u) = None \/ is_Some (load_error response) ->
  forallb host_event inputs = true ->
  run inputs (state_of (load response (new_player u)))
  = (state_of (load response (new_player u)), []).
Proof.
  intros Hfail Hev.
  pose proof (load_unrendered u response Hfail) as Hun.
  revert Hun. generalize (state_of (load response (new_player u))).
  induction inputs as [|i inputs IH]; intros p Hun; [done|].
  cbn [forallb] in Hev. apply andb_true_iff in Hev as [Hi Hrest].
  cbn [run]. rewrite (handle_event_unrendered _ p i Hun Hi).
  cbn [state_of effects_of fst snd]. by rewrite (IH Hrest p Hun).
Qed.

Lemma handle_VideoClick_attached p vd :
  vastData p = Some vd -> VideoNode ∈ container p ->
  handle VideoClick p = (Return tt, p, click_effects vd).
Proof.
  intros Hvd Hin. unfold handle. erewrite bind_step by reflexivity.
  rewrite prepend_nil, bool_decide_eq_true_2 by done. cbn [when].
  by rewrite (onVideoClick_spec _ vd).
Qed.

(** X4. Clicks are not latched. On a freshly rendered player every click
    on the video opens the click-through URL and sends the click tracker
    and the click-tracking beacon again, so [n] clicks do it [n] times and
    leave the state as it was; when the descriptor has no click-through
    URL a click does nothing, whatever click trackers it has. *)
Theorem clicks_repeat (u : UserOptions cb) doc (n : nat) :
  is_Some (truthy_string (given_vastUrl u)) ->
  is_Some (truthy_string (mediaFile (parseVast doc))) ->
  run (replicate n VideoClick)
      (state_of (load (FetchDocument doc) (new_player u)))
  = (state_of (load (FetchDocument doc) (new_player u)),
     concat (replicate n (click_effects (parseVast doc))))
  /\ (truthy_string (clickThrough (parseVast doc)) = None ->
      click_effects (cb := cb) (parseVast doc) = []).
Proof.
  intros Hurl Hmf. split.
  - pose proof (load_renders u doc Hurl Hmf) as (_ & Hvd & _).
    assert (VideoNode ∈ container
              (state_of (load (FetchDocument doc) (new_player u)))) as Hin.
    { rewrite load_success_spec by done. cbn [state_of fst snd].
      rewrite render_result_container. by left. }
    set (p := state_of _) in *.
    induction n as [|n IH]; [done|].
    cbn [replicate run]. rewrite (handle_VideoClick_attached p _ Hvd Hin).
    cbn [state_of effects_of fst snd]. by rewrite IH.
  - intros Hnone. unfold click_effects. by rewrite Hnone.
Qed.



End Events.

Lemma failed_load_ignores_events_witness :
  VideoPlayer.run [VideoPlayer.Play; VideoPlayer.Ended; VideoPlayer.SkipClick]
    (state_of (VideoPlayer.load (VideoPlayer.FetchDocument Samples.empty_doc)
                 (VideoPlayer.new_player Samples.plain_options)))
  = (state_of (VideoPlayer.load (VideoPlayer.FetchDocument Samples.empty_doc)
                 (VideoPlayer.new_player Samples.plain_options)), []).
Proof.
  apply failed_load_ignores_events; [|reflexivity].
  right. by eexists.
Defined.

Lemma clicks_repeat_witness :
  snd (VideoPlayer.run [VideoPlayer.VideoClick; VideoPlayer.VideoClick]
                       Samples.skippable_player)
  = [WindowOpen "http://landing" "_blank"; Pixel "http://t/click";
     WindowOpen "http://landing" "_blank"; Pixel "http://t/click"].
Proof.
  exact (f_equal snd
           (proj1 (clicks_repeat Samples.plain_options Samples.skippable_doc 2
                     (mk_is_Some _ _ eq_refl) (mk_is_Some _ _ eq_refl)))).
Defined.


(* ===================================================================== *)
(** ** Descriptor fields and the beacons they feed *)
(* ===================================================================== *)

Lemma querySelector_first (tag : string) (pre post : list Element) (e : Element) :
  (forall x, x ∈ pre -> tagName x <> tag) -> tagName e = tag ->
  querySelector tag (pre ++ e :: post) = Some e.
Proof.
  intros Hpre He. unfold querySelector, querySelectorAll.
  induction pre as [|x pre IH]; cbn.
  - unfold has_tag. by rewrite bool_decide_eq_true_2.
  - unfold has_tag at 1. rewrite bool_decide_eq_false_2.
    + apply IH. intros y Hy. apply Hpre. by right.
    + apply Hpre. by left.
Qed.

Lemma querySelector_none (tag : string) (doc : list Element) :
  (forall x, x ∈ doc -> tagName x <> tag) -> querySelector tag doc = None.
Proof.
  intros Hdoc. unfold querySelector, querySelectorAll.
  induction doc as [|x doc IH]; [done|]. cbn.
  unfold has_tag at 1. rewrite bool_decide_eq_false_2.
  - apply IH. intros y Hy. apply Hdoc. by right.
  - apply Hdoc. by left.
Qed.

(** X6. [parseVast] reads the media file and the skip offset from the
    first matching element in document order: elements before it with
    another tag and everything after it, further MediaFile or Linear
    elements included, do not matter. A document without MediaFile element
    has no media file. *)
Theorem parseVast_first_match_wins (pre post : list Element) (e : Element) :
  ((forall x, x ∈ pre -> tagName x <> "MediaFile") ->
   tagName e = "MediaFile" ->
   mediaFile (parseVast (pre ++ e :: post)) = Some (trim (textContent e))
   /\ mediaType (parseVast (pre ++ e :: post)) = getAttribute "type" e)
  /\ ((forall x, x ∈ pre -> tagName x <> "Linear") ->
      tagName e = "Linear" ->
      skipOffset (parseVast (pre ++ e :: post))
      = if_truthy (getAttribute "skipoffset" e) parseSkipOffset)
  /\ ((forall x, x ∈ pre -> tagName x <> "MediaFile") ->
      mediaFile (parseVast pre) = None).
Proof.
  split; [|split].
  - intros Hpre He. unfold parseVast. cbn [mediaFile mediaType].
    by rewrite (querySelector_first _ pre post e Hpre He).
  - intros Hpre He. unfold parseVast. cbn [skipOffset].
    by rewrite (querySelector_first _ pre post e Hpre He).
  - intros Hpre. unfold parseVast. cbn [mediaFile].
    by rewrite (querySelector_none _ pre Hpre).
Qed.

Lemma parseVast_first_match_wins_witness :
  mediaFile (parseVast
               ([Samples.element "Linear" [] ""]
                ++ Samples.element "MediaFile" [] " http://m/first.mp4 "
                :: [Samples.element "MediaFile" [] "http://m/second.mp4"]))
  = Some "http://m/first.mp4".
Proof.
  apply (proj1 (parseVast_first_match_wins
                  [Samples.element "Linear" [] ""]
                  [Samples.element "MediaFile" [] "http://m/second.mp4"]
                  (Samples.element "MediaFile" [] " http://m/first.mp4 "))).
  - intros x Hx. apply list_elem_of_singleton in Hx as ->. discriminate.
  - reflexivity.
Defined.

Lemma parseInt_integer_or_NaN (s : string) :
  parseInt s = NaN \/ exists z, parseInt s = of_Z z.
Proof.
  unfold parseInt.
  destruct (match trim_start s with
            | String "-" r => (true, r)
            | String "+" r => (false, r)
            | _ => (false, trim_start s)
            end) as [negative s2].
  destruct (match s2 with
            | String "0" (String "x" r) => (16, r)
            | String "0" (String "X" r) => (16, r)
            | _ => (10, s2)
            end) as [radix s3].
  destruct (read_digits radix None s3); eauto.
Qed.

(** X7. For a [skipoffset] string of at most 15 characters, where every
    number read is below 2^53 and the arithmetic of the code is exact, the
    skip offset [parseSkipOffset] returns is NaN or an integer, never a
    fraction; and for a string that is not of the three-part form it is an
    integer other than zero, so a usable offset: what [parseInt] cannot
    read, or reads as zero, becomes 5. *)
Theorem parseSkipOffset_range (s : string) :
  (String.length s <= 15)%nat ->
  (parseSkipOffset s = NaN \/ exists z, parseSkipOffset s = of_Z z)
  /\ (colons s <> 2%nat ->
      exists z, z <> 0 /\ parseSkipOffset s = of_Z z).
Proof.
  intros _.
  assert (colons s <> 2%nat ->
          exists z, z <> 0 /\ parseSkipOffset s = of_Z z) as Hbare.
  { intros Hc. unfold parseSkipOffset.
    pose proof (split_length s) as Hl.
    assert (exists z, z <> 0 /\ or_default (parseInt s) (of_Z 5) = of_Z z) as Hd.
    { unfold or_default.
      destruct (parseInt_integer_or_NaN s) as [-> | [z ->]].
      - exists 5. by split.
      - rewrite truthy_of_Z. destruct (z =? 0) eqn:E; cbn.
        + exists 5. by split.
        + exists z. split; [by apply Z.eqb_neq | done]. }
    destruct (split ":" s) as [|a [|b [|c [|d l]]]]; cbn [length] in Hl;
      try exact Hd.
    exfalso. apply Hc. lia. }
  split; [|exact Hbare].
  destruct (decide (colons s = 2%nat)) as [Hc|Hc].
  - unfold parseSkipOffset. pose proof (split_length s) as Hl.
    destruct (split ":" s) as [|a [|b [|c [|d l]]]]; cbn [length] in Hl;
      try lia.
    destruct (parseInt_integer_or_NaN a) as [-> | [x ->]]; [by left|].
    destruct (parseInt_integer_or_NaN b) as [-> | [y ->]]; [by left|].
    destruct (parseInt_integer_or_NaN c) as [-> | [z ->]]; [by left|].
    right. eexists. by rewrite !mul_of_Z, !add_of_Z.
  - right. destruct (Hbare Hc) as (z & _ & Hz). eauto.
Qed.

Lemma parseSkipOffset_range_witness :
  exists z, z <> 0 /\ parseSkipOffset "0" = of_Z z.
Proof.
  apply (proj2 (parseSkipOffset_range "0" ltac:(vm_compute; lia))).
  vm_compute. lia.
Defined.

Section Beacons.
Context {cb : Type}.
Implicit Types (p : VideoPlayer.Player cb) (vd : VastData).

Import VideoPlayer.

Lemma tracking_pixels_last (doc : Document) (k : EventKind) :
  tracking_pixels (cb := cb) (parseVast doc) (event_name k)
  = last_tracker_pixel (event_name k) doc.
Proof.
  unfold tracking_pixels, last_tracker_pixel, last_tracker, parseVast.
  cbn [trackingEvents].
  rewrite collect_tracking_lookup by apply event_name_own.
  rewrite filter_filter_tracking.
  destruct (last _) as [e|]; [|done]. cbn.
  by destruct (nonempty _).
Qed.

(** X8. Each beacon goes to the last tracker of its kind in the
    document. For a player whose descriptor was parsed from [doc] and for
    every kind but click, [fireTracking] sends exactly the beacon of the
    last tracker of that kind, or nothing when there is none or its text is
    empty; so on a loaded player the ended event sends the last complete
    tracker, then runs the configured callbacks. *)
Theorem beacons_go_to_last_tracker (u : UserOptions cb) (doc : Document) :
  (forall p k,
      vastData p = Some (parseVast doc) -> k <> EvClick ->
      fireTracking (event_name k) p
      = (Return tt, p, last_tracker_pixel (event_name k) doc))
  /\ (is_Some (truthy_string (given_vastUrl u)) ->
      is_Some (truthy_string (mediaFile (parseVast doc))) ->
      effects_of (handle Ended
                    (state_of (load (FetchDocument doc) (new_player u))))
      = last_tracker_pixel "complete" doc
        ++ callback_effects (given_onComplete u) []
        ++ callback_effects (given_onReward u) []).
Proof.
  split.
  - intros p k Hvd Hk. rewrite (fireTracking_spec _ _ _ Hvd).
    rewrite click_pixels_other by (by destruct k).
    by rewrite app_nil_r, tracking_pixels_last.
  - intros Hurl Hmf.
    pose proof (load_renders u doc Hurl Hmf) as (Ho & Hvd & [v Hv] & _).
    set (p := state_of _) in *.
    unfold handle. erewrite bind_step by reflexivity.
    rewrite prepend_nil, Hv, bool_decide_eq_true_2 by done. cbn [when].
    rewrite (onComplete_spec _ (parseVast doc)) by done.
    rewrite Ho. cbn [effects_of snd onComplete onReward make_options].
    pose proof (tracking_pixels_last doc EvComplete) as Hlast.
    cbn [event_name] in Hlast. by rewrite Hlast.
Qed.

End Beacons.

Lemma beacons_go_to_last_tracker_witness :
  effects_of (VideoPlayer.handle VideoPlayer.Ended Samples.skippable_player)
  = [Pixel "B"; Invoke "onComplete" []; Invoke "onReward" []].
Proof.
  apply (proj2 (beacons_go_to_last_tracker
                  Samples.plain_options Samples.skippable_doc));
    by eexists.
Defined.

(* ===================================================================== *)
(** ** Progress events: the latch and the skip countdown *)
(* ===================================================================== *)

Section Progress.
Context {cb : Type}.
Implicit Types (p q : VideoPlayer.Player cb) (vd : VastData)
         (o : VideoPlayer.Options cb).

Import VideoPlayer.













Lemma quartile_skipButton p vd percent threshold event :
  vastData p = Some vd -> event <> "click" ->
  exists es, quartile percent threshold event p
             = (Return tt, state_of (quartile percent threshold event p), es)
             /\ vastData (state_of (quartile percent threshold event p)) = Some vd
             /\ skipButton (state_of (quartile percent threshold event p))
                = skipButton p.
Proof.
  intros Hvd Hev. rewrite (quartile_spec _ vd) by done.
  destruct (_ && _); eexists; repeat split; done.
Qed.

Lemma onTimeUpdate_skipButton p vd v t d :
  vastData p = Some vd -> videoElement p = Some v ->
  skipButton (state_of (onTimeUpdate t d p))
  = skipButton (time_recorded p vd t).
Proof.
  intros Hvd Hv. rewrite (onTimeUpdate_spec _ vd v) by done.
  assert (vastData (time_recorded p vd t) = Some vd) as H0.
  { unfold time_recorded. by destruct (skipButton p). }
  destruct (quartile_skipButton _ vd (percent_of t d) 25 "firstQuartile" H0
              ltac:(done)) as (e1 & E1 & H1 & B1).
  erewrite bind_step by exact E1.
  destruct (quartile_skipButton _ vd (percent_of t d) 50 "midpoint" H1
              ltac:(done)) as (e2 & E2 & H2 & B2).
  erewrite bind_step by exact E2.
  destruct (quartile_skipButton _ vd (percent_of t d) 75 "thirdQuartile" H2
              ltac:(done)) as (e3 & E3 & H3 & B3).
  rewrite !state_prepend. congruence.
Qed.

Lemma ceil_sub_finite (off t : Q) :
  ceil (sub (Fin off) (Fin t)) = of_Z (Qceiling (off - t)).
Proof.
  unfold sub, neg, add, ceil. apply (f_equal of_Z).
  apply Qceiling_comp. by rewrite !Qred_correct.
Qed.

Lemma skip_button_after_update o vd p (off t : Q) (d : num) :
  rendered_inv o vd p ->
  SkipButtonNode ∈ container p ->
  Vast.skipOffset vd = Some (Fin off) ->
  skipButton (state_of (handle (TimeUpdate (Fin t) d) p))
  = Some (if Qle_bool off t
          then mkSkipButton SkipAd false "1"
          else mkSkipButton (SkipIn (of_Z (Qceiling (off - t)))) true "0.5")
  /\ (Qle_bool off t = false -> 1 <= Qceiling (off - t)).
Proof.
  intros Hinv Hin Hoff. pose proof Hinv as (_ & Hvd & [v Hv] & Hb).
  destruct (Hb Hin) as (_ & b & Hsb & _).
  assert (Qle_bool off t = false -> 1 <= Qceiling (off - t)) as Hpos.
  { intros Hle.
    assert (~ (Qceiling (off - t) <= 0)); [|lia].
    rewrite Qceiling_nonpos. intros H. apply Qle_minus_iff in H.
    assert (off <= t)%Q as H'.
    { apply Qle_minus_iff. eapply Qle_trans; [exact H|].
      apply Qle_lteq. right. ring. }
    apply Qle_bool_iff in H'. congruence. }
  split; [|exact Hpos].
  unfold handle. erewrite bind_step by reflexivity.
  rewrite prepend_nil, Hv, bool_decide_eq_true_2 by done. cbn [when].
  rewrite (onTimeUpdate_skipButton p vd v) by done.
  unfold time_recorded. rewrite Hsb. cbn [skipButton set_skipButton].
  unfold updated_button. rewrite Hoff. cbn [to_number default from_option id].
  destruct (Qle_bool off t) eqn:Hle.
  - apply Qle_bool_iff in Hle. apply remaining_not_positive in Hle.
    by rewrite Hle.
  - destruct (gtb _ _) eqn:Hg.
    + by rewrite ceil_sub_finite.
    + apply remaining_not_positive, Qle_bool_iff in Hg. congruence.
Qed.

(** X10. The skip control counts down in whole seconds. On a player
    that rendered a descriptor whose [skipoffset] attribute has at most 15
    characters (so that the offset is read exactly) and gives a finite
    offset, after any earlier inputs that left the skip control in the
    container, a timeupdate at a finite position whose distance to the
    offset is a double (so that the subtraction of the program is exact),
    whatever the duration, leaves the control disabled with the label
    "Skip in Ns", N the seconds to the offset rounded up and at least one,
    while the position is before the offset, and enabled with the label
    "Skip Ad" from the offset on. *)
Theorem skip_control_counts_down
        (u : UserOptions cb) doc (earlier : list input) (off t : Q) (d : num) :
  is_Some (truthy_string (given_vastUrl u)) ->
  is_Some (truthy_string (mediaFile (parseVast doc))) ->
  (exists a, skip_attribute doc = Some a /\ (String.length a <= 15)%nat) ->
  Vast.skipOffset (parseVast doc) = Some (Fin off) ->
  is_double (off - t) ->
  SkipButtonNode
    ∈ container (fst (run earlier
                          (state_of (load (FetchDocument doc) (new_player u))))) ->
  skipButton
    (state_of (handle (TimeUpdate (Fin t) d)
                 (fst (run earlier
                           (state_of (load (FetchDocument doc) (new_player u)))))))
  = Some (if Qle_bool off t
          then mkSkipButton SkipAd false "1"
          else mkSkipButton (SkipIn (of_Z (Qceiling (off - t)))) true "0.5")
  /\ (Qle_bool off t = false -> 1 <= Qceiling (off - t)).
Proof.
  intros Hurl Hmf _ Hoff _ Hin.
  pose proof (run_rendered _ _ earlier _ (load_renders u doc Hurl Hmf)) as Hinv.
  by apply (skip_button_after_update _ _ _ off t d Hinv Hin Hoff).
Qed.

End Progress.


(** Offset 5: at 3 s the control shows "Skip in 2s". *)
Lemma skip_control_counts_down_witness :
  VideoPlayer.skipButton
    (state_of (VideoPlayer.handle
                 (VideoPlayer.TimeUpdate (Fin 3) (of_Z 30))
                 Samples.skippable_player))
  = Some (VideoPlayer.mkSkipButton (VideoPlayer.SkipIn (of_Z 2)) true "0.5").
Proof.
  refine (proj1 (skip_control_counts_down
                   Samples.plain_options Samples.skippable_doc [] 5 3 (of_Z 30)
                   (mk_is_Some _ _ eq_refl) (mk_is_Some _ _ eq_refl)
                   _ eq_refl _ _)).
  - exists "00:00:05". split; [reflexivity | vm_compute; lia].
  - exists 0%nat, 2. split; [lia|]. split; [reflexivity|]. reflexivity.
  - vm_compute. by right; left.
Defined.

(* ===================================================================== *)
(** ** The countdown of the interstitial *)
(* ===================================================================== *)

Section Countdown.
Context {cb : Type}.
Implicit Types (o : Interstitial.Options cb) (s : Interstitial.State cb).

Import Interstitial.











End Countdown.


(* ===================================================================== *)
(** ** The outstream placement *)
(* ===================================================================== *)

Section OutstreamProps.
Context {cb : Type}.
Implicit Types (s : Outstream.State) (es : list (effect Outstream.closure)).

Import Outstream.

Lemma collapse_twice st : collapse (collapse st) = collapse st.
Proof. reflexivity. Qed.

Lemma collapsed_by_hasPlayed es s : hasPlayed (collapsed_by es s) = hasPlayed s.
Proof. unfold collapsed_by. by destruct (existsb _ _). Qed.

Lemma replay_spec_outstream es s :
  replay (cb := cb) es s = (Return tt, collapsed_by es s, omap passthrough es).
Proof.
  revert s. induction es as [|e es IH]; intros s; [done|].
  destruct e as [url|url target| | |msg|g args];
    try (cbn [replay passthrough]; erewrite bind_step by reflexivity;
         rewrite IH; reflexivity).
  destruct g. cbn [replay]. erewrite bind_step by reflexivity.
  rewrite prepend_nil, IH. unfold collapsed_by. cbn [existsb is_invoke orb].
  by destruct (existsb _ _), s.
Qed.

Lemma handle_video_spec s p v :
  player s = Some p ->
  handle (cb := cb) (Video v) s
  = (Return tt,
     collapsed_by (effects_of (VideoPlayer.handle v p))
       (set_player (state_of (VideoPlayer.handle v p)) s),
     omap passthrough (effects_of (VideoPlayer.handle v p))).
Proof.
  intros Hp. unfold handle. erewrite bind_step by reflexivity.
  rewrite prepend_nil. unfold on_player.
  erewrite bind_step by reflexivity. rewrite prepend_nil, Hp.
  erewrite bind_step by reflexivity.
  by rewrite prepend_nil, replay_spec_outstream.
Qed.

Lemma settle_spec s p response :
  player s = Some p ->
  settle (cb := cb) response s
  = (Return tt,
     collapsed_by (effects_of (VideoPlayer.load response p))
       ((if bool_decide (VideoPlayer.videoElement
                           (state_of (VideoPlayer.load response p)) <> None)
         then fun s' => set_style (render_style (VideoPlayer.options p)
                                                (style s')) s'
         else fun s' => s')
          (set_player (state_of (VideoPlayer.load response p))
             (set_pending false s))),
     omap passthrough (effects_of (VideoPlayer.load response p))).
Proof.
  intros Hp. unfold settle. run_prims.
  cbn [player set_pending]. rewrite Hp. run_prims.
  destruct (bool_decide _); cbn [when]; run_prims;
    by rewrite replay_spec_outstream.
Qed.

(** Every input keeps [hasPlayed] once it is set. *)
Lemma handle_hasPlayed i s :
  hasPlayed s = true -> hasPlayed (state_of (handle (cb := cb) i s)) = true.
Proof.
  intros H. destruct i as [entries|response|v].
  - unfold handle. erewrite bind_step by reflexivity. rewrite prepend_nil.
    destruct (observer s); cbn [when]; [|done].
    revert s H. induction entries as [|e entries IH]; intros s H; [done|].
    cbn [intersection_callback]. unfold on_entry at 1.
    erewrite bind_step by (erewrite bind_step by reflexivity;
                           rewrite prepend_nil, H, andb_false_r; reflexivity).
    rewrite prepend_nil. by apply IH.
  - unfold handle. erewrite bind_step by reflexivity. rewrite prepend_nil.
    destruct (pending s); cbn [when]; [|done].
    destruct (player s) as [p|] eqn:Hp.
    + rewrite (settle_spec s p response Hp). cbn [state_of fst snd].
      rewrite collapsed_by_hasPlayed. by destruct (bool_decide _).
    + unfold settle. run_prims. cbn [player set_pending]. by rewrite Hp.
  - destruct (player s) as [p|] eqn:Hp.
    + rewrite (handle_video_spec s p v Hp). cbn [state_of fst snd].
      by rewrite collapsed_by_hasPlayed.
    + unfold handle. erewrite bind_step by reflexivity. rewrite prepend_nil.
      unfold on_player. erewrite bind_step by reflexivity.
      by rewrite prepend_nil, Hp.
Qed.

Lemma callback_played entries s :
  hasPlayed s = true ->
  intersection_callback (cb := cb) entries s = (Return tt, s, []).
Proof.
  intros H. induction entries as [|e entries IH]; [done|].
  cbn [intersection_callback]. unfold on_entry at 1.
  erewrite bind_step by (erewrite bind_step by reflexivity;
                         rewrite prepend_nil, H, andb_false_r; reflexivity).
  by rewrite prepend_nil.
Qed.

Lemma callback_not_intersecting entries s :
  existsb id entries = false ->
  intersection_callback (cb := cb) entries s = (Return tt, s, []).
Proof.
  induction entries as [|e entries IH]; [done|].
  cbn [existsb]. intros [He Hrest]%orb_false_iff. unfold id in He. subst e.
  cbn [intersection_callback]. unfold on_entry at 1.
  erewrite bind_step by (erewrite bind_step by reflexivity;
                         rewrite prepend_nil; reflexivity).
  rewrite prepend_nil. by apply IH.
Qed.

Lemma callback_first entries s :
  hasPlayed s = false -> existsb id entries = true ->
  intersection_callback (cb := cb) entries s
  = (Return tt, set_hasPlayed true (state_of (load (cb := cb) s)),
     effects_of (load (cb := cb) s)).
Proof.
  intros H. induction entries as [|e entries IH]; [done|].
  cbn [existsb]. destruct e; cbn [id orb].
  - intros _. cbn [intersection_callback]. unfold on_entry at 1.
    assert (completion_of (load (cb := cb) s) = Return tt) as Hc.
    { unfold load. run_prims. cbn [options set_player].
      destruct (VideoPlayer.truthy_string _); [by run_prims|].
      unfold on_player. run_prims. cbn [player set_player]. run_prims.
      by rewrite replay_spec_outstream. }
    destruct (load (cb := cb) s) as [[c s1] out] eqn:E.
    cbn [completion_of fst] in Hc. subst c.
    erewrite bind_step.
    2:{ erewrite bind_step by reflexivity. rewrite prepend_nil, H.
        cbn [negb andb when]. erewrite bind_step by exact E.
        reflexivity. }
    cbn [prepend completion_of state_of effects_of fst snd modify].
    rewrite callback_played by done.
    unfold prepend. cbn [completion_of state_of effects_of fst snd].
    by rewrite !app_nil_r.
  - intros Hrest. cbn [intersection_callback]. unfold on_entry at 1.
    erewrite bind_step by (erewrite bind_step by reflexivity;
                           rewrite prepend_nil; reflexivity).
    rewrite prepend_nil. by apply IH.
Qed.

(** X13. The outstream placement loads at most once. The first observer
    callback that reports an intersecting entry calls [load()] exactly
    once, however many of its entries intersect, and sets [hasPlayed];
    once [hasPlayed] is set no input clears it, so after any further
    inputs an observer callback changes nothing and has no effect. *)
Theorem outstream_loads_once s entries inputs more :
  observer s = true -> hasPlayed s = false -> existsb id entries = true ->
  handle (cb := cb) (Observe entries) s
  = (Return tt, set_hasPlayed true (state_of (load (cb := cb) s)),
     effects_of (load (cb := cb) s))
  /\ run (cb := cb) (inputs ++ [Observe more])
         (set_hasPlayed true (state_of (load (cb := cb) s)))
     = run (cb := cb) inputs
           (set_hasPlayed true (state_of (load (cb := cb) s))).
Proof.
  intros Hobs Hplayed Hent. split.
  - unfold handle. erewrite bind_step by reflexivity.
    rewrite prepend_nil, Hobs. cbn [when]. by apply callback_first.
  - assert (hasPlayed (set_hasPlayed true (state_of (load (cb := cb) s)))
            = true) as H by done.
    revert H. generalize (set_hasPlayed true (state_of (load (cb := cb) s))).
    induction inputs as [|i inputs IH]; intros s0 H.
    + cbn [app run]. unfold handle. erewrite bind_step by reflexivity.
      rewrite prepend_nil.
      destruct (observer s0); cbn [when]; [|done].
      by rewrite callback_played.
    + cbn [app run]. by rewrite (IH _ (handle_hasPlayed i s0 H)).
Qed.

Lemma handle_outstream_ready (u : UserOptions) w i :
  intersecting i = false ->
  handle (cb := cb) i (outstream_ready (cb := cb) u w)
  = (Return tt, outstream_ready (cb := cb) u w, []).
Proof.
  intros Hi. destruct i as [entries|response|v]; cbn [intersecting] in Hi.
  - unfold handle. erewrite bind_step by reflexivity. rewrite prepend_nil.
    cbn [observer outstream_ready init modify state_of fst snd new_outstream
         when].
    by apply callback_not_intersecting.
  - reflexivity.
  - reflexivity.
Qed.

(** X14. The outstream placement waits for visibility. After [init()],
    as long as no observer callback reports an intersecting entry, nothing
    happens: no player is created, nothing is fetched, logged or sent, and
    the container's style is untouched. *)
Theorem outstream_waits_for_visibility (u : UserOptions) w inputs :
  forallb (fun i => negb (intersecting i)) inputs = true ->
  run (cb := cb) inputs (outstream_ready (cb := cb) u w)
  = (outstream_ready (cb := cb) u w, []).
Proof.
  induction inputs as [|i inputs IH]; [done|].
  cbn [forallb]. intros [Hi Hrest]%andb_true_iff.
  apply negb_true_iff in Hi.
  cbn [run]. rewrite (handle_outstream_ready u w i Hi).
  cbn [state_of effects_of fst snd app]. by rewrite (IH Hrest).
Qed.

End OutstreamProps.

Section OutstreamCompletion.
Context {cb : Type}.
Implicit Types (s : Outstream.State).

Import Outstream.

Lemma passthrough_tracking_pixels vd event :
  omap (passthrough (cb := cb)) (tracking_pixels vd event)
  = tracking_pixels vd event.
Proof.
  unfold tracking_pixels. by destruct (VideoPlayer.truthy_string _).
Qed.

Lemma existsb_invoke_tracking_pixels vd event :
  existsb is_invoke (tracking_pixels (cb := closure) vd event) = false.
Proof.
  unfold tracking_pixels. by destruct (VideoPlayer.truthy_string _).
Qed.

Lemma load_with_url s url :
  VideoPlayer.truthy_string (vastUrl (options s)) = Some url ->
  set_hasPlayed true (state_of (load (cb := cb) s)) = outstream_loading s
  /\ effects_of (load (cb := cb) s) = [].
Proof.
  intros Hurl. unfold load. run_prims. cbn [options set_player].
  by rewrite Hurl.
Qed.

Lemma run_app_outstream (a b : list input) s :
  run (cb := cb) (a ++ b) s
  = (fst (run (cb := cb) b (fst (run (cb := cb) a s))),
     snd (run (cb := cb) a s) ++ snd (run (cb := cb) b (fst (run (cb := cb) a s)))).
Proof.
  revert s. induction a as [|i a IH]; intros s.
  - cbn. by destruct (run b s).
  - cbn [app run fst snd]. rewrite IH. cbn [fst snd]. by rewrite app_assoc.
Qed.

(** The ended event on a rendered player of the placement: the complete
    beacon, then the completion closure; the player is left as it is. *)
Lemma ended_outstream_player vd (p : VideoPlayer.Player closure) uo :
  rendered_inv (VideoPlayer.make_options uo) vd p ->
  VideoPlayer.given_onComplete uo = Some CollapseClosure ->
  VideoPlayer.given_onReward uo = None ->
  VideoPlayer.handle VideoPlayer.Ended p
  = (Return tt, p,
     tracking_pixels vd "complete" ++ [Invoke CollapseClosure []]).
Proof.
  intros (Ho & Hvd & [v Hv] & _) Hc Hr.
  unfold VideoPlayer.handle. erewrite bind_step by reflexivity.
  rewrite prepend_nil, Hv, bool_decide_eq_true_2 by done. cbn [when].
  rewrite (onComplete_spec _ vd) by done.
  rewrite Ho. cbn [VideoPlayer.onComplete VideoPlayer.onReward
                   VideoPlayer.make_options].
  by rewrite Hc, Hr.
Qed.

Lemma handle_ended_outstream vd s (p : VideoPlayer.Player closure) uo :
  player s = Some p ->
  rendered_inv (VideoPlayer.make_options uo) vd p ->
  VideoPlayer.given_onComplete uo = Some CollapseClosure ->
  VideoPlayer.given_onReward uo = None ->
  handle (cb := cb) (Video VideoPlayer.Ended) s
  = (Return tt, set_style (collapse (style s)) s,
     tracking_pixels vd "complete").
Proof.
  intros Hp Hr Hc Hrew.
  rewrite (handle_video_spec s p) by done.
  rewrite (ended_outstream_player vd p uo Hr Hc Hrew).
  cbn [state_of effects_of fst snd]. unfold collapsed_by.
  rewrite existsb_app, existsb_invoke_tracking_pixels.
  cbn [existsb is_invoke orb].
  rewrite omap_app, passthrough_tracking_pixels. cbn [omap passthrough].
  rewrite app_nil_r. destruct s. cbn in Hp. by rewrite Hp.
Qed.

(** Along the events of its player, the placement keeps a rendered
    player, and a style that collapses to the same style. *)
Lemma run_video_outstream vd uo st mid s (p : VideoPlayer.Player closure) :
  player s = Some p ->
  rendered_inv (VideoPlayer.make_options uo) vd p ->
  collapse (style s) = st ->
  (exists p', player (fst (run (cb := cb) (map Video mid) s)) = Some p'
              /\ rendered_inv (VideoPlayer.make_options uo) vd p')
  /\ collapse (style (fst (run (cb := cb) (map Video mid) s))) = st.
Proof.
  revert s p. induction mid as [|v mid IH]; intros s p Hp Hr Hst.
  { cbn. split; [by exists p | done]. }
  cbn [map run fst snd].
  rewrite (handle_video_spec s p v Hp). cbn [state_of fst snd].
  apply (IH _ (state_of (VideoPlayer.handle v p))).
  - unfold collapsed_by. by destruct (existsb _ _).
  - by apply handle_rendered.
  - unfold collapsed_by. destruct (existsb _ _); cbn [style set_style set_player];
      by rewrite ?collapse_twice.
Qed.

(** X15. The outstream placement plays muted at the container's width
    and collapses on completion. With a VAST URL, once an intersecting
    entry is observed and the fetched document has a media file, the
    container gets the layout width (640 when that is 0) and height 360
    with position relative and a black background, the player is rendered
    muted, the impression beacon is sent and playback starts. After any
    events of the player, the ended event sends the complete beacon and
    leaves the player as it is, and the completion closure sets the
    container's height to "0", its overflow to hidden and its transition,
    keeping the position, width and background [render()] wrote. *)
Theorem outstream_collapses_on_completion
        (u : UserOptions) w entries doc (mid : list VideoPlayer.input) :
  is_Some (VideoPlayer.truthy_string (given_vastUrl u)) ->
  existsb id entries = true ->
  is_Some (VideoPlayer.truthy_string (mediaFile (parseVast doc))) ->
  (style (fst (run (cb := cb)
                 [Observe entries; Loaded (VideoPlayer.FetchDocument doc)]
                 (outstream_ready (cb := cb) u w)))
   = rendered_style w
   /\ snd (run (cb := cb)
             [Observe entries; Loaded (VideoPlayer.FetchDocument doc)]
             (outstream_ready (cb := cb) u w))
      = match VideoPlayer.truthy_string (impressionUrl (parseVast doc)) with
        | Some url => [Pixel url]
        | None => []
        end ++ [VideoPlay]
   /\ (fun p => (VideoPlayer.container p,
                 VideoPlayer.video_muted <$> VideoPlayer.videoElement p))
      <$> player (fst (run (cb := cb)
                         [Observe entries;
                          Loaded (VideoPlayer.FetchDocument doc)]
                         (outstream_ready (cb := cb) u w)))
      = Some (rendered_children (parseVast doc), Some true))
  /\ (style (fst (run (cb := cb)
                    ([Observe entries; Loaded (VideoPlayer.FetchDocument doc)]
                     ++ map Video mid ++ [Video VideoPlayer.Ended])
                    (outstream_ready (cb := cb) u w)))
      = collapsed_style w
      /\ effects_of
           (handle (cb := cb) (Video VideoPlayer.Ended)
              (fst (run (cb := cb)
                      ([Observe entries;
                        Loaded (VideoPlayer.FetchDocument doc)]
                       ++ map Video mid)
                      (outstream_ready (cb := cb) u w))))
         = tracking_pixels (parseVast doc) "complete"
      /\ player
           (state_of
              (handle (cb := cb) (Video VideoPlayer.Ended)
                 (fst (run (cb := cb)
                         ([Observe entries;
                           Loaded (VideoPlayer.FetchDocument doc)]
                          ++ map Video mid)
                         (outstream_ready (cb := cb) u w)))))
         = player (fst (run (cb := cb)
                          ([Observe entries;
                            Loaded (VideoPlayer.FetchDocument doc)]
                           ++ map Video mid)
                          (outstream_ready (cb := cb) u w)))).
Proof.
  intros [url Hurl] Hent Hmf.
  set (s0 := outstream_ready (cb := cb) u w).
  set (vd := parseVast doc).
  set (uo := player_options s0).
  (* the observer callback *)
  assert (handle (cb := cb) (Observe entries) s0
          = (Return tt, outstream_loading s0, [])) as H1.
  { unfold handle. erewrite bind_step by reflexivity. rewrite prepend_nil.
    change (observer s0) with true. cbn [when].
    rewrite callback_first by done.
    destruct (load_with_url s0 url Hurl) as [-> ->]. reflexivity. }
  set (s1 := outstream_loading s0) in *.
  (* the fetch settles *)
  assert (VideoPlayer.load (VideoPlayer.FetchDocument doc)
            (VideoPlayer.new_player uo)
          = (Return tt,
             render_result vd
               (VideoPlayer.set_vastData (Some vd) (VideoPlayer.new_player uo)),
             render_effects vd (VideoPlayer.make_options uo))) as Hload.
  { apply load_success_spec; [|done]. exists url. exact Hurl. }
  assert (rendered_inv (VideoPlayer.make_options uo) vd
            (render_result vd
               (VideoPlayer.set_vastData (Some vd)
                  (VideoPlayer.new_player uo)))) as Hr2.
  { pose proof (load_renders uo doc (mk_is_Some _ _ Hurl) Hmf) as Hr.
    by rewrite Hload in Hr. }
  set (p2 := render_result vd
               (VideoPlayer.set_vastData (Some vd)
                  (VideoPlayer.new_player uo))) in *.
  assert (is_Some (VideoPlayer.videoElement p2)) as [v Hv] by apply Hr2.
  assert (existsb is_invoke
            (render_effects vd (VideoPlayer.make_options uo)) = false) as Hni.
  { unfold render_effects.
    by destruct (VideoPlayer.truthy_string (impressionUrl vd)). }
  set (s2 := set_style (render_style (VideoPlayer.make_options uo) (style s1))
               (set_player p2 (set_pending false s1))).
  assert (handle (cb := cb) (Loaded (VideoPlayer.FetchDocument doc)) s1
          = (Return tt, s2,
             omap passthrough
               (render_effects vd (VideoPlayer.make_options uo)))) as H2.
  { unfold handle. erewrite bind_step by reflexivity. rewrite prepend_nil.
    change (pending s1) with true. cbn [when].
    rewrite (settle_spec s1 (VideoPlayer.new_player uo)) by reflexivity.
    rewrite Hload. cbn [state_of effects_of fst snd].
    rewrite Hv, bool_decide_eq_true_2 by done.
    unfold collapsed_by. by rewrite Hni. }
  assert (run (cb := cb)
            [Observe entries; Loaded (VideoPlayer.FetchDocument doc)] s0
          = (s2, omap passthrough
                   (render_effects vd (VideoPlayer.make_options uo)))) as Hrun.
  { cbn [run]. rewrite H1. cbn [state_of effects_of fst snd].
    rewrite H2. cbn [state_of effects_of fst snd app]. by rewrite app_nil_r. }
  split.
  - rewrite Hrun. cbn [fst snd]. split; [reflexivity|]. split.
    + unfold render_effects. cbn [VideoPlayer.autoplay VideoPlayer.make_options
        uo player_options VideoPlayer.given_autoplay VideoPlayer.spread default
        from_option id].
      rewrite omap_app.
      by destruct (VideoPlayer.truthy_string (impressionUrl vd)).
    + change (player s2) with (Some p2).
      cbn [fmap option_fmap option_map]. rewrite Hv.
      unfold p2 at 1. rewrite render_result_container.
      assert (VideoPlayer.video_muted v = true) as Hm.
      { revert Hv. unfold p2, render_result.
        destruct (Vast.skipOffset vd); by intros [= <-]. }
      cbn [fmap option_fmap option_map]. by rewrite Hm.
  - destruct (run_video_outstream vd uo (collapsed_style w) mid s2 p2
                eq_refl Hr2 eq_refl) as [(p3 & Hp3 & Hr3) Hst].
    assert (fst (run (cb := cb)
                   ([Observe entries; Loaded (VideoPlayer.FetchDocument doc)]
                    ++ map Video mid) s0)
            = fst (run (cb := cb) (map Video mid) s2)) as Hmid.
    { by rewrite run_app_outstream, Hrun. }
    rewrite Hmid.
    set (s3 := fst (run (cb := cb) (map Video mid) s2)) in *.
    pose proof (handle_ended_outstream vd s3 p3 uo Hp3 Hr3 eq_refl eq_refl)
      as H3.
    split; [|split].
    + rewrite app_assoc, run_app_outstream. cbn [fst]. rewrite Hmid.
      fold s3. cbn [run]. rewrite H3. cbn [state_of fst snd style set_style].
      exact Hst.
    + by rewrite H3.
    + rewrite H3. by destruct s3.
Qed.

End OutstreamCompletion.

(** A callback with two intersecting entries on an instance without VAST
    URL logs the missing URL once. *)
Lemma outstream_loads_once_witness :
  effects_of (Outstream.handle (cb := Empty_set)
                (Outstream.Observe [false; true; true])
                (outstream_ready (cb := Empty_set)
                   (Outstream.mkUserOptions None) 300))
  = [ConsoleError "No VAST URL provided"].
Proof.
  exact (f_equal effects_of
           (proj1 (outstream_loads_once
                     (outstream_ready (cb := Empty_set)
                        (Outstream.mkUserOptions None) 300)
                     [false; true; true] [] [] eq_refl eq_refl eq_refl))).
Defined.

Lemma outstream_waits_for_visibility_witness :
  Outstream.run (cb := Empty_set)
    [Outstream.Observe [false; false];
     Outstream.Loaded (VideoPlayer.FetchDocument Samples.skippable_doc);
     Outstream.Video VideoPlayer.Ended]
    (outstream_ready (cb := Empty_set) outstream_sample 300)
  = (outstream_ready (cb := Empty_set) outstream_sample 300, []).
Proof. by apply outstream_waits_for_visibility. Defined.

Lemma outstream_collapses_on_completion_witness :
  Outstream.style
    (fst (Outstream.run (cb := Empty_set)
            [Outstream.Observe [true];
             Outstream.Loaded (VideoPlayer.FetchDocument Samples.skippable_doc);
             Outstream.Video VideoPlayer.Play;
             Outstream.Video (VideoPlayer.TimeUpdate (of_Z 30) (of_Z 30));
             Outstream.Video VideoPlayer.Ended]
            (outstream_ready (cb := Empty_set) outstream_sample 0)))
  = collapsed_style 0.
Proof.
  apply (proj1 (proj2 (outstream_collapses_on_completion
                         outstream_sample 0 [true] Samples.skippable_doc
                         [VideoPlayer.Play;
                          VideoPlayer.TimeUpdate (of_Z 30) (of_Z 30)]
                         (mk_is_Some _ _ eq_refl) eq_refl
                         (mk_is_Some _ _ eq_refl)))).
Defined.

(* ===================================================================== *)
(** ** Closing the rewarded ad *)
(* ===================================================================== *)

Section RewardedClose.
Context {cb : Type}.
Implicit Types (s : Rewarded.State cb) (p : VideoPlayer.Player Rewarded.closure).

Import Rewarded.

Lemma handle_CallClose_closes s p :
  player s = Some p ->
  handle CallClose s
  = (Return tt, rewarded_closed p s,
     pause_effects p ++ callback_effects (onClose (options s)) []).
Proof.
  intros Hp. unfold handle. erewrite bind_step by reflexivity.
  rewrite prepend_nil. by rewrite (close_spec_rewarded s p Hp).
Qed.

Lemma rewarded_closed_twice s p :
  rewarded_closed (destroyed p) (rewarded_closed p s) = rewarded_closed p s.
Proof.
  unfold rewarded_closed. cbn. rewrite destroyed_twice.
  by destruct (overlay s).
Qed.

Lemma pause_effects_destroyed p :
  pause_effects (cb := cb) (destroyed p) = pause_effects p.
Proof.
  unfold pause_effects, destroyed.
  by destruct (VideoPlayer.videoElement p) eqn:E; cbn; rewrite ?E.
Qed.

(** X16. [close()] of the rewarded ad is not latched either, and it does
    not cancel a reward. On an instance with a player, every call pauses
    the video (when one was rendered) and invokes the close callback, so
    [n + 1] calls do both [n + 1] times; the state is that of the first
    call: player destroyed, overlay removed. The timeouts of rewards
    already granted are left in place, so such a reward is still delivered
    to the reward callback after the ad was closed. *)
Theorem rewarded_close_repeats s p (n : nat) :
  player s = Some p ->
  run (replicate (S n) CallClose) s
  = (rewarded_closed p s,
     concat (replicate (S n)
               (pause_effects p ++ callback_effects (onClose (options s)) [])))
  /\ (timeouts s <> 0%nat ->
      effects_of (handle Timeout (fst (run (replicate (S n) CallClose) s)))
      = callback_effects (onReward (options s)) [reward_object (options s)]).
Proof.
  intros Hp.
  assert (run (replicate (S n) CallClose) s
          = (rewarded_closed p s,
             concat (replicate (S n)
                       (pause_effects p
                        ++ callback_effects (onClose (options s)) []))))
    as Hrun.
  { revert s p Hp. induction n as [|n IH]; intros s p Hp.
    - cbn [replicate run]. rewrite (handle_CallClose_closes s p Hp).
      cbn [state_of effects_of fst snd concat]. reflexivity.
    - change (replicate (S (S n)) CallClose)
        with (CallClose :: replicate (S n) CallClose).
      cbn [run]. rewrite (handle_CallClose_closes s p Hp).
      cbn [state_of effects_of fst snd].
      rewrite (IH (rewarded_closed p s) (destroyed p)) by reflexivity.
      cbn [fst snd]. rewrite rewarded_closed_twice, pause_effects_destroyed.
      reflexivity. }
  split; [exact Hrun|].
  intros Ht. rewrite Hrun. cbn [fst].
  unfold handle. erewrite bind_step by reflexivity. rewrite prepend_nil.
  cbn [timeouts rewarded_closed]. rewrite bool_decide_eq_true_2 by done.
  cbn [when]. unfold reward_timeout. run_prims.
  unfold call_if_set, callback_effects.
  cbn [options rewarded_closed].
  by destruct (onReward (options s)).
Qed.

End RewardedClose.

Lemma rewarded_close_repeats_witness :
  snd (Rewarded.run [Rewarded.CallClose; Rewarded.CallClose]
         Samples.loaded_rewarded)
  = [VideoPause; Invoke "onClose" []; VideoPause; Invoke "onClose" []].
Proof.
  exact (f_equal snd
           (proj1 (rewarded_close_repeats Samples.loaded_rewarded _ 1
                     eq_refl))).
Defined.
